(** * Frame scoring, classification and variety selection of the
      video-to-screenshot pipeline

    Shallow embedding of
    [packages/desktop/python/screenshot_tool/pipeline.py].

    Conventions of the embedding:
    - Python [float] values (timestamps, sharpness, energies, scores) are
      exact rationals [Q]; a comparison against a literal such as [0.05]
      is the comparison against the rational [5/100].
    - Python [int] values are [Z].
    - A [dict] read with [d.get(k, default)] is a record whose field is an
      [option]; the getter applies the default.
    - A [set] is a duplicate-free list, an insertion-ordered [dict] an
      association list in insertion order. *)

From Stdlib Require Import List ZArith QArith Qminmax Qabs Qround.
From Stdlib Require Import String Ascii Bool Lia Lqa.
From Stdlib Require Import Permutation Sorted.
Import ListNotations.

Local Open Scope Q_scope.

(* ------------------------------------------------------------------ *)
(** * Numeric helpers *)

Module Num.

(** [a < b] on floats. *)
Definition Qltb (a b : Q) : bool := negb (Qle_bool b a).

(** [a >= b] on floats. *)
Definition Qgeb (a b : Q) : bool := Qle_bool b a.

(** [a > b] on floats. *)
Definition Qgtb (a b : Q) : bool := Qltb b a.

(** [np.clip(x, lo, hi)], that is [minimum(maximum(x, lo), hi)]. *)
Definition clip (x lo hi : Q) : Q := Qmin (Qmax x lo) hi.

End Num.
Import Num.

(* ------------------------------------------------------------------ *)
(** * SmileEstimator: the width component of [_estimate_smile_106] *)

Module Smile.

(** [width_ratio = mouth_width / eye_distance if eye_distance > 0 else 0] *)
Definition width_ratio (mouth_width eye_distance : Q) : Q :=
  if Qgtb eye_distance 0 then mouth_width / eye_distance else 0.

(** [width_score = np.clip((width_ratio - 0.9) * 3, 0.0, 1.0)] *)
Definition width_score (mouth_width eye_distance : Q) : Q :=
  clip ((width_ratio mouth_width eye_distance - (9 # 10)) * 3) 0 1.

(** [openness_score = np.clip(openness_ratio * 2, 0.0, 0.5)] with
    [openness_ratio = mouth_height / mouth_width if mouth_width > 0 else 0] *)
Definition openness_score (mouth_height mouth_width : Q) : Q :=
  clip ((if Qgtb mouth_width 0 then mouth_height / mouth_width else 0) * 2)
       0 (1 # 2).

(** [lift_score = np.clip(avg_lift / (face_height * 0.03) + 0.5, 0, 1)]
    with [face_height = eye_distance * 1.5]. *)
Definition lift_score (avg_lift eye_distance : Q) : Q :=
  clip (avg_lift / ((eye_distance * (3 # 2)) * (3 # 100)) + (1 # 2)) 0 1.

(** The combined score returned by [_estimate_smile_106], as a function
    of the measured distances. *)
Definition smile_score
    (mouth_width mouth_height eye_distance avg_lift : Q) : Q :=
  clip (width_score mouth_width eye_distance * (4 # 10)
        + lift_score avg_lift eye_distance * (4 # 10)
        + openness_score mouth_height mouth_width * (2 # 10)) 0 1.

End Smile.

(* ------------------------------------------------------------------ *)
(** * AudioTimeline *)

Module Audio.

Inductive event_type := silence | applause | speech | music | other.

(** Thresholds of [AudioAnalyzer.analyze] (tuned for wedding audio). *)
Definition silence_threshold : Q := 5 # 100.
Definition speech_zcr_min : Q := 2 # 10.
Definition speech_zcr_max : Q := 6 # 10.
Definition music_centroid_threshold : Q := 4 # 10.
Definition applause_bandwidth_threshold : Q := 5 # 10.

(** The [if/elif] chain that classifies one 1-second segment from the
    means of its smoothed features. *)
Definition classify_segment
    (seg_rms seg_centroid seg_zcr seg_bandwidth : Q) : event_type :=
  if Qltb seg_rms silence_threshold then silence
  else if Qgtb seg_bandwidth applause_bandwidth_threshold
          && Qgtb seg_zcr (4 # 10) then applause
  else if Qltb speech_zcr_min seg_zcr && Qltb seg_zcr speech_zcr_max
          && Qltb seg_centroid music_centroid_threshold then speech
  else if Qgtb seg_centroid music_centroid_threshold
          && Qgtb seg_rms (2 # 10) then music
  else other.

(** [np.searchsorted(times, timestamp)] (side [left]) on an ascending
    array: the first index whose time is not below the timestamp. *)
Fixpoint searchsorted (times : list Q) (timestamp : Q) : nat :=
  match times with
  | [] => O
  | t :: rest =>
      if Qltb t timestamp then S (searchsorted rest timestamp) else O
  end.

(** [AudioAnalyzer.get_energy_at_timestamp]; [energy_curve] is the list
    of [(time, normalised rms)] pairs. *)
Definition get_energy_at_timestamp
    (energy_curve : list (Q * Q)) (timestamp : Q) : Q :=
  match energy_curve with
  | [] => 0
  | first :: _ =>
      let times := map fst energy_curve in
      let idx := searchsorted times timestamp in
      if Nat.eqb idx 0 then snd first
      else if Nat.leb (List.length energy_curve) idx
           then snd (last energy_curve first)
           else snd (nth idx energy_curve first)
  end.

End Audio.


(* ------------------------------------------------------------------ *)
(** * Sorting by a key, largest first *)

Module KeySort.
Section WithKey.
Context {A : Type} (key : A -> Q).

(** Place [x] in a list that is already in descending key order, ahead of
    the first element whose key is not above its own. *)
Fixpoint insert_desc (x : A) (l : list A) : list A :=
  match l with
  | [] => [x]
  | y :: ys =>
      if Qltb (key x) (key y) then y :: insert_desc x ys else x :: y :: ys
  end.

(** [sorted(l, key=key, reverse=True)] and [l.sort(key=key, reverse=True)]:
    descending by key, elements with equal keys kept in their original
    order. *)
Definition sort_desc (l : list A) : list A := fold_right insert_desc [] l.

(** Descending order of the keys. *)
Definition descending (l : list A) : Prop :=
  StronglySorted (fun a b => key b <= key a) l.

End WithKey.
End KeySort.

(* ------------------------------------------------------------------ *)
(** * QualityGate *)

Module Quality.

(** An entry of [frames_info] once [compute_sharpness_scores] has run:
    every frame carries its [sharpness_score]. *)
Record Frame := {
  frame_number : Z;
  scene_index : Z;
  timestamp : Q;
  sharpness_score : Q
}.

(** [ScreenshotPipeline.filter_by_quality] *)
Definition filter_by_quality
    (frames_info : list Frame) (sharpness_threshold : Q) : list Frame :=
  filter (fun frame => Qgeb (sharpness_score frame) sharpness_threshold)
         frames_info.

(** [num_fallback = min(3, max(1, len(sorted_frames) // 5))] *)
Definition num_fallback (n : nat) : Z :=
  Z.min 3 (Z.max 1 (Z.of_nat n / 5)).

(** Phase 3 of [ScreenshotPipeline.run]: the threshold filter, and when
    nothing passes it, the best frames of all those extracted. *)
Definition quality_phase
    (frames_info : list Frame) (sharpness_threshold : Q) : list Frame :=
  let all_frames_with_sharpness := frames_info in
  let filtered := filter_by_quality frames_info sharpness_threshold in
  match filtered, all_frames_with_sharpness with
  | [], _ :: _ =>
      let sorted_frames :=
        KeySort.sort_desc sharpness_score all_frames_with_sharpness in
      firstn (Z.to_nat (num_fallback (List.length sorted_frames)))
             sorted_frames
  | _, _ => filtered
  end.

End Quality.

(* ------------------------------------------------------------------ *)
(** * Outcomes of code that can raise *)

Inductive result (A : Type) : Type :=
| Ok (a : A)
| ZeroDivisionError
| OutOfFuel.
Arguments Ok {A} a.
Arguments ZeroDivisionError {A}.
Arguments OutOfFuel {A}.

(* ------------------------------------------------------------------ *)
(** * SamplingPlanner: the frame numbers chosen by [extract_frames] *)

Module Sampling.

Local Open Scope Z_scope.

(** [int(x)] of a float: truncation towards zero. *)
Definition int_of_float (x : Q) : Z := Z.quot (Qnum x) (Z.pos (Qden x)).

(** [frame_interval = max(1, int(fps * sample_interval))] *)
Definition frame_interval (fps sample_interval : Q) : Z :=
  Z.max 1 (int_of_float (fps * sample_interval)%Q).

(** [candidates.add(x)] on a set of frame numbers. *)
Definition set_add (x : Z) (s : list Z) : list Z :=
  if existsb (Z.eqb x) s then s else s ++ [x].

(** [sorted(candidates)]: ascending order. *)
Fixpoint insert_asc (x : Z) (l : list Z) : list Z :=
  match l with
  | [] => [x]
  | y :: ys => if x <=? y then x :: y :: ys else y :: insert_asc x ys
  end.

Definition sorted (s : list Z) : list Z := fold_right insert_asc [] s.

(** The loop
[[
    while current < end - offset:
        candidates.add(current)
        current += frame_interval
]]
    with [stop = end - offset]; the fuel bounds the number of
    iterations. *)
Fixpoint sample_loop (fuel : nat) (current stop interval : Z)
    (candidates : list Z) : result (list Z) :=
  if current <? stop then
    match fuel with
    | O => OutOfFuel
    | S fuel' =>
        sample_loop fuel' (current + interval) stop interval
                    (set_add current candidates)
    end
  else Ok candidates.

(** The candidate set of one scene that is long enough to be sampled. *)
Definition scene_candidates (scene_duration : Q) (interval start end_ : Z)
    : result (list Z) :=
  let scene_length := end_ - start in
  let candidates := [] in
  let offset := Z.min 3 (scene_length / 4) in
  let candidates := set_add (start + offset) candidates in
  let candidates := set_add ((start + end_) / 2) candidates in
  let candidates := set_add (end_ - offset) candidates in
  if Qgtb scene_duration 1 then
    sample_loop (Z.to_nat (end_ - offset - (start + offset)))
                (start + offset) (end_ - offset) interval candidates
  else Ok candidates.

(** [frame_numbers] and the insertion-ordered dict [frame_to_scene]. *)
Record plan := {
  frame_numbers : list Z;
  frame_to_scene : list (Z * nat)
}.

(** The body of [for frame_num in sorted(candidates)]. *)
Definition register (total_frames : Z) (scene_idx : nat)
    (p : plan) (frame_num : Z) : plan :=
  if (frame_num <? 0) || (total_frames <=? frame_num) then p
  else if existsb (Z.eqb frame_num) (map fst (frame_to_scene p)) then p
  else {| frame_numbers := frame_numbers p ++ [frame_num];
          frame_to_scene := frame_to_scene p ++ [(frame_num, scene_idx)] |}.

(** The body of [for scene_idx, (start, end) in enumerate(scenes)].
    Dividing by a zero [fps] raises. *)
Definition plan_scene (fps : Q) (interval total_frames : Z)
    (p : plan) (scene_idx : nat) (scene : Z * Z) : result plan :=
  let '(start, end_) := scene in
  let scene_length := end_ - start in
  if Qeq_bool fps 0 then ZeroDivisionError
  else
    let scene_duration := (inject_Z scene_length / fps)%Q in
    if Qltb scene_duration (3 # 10) then Ok p
    else
      match scene_candidates scene_duration interval start end_ with
      | Ok candidates =>
          Ok (fold_left (register total_frames scene_idx)
                        (sorted candidates) p)
      | ZeroDivisionError => ZeroDivisionError
      | OutOfFuel => OutOfFuel
      end.

(** The scene loop of [extract_frames], from scene index [scene_idx] on. *)
Fixpoint plan_scenes (fps : Q) (interval total_frames : Z)
    (p : plan) (scene_idx : nat) (scenes : list (Z * Z)) : result plan :=
  match scenes with
  | [] => Ok p
  | scene :: rest =>
      match plan_scene fps interval total_frames p scene_idx scene with
      | Ok p' => plan_scenes fps interval total_frames p' (S scene_idx) rest
      | ZeroDivisionError => ZeroDivisionError
      | OutOfFuel => OutOfFuel
      end
  end.

(** The frame numbers [extract_frames] collects before it extracts. *)
Definition plan_frames (fps sample_interval : Q) (total_frames : Z)
    (scenes : list (Z * Z)) : result plan :=
  plan_scenes fps (frame_interval fps sample_interval) total_frames
              {| frame_numbers := []; frame_to_scene := [] |} O scenes.

End Sampling.

(* ------------------------------------------------------------------ *)
(** * Strings *)

Module Str.

Local Open Scope string_scope.

(** [c.lower()] on one ASCII character; other characters are kept. *)
Definition lower_ascii (c : ascii) : ascii :=
  let n := nat_of_ascii c in
  if Nat.leb 65 n && Nat.leb n 90 then ascii_of_nat (n + 32) else c.

(** [s.lower()] *)
Fixpoint lower (s : string) : string :=
  match s with
  | EmptyString => EmptyString
  | String c rest => String (lower_ascii c) (lower rest)
  end.

(** [' '.join(parts)] *)
Definition join_spaces (parts : list string) : string :=
  String.concat " " parts.

(** [needle in haystack] on strings: substring test. *)
Fixpoint contains (needle haystack : string) : bool :=
  String.prefix needle haystack
  || match haystack with
     | EmptyString => false
     | String _ rest => contains needle rest
     end.

(** [any(w in s for w in words)] and the loops
    [for keyword in keywords: if keyword in s: return ...]. *)
Definition any_in (words : list string) (s : string) : bool :=
  existsb (fun w => contains w s) words.

End Str.

(* ------------------------------------------------------------------ *)
(** * Faces *)

(** A face dict; only the keys the classifiers and the selector read.
    [None] stands for an absent key (for [smile_score] also for the value
    [None]). *)
Record Face := {
  bbox : option (list Q);
  smile_score : option Q
}.

(** [face.get('bbox', [0, 0, 0, 0])] *)
Definition get_bbox (face : Face) : list Q :=
  match bbox face with Some b => b | None => [0; 0; 0; 0] end.

(** [(f.get('smile_score', 0) or 0)] *)
Definition get_smile (face : Face) : Q :=
  match smile_score face with Some s => s | None => 0 end.

(** [(bbox[2] - bbox[0]) * (bbox[3] - bbox[1])] when [len(bbox) >= 4]. *)
Definition bbox_area (b : list Q) : option Q :=
  match b with
  | x1 :: y1 :: x2 :: y2 :: _ => Some ((x2 - x1) * (y2 - y1))
  | _ => None
  end.

(* ------------------------------------------------------------------ *)
(** * FrameClassifier: [classify_frame_category] *)

Module Category.

Local Open Scope string_scope.

Definition detail_keywords : list string :=
  [ "ring"; "rings"; "wedding ring"; "jewelry"; "diamond";
    "flower"; "flowers"; "bouquet"; "floral";
    "cake"; "wedding cake"; "dessert";
    "dress"; "wedding dress"; "gown"; "veil";
    "shoes"; "heels"; "shoe";
    "invitation"; "stationery"; "card";
    "table setting"; "place setting"; "centerpiece";
    "candle"; "candles"; "decoration";
    "tie"; "bow tie"; "cufflinks"; "watch";
    "food"; "champagne"; "wine glass" ].

Definition people_keywords : list string :=
  [ "person"; "people"; "man"; "woman"; "couple";
    "hand"; "hands"; "holding hands";
    "back"; "shoulder"; "shoulders";
    "silhouette"; "shadow";
    "walking"; "dancing"; "standing";
    "bride"; "groom"; "bridesmaid"; "groomsman";
    "guest"; "guests"; "crowd"; "audience" ].

Definition broll_keywords : list string :=
  [ "landscape"; "outdoor"; "outdoors"; "nature";
    "venue"; "building"; "architecture"; "church";
    "sky"; "sunset"; "sunrise"; "clouds";
    "tree"; "trees"; "garden"; "park";
    "interior"; "room"; "hall"; "ballroom";
    "water"; "lake"; "ocean"; "fountain";
    "sign"; "entrance"; "door"; "window" ].

(** The loop over the faces: the summed area and the number of the faces
    whose bounding box has a positive area. *)
Fixpoint sum_valid_faces (faces : list Face)
    (total_face_area : Q) (valid_faces : Z) : Q * Z :=
  match faces with
  | [] => (total_face_area, valid_faces)
  | face :: rest =>
      match bbox_area (get_bbox face) with
      | Some face_area =>
          if Qgtb face_area 0
          then sum_valid_faces rest (total_face_area + face_area)
                               (valid_faces + 1)%Z
          else sum_valid_faces rest total_face_area valid_faces
      | None => sum_valid_faces rest total_face_area valid_faces
      end
  end.

(** The tag tests that follow the face test. *)
Definition category_of_tags (tags_str : string) : string :=
  if Str.any_in detail_keywords tags_str then "detail"
  else if Str.any_in people_keywords tags_str then "people_roll"
  else if Str.any_in broll_keywords tags_str then "broll"
  else "broll".

(** [classify_frame_category(faces, tags, image_width, image_height)];
    a frame of area zero makes the percentage computation raise. *)
Definition classify_frame_category
    (faces : list Face) (tags : list string)
    (image_width image_height : Z) : result string :=
  let tags_lower := map Str.lower tags in
  let tags_str := Str.join_spaces tags_lower in
  match faces with
  | _ :: _ =>
      let frame_area := (image_width * image_height)%Z in
      let '(total_face_area, valid_faces) := sum_valid_faces faces 0 0%Z in
      if (0 <? valid_faces)%Z then
        if (frame_area =? 0)%Z then ZeroDivisionError
        else
          let avg_face_pct :=
            (total_face_area / inject_Z valid_faces)
            / inject_Z frame_area * 100 in
          if Qgeb avg_face_pct (5 # 10) then Ok "people_face"
          else Ok (category_of_tags tags_str)
      else Ok (category_of_tags tags_str)
  | [] => Ok (category_of_tags tags_str)
  end.

End Category.

(* ------------------------------------------------------------------ *)
(** * Candidates *)

(** An entry of [selection_reasons].  Each constructor stands for one of
    the formatted strings the selector writes:
    ['too_close_to_existing'], [f'new_faces:{...}'],
    [f'new_composition:{...}'], [f'high_smile:{...:.2f}'],
    [f'audio_peak:{...}'], [f'audio_moment:{...}'],
    [f'very_sharp:{...:.0f}'], [f'unique_broll:{...}'],
    [f'best_{category}'], [f'score:{...:.2f}'], ['scene_coverage']. *)
Inductive reason :=
| too_close_to_existing
| new_faces (ids : list Z)
| new_composition (composition : string)
| high_smile (max_smile : Q)
| audio_peak (audio_type : string)
| audio_moment (audio_type : string)
| very_sharp (sharpness : Q)
| unique_broll (tags : list string)
| best_of (category : string)
| score (quality : Q)
| scene_coverage.

(** A candidate dict.  [obj_id] is the identity of the Python object;
    every other field is a key of the dict, [None] when the key is
    absent. *)
Record Candidate := {
  obj_id : nat;
  frame_number : option Z;
  timestamp : option Q;
  scene_index : option Z;
  sharpness_score : option Q;
  faces : option (list Face);
  tags : option (list string);
  is_broll : option bool;
  frame_category : option string;
  cluster_labels : option (list (string * Z));
  audio_type : option string;
  audio_intensity : option Q;
  is_audio_peak : option bool;
  max_smile_score : option Q;
  quality_score : option Q;
  selection_reasons : option (list reason)
}.

Module Get.

(** [d.get(key, default)] *)
Definition get {A} (field : option A) (default : A) : A :=
  match field with Some v => v | None => default end.

Definition scene_index_of (c : Candidate) : Z := get (scene_index c) 0%Z.
Definition timestamp_of (c : Candidate) : Q := get (timestamp c) 0.
Definition faces_of (c : Candidate) : list Face := get (faces c) [].
Definition tags_of (c : Candidate) : list string := get (tags c) [].
Definition category_of (c : Candidate) : string :=
  get (frame_category c) "broll"%string.

End Get.

(** Equality of candidate dicts, [a == b]: key by key, numbers compared
    by value. *)
Module DictEq.

Definition option_eqb {A} (eqb : A -> A -> bool) (a b : option A) : bool :=
  match a, b with
  | Some x, Some y => eqb x y
  | None, None => true
  | _, _ => false
  end.

Fixpoint list_eqb {A} (eqb : A -> A -> bool) (a b : list A) : bool :=
  match a, b with
  | [], [] => true
  | x :: a', y :: b' => eqb x y && list_eqb eqb a' b'
  | _, _ => false
  end.

Definition face_eqb (a b : Face) : bool :=
  option_eqb (list_eqb Qeq_bool) (bbox a) (bbox b)
  && option_eqb Qeq_bool (smile_score a) (smile_score b).

Definition reason_eqb (a b : reason) : bool :=
  match a, b with
  | too_close_to_existing, too_close_to_existing => true
  | new_faces x, new_faces y => list_eqb Z.eqb x y
  | new_composition x, new_composition y => String.eqb x y
  | high_smile x, high_smile y => Qeq_bool x y
  | audio_peak x, audio_peak y => String.eqb x y
  | audio_moment x, audio_moment y => String.eqb x y
  | very_sharp x, very_sharp y => Qeq_bool x y
  | unique_broll x, unique_broll y => list_eqb String.eqb x y
  | best_of x, best_of y => String.eqb x y
  | score x, score y => Qeq_bool x y
  | scene_coverage, scene_coverage => true
  | _, _ => false
  end.

Definition label_eqb (a b : string * Z) : bool :=
  String.eqb (fst a) (fst b) && Z.eqb (snd a) (snd b).

Definition candidate_eqb (a b : Candidate) : bool :=
  option_eqb Z.eqb (frame_number a) (frame_number b)
  && option_eqb Qeq_bool (timestamp a) (timestamp b)
  && option_eqb Z.eqb (scene_index a) (scene_index b)
  && option_eqb Qeq_bool (sharpness_score a) (sharpness_score b)
  && option_eqb (list_eqb face_eqb) (faces a) (faces b)
  && option_eqb (list_eqb String.eqb) (tags a) (tags b)
  && option_eqb Bool.eqb (is_broll a) (is_broll b)
  && option_eqb String.eqb (frame_category a) (frame_category b)
  && option_eqb (list_eqb label_eqb) (cluster_labels a) (cluster_labels b)
  && option_eqb String.eqb (audio_type a) (audio_type b)
  && option_eqb Qeq_bool (audio_intensity a) (audio_intensity b)
  && option_eqb Bool.eqb (is_audio_peak a) (is_audio_peak b)
  && option_eqb Qeq_bool (max_smile_score a) (max_smile_score b)
  && option_eqb Qeq_bool (quality_score a) (quality_score b)
  && option_eqb (list_eqb reason_eqb)
                (selection_reasons a) (selection_reasons b).

(** [candidate in selected]: the same object, or an equal dict. *)
Definition candidate_in (c : Candidate) (selected : list Candidate) : bool :=
  existsb (fun s => Nat.eqb (obj_id c) (obj_id s) || candidate_eqb c s)
          selected.

End DictEq.

(** [c['_quality_score'] = q] *)
Definition set_quality_score (q : option Q) (c : Candidate) : Candidate :=
  {| obj_id := obj_id c; frame_number := frame_number c;
     timestamp := timestamp c; scene_index := scene_index c;
     sharpness_score := sharpness_score c; faces := faces c;
     tags := tags c; is_broll := is_broll c;
     frame_category := frame_category c;
     cluster_labels := cluster_labels c; audio_type := audio_type c;
     audio_intensity := audio_intensity c;
     is_audio_peak := is_audio_peak c;
     max_smile_score := max_smile_score c;
     quality_score := q;
     selection_reasons := selection_reasons c |}.

(** [c['selection_reasons'] = reasons] *)
Definition set_selection_reasons (reasons : list reason) (c : Candidate)
    : Candidate :=
  {| obj_id := obj_id c; frame_number := frame_number c;
     timestamp := timestamp c; scene_index := scene_index c;
     sharpness_score := sharpness_score c; faces := faces c;
     tags := tags c; is_broll := is_broll c;
     frame_category := frame_category c;
     cluster_labels := cluster_labels c; audio_type := audio_type c;
     audio_intensity := audio_intensity c;
     is_audio_peak := is_audio_peak c;
     max_smile_score := max_smile_score c;
     quality_score := quality_score c;
     selection_reasons := Some reasons |}.

(** An insertion-ordered dict of lists: [d[k].append(v)], creating the
    list on the first use of [k]. *)
Module Groups.
Section WithKey.
Context {K V : Type} (eqb : K -> K -> bool).

Fixpoint append (k : K) (v : V) (d : list (K * list V))
    : list (K * list V) :=
  match d with
  | [] => [(k, [v])]
  | (k', vs) :: rest =>
      if eqb k k' then (k', vs ++ [v]) :: rest
      else (k', vs) :: append k v rest
  end.

Definition group_by (key : V -> K) (l : list V) : list (K * list V) :=
  fold_left (fun d v => append (key v) v d) l [].

Fixpoint lookup (k : K) (d : list (K * list V)) : option (list V) :=
  match d with
  | [] => None
  | (k', vs) :: rest => if eqb k k' then Some vs else lookup k rest
  end.

End WithKey.
End Groups.

(* ------------------------------------------------------------------ *)
(** * VarietySelector *)

Module VarietySelector.

Import Get.
Local Open Scope string_scope.

(** The state of a selector instance. *)
Record t := {
  seen_faces : list Z;
  seen_compositions : list (Z * list string);
  min_timestamp_gap : Q
}.

(** [VarietySelector.__init__] *)
Definition init : t :=
  {| seen_faces := []; seen_compositions := []; min_timestamp_gap := 1 |}.

(** The sum of [width * height] over the faces with a 4-entry box. *)
Fixpoint sum_face_area (faces : list Face) (total_face_area : Q) : Q :=
  match faces with
  | [] => total_face_area
  | face :: rest =>
      match bbox_area (get_bbox face) with
      | Some a => sum_face_area rest (total_face_area + a)
      | None => sum_face_area rest total_face_area
      end
  end.

(** [VarietySelector.classify_composition] *)
Definition classify_composition (candidate : Candidate) : string :=
  match faces_of candidate with
  | [] =>
      let tag_str := Str.lower (Str.join_spaces (tags_of candidate)) in
      if Str.any_in ["landscape"; "outdoor"; "venue"; "building"; "sky"]
                    tag_str then "wide"
      else if Str.any_in ["detail"; "close"; "flower"; "ring"; "food"]
                         tag_str then "close"
      else "medium"
  | faces =>
      let total_face_area := sum_face_area faces 0 in
      let avg_face_area :=
        total_face_area / inject_Z (Z.of_nat (List.length faces)) in
      if Qgtb avg_face_area 100000 then "close"
      else if Qgtb avg_face_area 30000 then "medium"
      else "wide"
  end.

(** [clusters.add(cluster_id)] *)
Definition set_add (x : Z) (s : list Z) : list Z :=
  if existsb (Z.eqb x) s then s else (s ++ [x])%list.

(** [VarietySelector.get_face_clusters] *)
Definition get_face_clusters (candidate : Candidate) : list Z :=
  fold_left
    (fun clusters kv => if (0 <=? snd kv)%Z then set_add (snd kv) clusters
                        else clusters)
    (get (cluster_labels candidate) []) [].

(** [abs(timestamp - t) < gap] for some [t] of [selected_timestamps]. *)
Definition too_close (gap timestamp : Q) (selected_timestamps : list Q)
    : bool :=
  existsb (fun t => Qltb (Qabs (timestamp - t)) gap) selected_timestamps.

(** [min(abs(timestamp - t) for t in ts)] on a non-empty list. *)
Definition min_gap (timestamp first : Q) (others : list Q) : Q :=
  fold_left (fun m t => if Qltb (Qabs (timestamp - t)) m
                        then Qabs (timestamp - t) else m)
            others (Qabs (timestamp - first)).

(** [max(xs)] on a non-empty list of numbers. *)
Definition max_of (first : Q) (others : list Q) : Q :=
  fold_left (fun m x => if Qltb m x then x else m) others first.

(** [set(tags)], [len(a & b)] and [len(a | b)] on tag sets. *)
Definition tag_set (tags : list string) : list string :=
  nodup string_dec tags.

Definition inter_size (a b : list string) : Z :=
  Z.of_nat (List.length
              (filter (fun x => existsb (String.eqb x) b) a)).

Definition union_size (a b : list string) : Z :=
  Z.of_nat (List.length
              (a ++ filter (fun x => negb (existsb (String.eqb x) a)) b)%list).

(** [len(tags & selected_tags) / max(len(tags | selected_tags), 1)] *)
Definition overlap (tags selected_tags : list string) : Q :=
  inject_Z (inter_size tags selected_tags)
  / inject_Z (Z.max (union_size tags selected_tags) 1).

(** The loop that looks for an accepted b-roll frame with more than 50%
    tag overlap. *)
Definition similar_broll (tags : list string) (all_selected : list Candidate)
    : bool :=
  existsb
    (fun selected =>
       get (is_broll selected) false
       && Qgtb (overlap tags (tag_set (tags_of selected))) (5 # 10))
    all_selected.

(** The seven criteria of [should_keep], each giving zero or one reason. *)
Definition criterion_new_faces (self : t) (candidate : Candidate)
    : list reason :=
  let face_clusters := get_face_clusters candidate in
  let new :=
    filter (fun id => negb (existsb (Z.eqb id) (seen_faces self)))
           face_clusters in
  match new with [] => [] | _ => [new_faces new] end.

Definition criterion_composition (self : t) (candidate : Candidate)
    : list reason :=
  let scene_idx := scene_index_of candidate in
  let composition := classify_composition candidate in
  let scene_compositions :=
    get (Groups.lookup Z.eqb scene_idx (seen_compositions self)) [] in
  if existsb (String.eqb composition) scene_compositions then []
  else [new_composition composition].

Definition max_smile_of (candidate : Candidate) : Q :=
  match faces_of candidate with
  | [] => get (max_smile_score candidate) 0
  | f :: fs => max_of (get_smile f) (map get_smile fs)
  end.

Definition criterion_smile (candidate : Candidate) : list reason :=
  let max_smile := max_smile_of candidate in
  if Qgtb max_smile (6 # 10) then [high_smile max_smile] else [].

Definition criterion_audio_peak (candidate : Candidate) : list reason :=
  if get (is_audio_peak candidate) false
  then [audio_peak (get (audio_type candidate) "unknown")]
  else [].

Definition criterion_audio_moment (candidate : Candidate) : list reason :=
  match audio_type candidate with
  | Some ty =>
      if String.eqb ty "applause" || String.eqb ty "music" then
        if Qgtb (get (audio_intensity candidate) 0) (5 # 10)
        then [audio_moment ty] else []
      else []
  | None => []
  end.

Definition criterion_sharpness (candidate : Candidate) : list reason :=
  let sharpness := get (sharpness_score candidate) 0 in
  if Qgtb sharpness 500 then [very_sharp sharpness] else [].

Definition criterion_broll (candidate : Candidate)
    (all_selected : list Candidate) : list reason :=
  if get (is_broll candidate) false then
    let tags := tag_set (tags_of candidate) in
    if negb (similar_broll tags all_selected)
       && negb (Nat.eqb (List.length tags) 0)
    then [unique_broll (firstn 3 tags)] else []
  else [].

(** [VarietySelector.should_keep] *)
Definition should_keep (self : t) (candidate : Candidate)
    (all_selected : list Candidate) : bool * list reason :=
  let scene_idx := scene_index_of candidate in
  let timestamp := timestamp_of candidate in
  let same_scene_timestamps :=
    map timestamp_of
        (filter (fun s => DictEq.option_eqb Z.eqb
                            (scene_index s) (Some scene_idx))
                all_selected) in
  let reasons :=
    (criterion_new_faces self candidate
     ++ criterion_composition self candidate
     ++ criterion_smile candidate
     ++ criterion_audio_peak candidate
     ++ criterion_audio_moment candidate
     ++ criterion_sharpness candidate
     ++ criterion_broll candidate all_selected)%list in
  match same_scene_timestamps with
  | first :: others =>
      if Qltb (min_gap timestamp first others) (min_timestamp_gap self)
      then (false, [too_close_to_existing])
      else (negb (Nat.eqb (List.length reasons) 0), reasons)
  | [] => (negb (Nat.eqb (List.length reasons) 0), reasons)
  end.

(** [VarietySelector.compute_quality_score] *)
Definition compute_quality_score (candidate : Candidate) : Q :=
  let sharpness := get (sharpness_score candidate) 0 in
  let sharpness_norm := Qmin 1 (Qmax 0 ((sharpness - 50) / 450)) in
  let faces := faces_of candidate in
  let smile :=
    match faces with
    | [] => 0
    | f :: fs => max_of (get_smile f) (map get_smile fs)
    end in
  let audio_boost :=
    if get (is_audio_peak candidate) false then 2 # 10 else 0 in
  let face_boost :=
    match faces with
    | [] => 0
    | _ => Qmin (15 # 100)
                (inject_Z (Z.of_nat (List.length faces)) * (5 # 100))
    end in
  sharpness_norm * (4 # 10) + smile * (3 # 10) + audio_boost + face_boost.

(** The two lists a scene's selection builds side by side. *)
Record picked := {
  scene_selected : list Candidate;
  selected_timestamps : list Q
}.

(** [len(scene_selected) >= n] *)
Definition full (p : picked) (n : Z) : bool :=
  (n <=? Z.of_nat (List.length (scene_selected p)))%Z.

(** Setting the reasons of a candidate and appending it and its
    timestamp. *)
Definition accept (reasons : list reason) (candidate : Candidate)
    (p : picked) : picked :=
  {| scene_selected :=
       (scene_selected p
        ++ [set_selection_reasons reasons candidate])%list;
     selected_timestamps :=
       (selected_timestamps p ++ [timestamp_of candidate])%list |}.

(** The inner loop [for candidate in by_category[category]]: the first
    candidate far enough from the accepted timestamps is taken, then the
    loop is left. *)
Fixpoint pick_from_category (gap : Q) (max_per_scene : Z)
    (category : string) (candidates : list Candidate) (p : picked)
    : picked :=
  match candidates with
  | [] => p
  | candidate :: rest =>
      if full p max_per_scene then p
      else if too_close gap (timestamp_of candidate) (selected_timestamps p)
      then pick_from_category gap max_per_scene category rest p
      else accept [best_of category;
                   score (get (quality_score candidate) 0)] candidate p
  end.

(** The outer loop [for category in category_priority]. *)
Fixpoint pick_by_category (gap : Q) (max_per_scene : Z)
    (category_priority : list string)
    (by_category : list (string * list Candidate)) (p : picked) : picked :=
  match category_priority with
  | [] => p
  | category :: rest =>
      if full p max_per_scene then p
      else
        match Groups.lookup String.eqb category by_category with
        | None => pick_by_category gap max_per_scene rest by_category p
        | Some candidates =>
            pick_by_category gap max_per_scene rest by_category
              (pick_from_category gap max_per_scene category candidates p)
        end
  end.

(** The loop of the minimum fill, [for candidate in scene_candidates]. *)
Fixpoint fill_minimum (gap : Q) (min_per_scene : Z)
    (scene_candidates : list Candidate) (p : picked) : picked :=
  match scene_candidates with
  | [] => p
  | candidate :: rest =>
      if full p min_per_scene then p
      else if DictEq.candidate_in candidate (scene_selected p)
      then fill_minimum gap min_per_scene rest p
      else if too_close gap (timestamp_of candidate) (selected_timestamps p)
      then fill_minimum gap min_per_scene rest p
      else fill_minimum gap min_per_scene rest
             (accept [scene_coverage] candidate p)
  end.

Definition category_priority : list string :=
  ["people_face"; "people_roll"; "detail"; "broll"].

(** The body of [for scene_idx, scene_candidates in scenes.items()]: the
    list [scene_selected] of one scene. *)
Definition select_scene (self : t) (min_per_scene max_per_scene : Z)
    (scene_candidates : list Candidate) : list Candidate :=
  let scene_candidates :=
    map (fun c => set_quality_score (Some (compute_quality_score c)) c)
        scene_candidates in
  let scene_candidates :=
    KeySort.sort_desc (fun x => get (quality_score x) 0) scene_candidates in
  let by_category := Groups.group_by String.eqb category_of scene_candidates in
  let p := {| scene_selected := []; selected_timestamps := [] |} in
  let p := pick_by_category (min_timestamp_gap self) max_per_scene
             category_priority by_category p in
  let p :=
    if negb (full p min_per_scene)
    then fill_minimum (min_timestamp_gap self) min_per_scene
           scene_candidates p
    else p in
  scene_selected p.

(** [d.setdefault(k, set()).add(x)] on a dict of string sets: the two
    statements of [update_state] that touch [seen_compositions]. *)
Fixpoint dict_set_add (k : Z) (x : string) (d : list (Z * list string))
    : list (Z * list string) :=
  match d with
  | [] => [(k, [x])]
  | (k', s) :: rest =>
      if Z.eqb k k'
      then (k', if existsb (String.eqb x) s then s else (s ++ [x])%list)
           :: rest
      else (k', s) :: dict_set_add k x rest
  end.

(** [VarietySelector.update_state] *)
Definition update_state (self : t) (candidate : Candidate) : t :=
  {| seen_faces :=
       fold_left (fun seen id => set_add id seen)
                 (get_face_clusters candidate) (seen_faces self);
     seen_compositions :=
       dict_set_add (scene_index_of candidate)
                    (classify_composition candidate)
                    (seen_compositions self);
     min_timestamp_gap := min_timestamp_gap self |}.

(** One turn of the scene loop: what [selected.extend(scene_selected)]
    adds for the entry [(scene_idx, scene_candidates)] of [scenes]. *)
Definition per_scene (self : t) (min_per_scene max_per_scene : Z)
    (kv : Z * list Candidate) : list Candidate :=
  select_scene self min_per_scene max_per_scene (snd kv).

(** [VarietySelector.select]: the returned list; the defaults of the
    keyword arguments are [min_per_scene = 1] and [max_per_scene = 3]. *)
Definition select (self : t) (candidates : list Candidate)
    (min_per_scene max_per_scene : Z) : list Candidate :=
  let scenes := Groups.group_by Z.eqb scene_index_of candidates in
  let selected :=
    flat_map (per_scene self min_per_scene max_per_scene) scenes in
  map (set_quality_score None) selected.

End VarietySelector.

(* ------------------------------------------------------------------ *)
(** * Sample inputs *)

Module Sample.

(** A b-roll candidate without faces, tags or audio annotations. *)
Definition plain (id : nat) (scene : Z) (time sharpness : Q)
    (category : string) : Candidate :=
  {| obj_id := id; frame_number := Some (Z.of_nat id);
     timestamp := Some time; scene_index := Some scene;
     sharpness_score := Some sharpness; faces := Some [];
     tags := Some []; is_broll := Some true;
     frame_category := Some category; cluster_labels := None;
     audio_type := None; audio_intensity := None;
     is_audio_peak := None; max_smile_score := None;
     quality_score := None; selection_reasons := None |}.

(** The same candidate, flagged as an audio peak. *)
Definition with_audio_peak (c : Candidate) : Candidate :=
  {| obj_id := obj_id c; frame_number := frame_number c;
     timestamp := timestamp c; scene_index := scene_index c;
     sharpness_score := sharpness_score c; faces := faces c;
     tags := tags c; is_broll := is_broll c;
     frame_category := frame_category c;
     cluster_labels := cluster_labels c; audio_type := audio_type c;
     audio_intensity := audio_intensity c;
     is_audio_peak := Some true;
     max_smile_score := max_smile_score c;
     quality_score := quality_score c;
     selection_reasons := selection_reasons c |}.

End Sample.

(* ------------------------------------------------------------------ *)
(** * Vocabulary of the statements *)

(** Every list of a dict of lists holds values of its own key only. *)
Definition keyed {K V : Type} (key : V -> K) (d : list (K * list V))
    : Prop :=
  forall k vs v, In (k, vs) d -> In v vs -> key v = k.

(** A property of the two selection lists that survives every acceptance
    a loop can make: the loop accepts a candidate of [pool] only while
    fewer than [limit] are accepted, and never one that is too close to
    an accepted timestamp. *)
Definition accept_step (gap : Q) (I : VarietySelector.picked -> Prop)
    (limit : Z) (pool : list Candidate) : Prop :=
  forall c p r,
    In c pool -> I p -> VarietySelector.full p limit = false ->
    VarietySelector.too_close gap (Get.timestamp_of c)
      (VarietySelector.selected_timestamps p) = false ->
    I (VarietySelector.accept r c p).

(** The scored and sorted candidates of a scene. *)
Definition scored_candidates (scene_candidates : list Candidate)
    : list Candidate :=
  KeySort.sort_desc (fun x => Get.get (quality_score x) 0)
    (map (fun c => set_quality_score
                     (Some (VarietySelector.compute_quality_score c)) c)
         scene_candidates).

(** The candidates of scene [k] in a list. *)
Definition in_scene (k : Z) (l : list Candidate) : list Candidate :=
  filter (fun c => Z.eqb (Get.scene_index_of c) k) l.

(* ------------------------------------------------------------------ *)
(** * SceneDetector: the frame-count fallback *)

Module SceneFallback.

Local Open Scope Z_scope.

(** The loop
[[
    while start < total_frames:
        end = min(start + scene_length, total_frames - 1)
        scenes.append((start, end))
        start = end + 1
]]
    of [_fallback_detect]; the fuel bounds the number of iterations. *)
Fixpoint fallback_loop (fuel : nat) (start scene_length total_frames : Z)
    (scenes : list (Z * Z)) : result (list (Z * Z)) :=
  if start <? total_frames then
    match fuel with
    | O => OutOfFuel
    | S fuel' =>
        let end_ := Z.min (start + scene_length) (total_frames - 1) in
        fallback_loop fuel' (end_ + 1) scene_length total_frames
                      (scenes ++ [(start, end_)])
    end
  else Ok scenes.

(** [SceneDetector._fallback_detect], from the frame count and the frame
    rate the capture reports. *)
Definition fallback_detect (total_frames : Z) (fps : Q)
    : result (list (Z * Z)) :=
  if total_frames <=? 0 then Ok []
  else
    let scene_length := Sampling.int_of_float (fps * 5)%Q in
    fallback_loop (Z.to_nat total_frames) 0 scene_length total_frames [].

(** Scenes that follow one another without a gap: the first starts at
    [start], each next one right after the end of the one before, and the
    frame after the last end is [stop]. *)
Fixpoint tiling (start : Z) (scenes : list (Z * Z)) (stop : Z) : Prop :=
  match scenes with
  | [] => start = stop
  | (s, e) :: rest => s = start /\ s <= e /\ tiling (e + 1) rest stop
  end.

End SceneFallback.

(* ------------------------------------------------------------------ *)
(** * SmileEstimator: the 5-point fallback *)

Module SmileFallback.

(** [_estimate_smile_5pt] as a function of the number of landmarks and of
    the two distances it measures, [face_width] between the eyes and
    [mouth_width] between the mouth corners. *)
Definition estimate_smile_5pt (landmark_count : nat)
    (face_width mouth_width : Q) : Q :=
  if Nat.ltb landmark_count 5 then 0
  else
    let width_ratio :=
      if Qgtb face_width 0 then mouth_width / face_width else 0 in
    clip ((width_ratio - (4 # 10)) * 2) 0 1.

End SmileFallback.

(* ------------------------------------------------------------------ *)
(** * SmartCropper: [generate_crops] *)

Module Cropper.

Local Open Scope Z_scope.

Record CropCoordinates := {
  x1 : Z; y1 : Z; x2 : Z; y2 : Z; width : Z; height : Z
}.

(** The aspect ratios, in the order of the dict. *)
Definition aspect_ratios : list (string * (Z * Z)) :=
  [ ("9:16", (9, 16)); ("1:1", (1, 1));
    ("16:9", (16, 9)); ("4:5", (4, 5)) ]%string.

(** The centres [(bbox[0] + bbox[2]) / 2] and [(bbox[1] + bbox[3]) / 2]
    of the faces whose [bbox] has at least four entries; a missing [bbox]
    reads as the empty list here. *)
Fixpoint face_centres (faces : list Face) : list Q * list Q :=
  match faces with
  | [] => ([], [])
  | face :: rest =>
      let '(all_x, all_y) := face_centres rest in
      match bbox face with
      | Some (b0 :: b1 :: b2 :: b3 :: _) =>
          (((b0 + b2) / 2)%Q :: all_x, ((b1 + b3) / 2)%Q :: all_y)
      | _ => (all_x, all_y)
      end
  end.

(** [sum(xs)] *)
Definition sum (xs : list Q) : Q := fold_left Qplus xs 0%Q.

(** The subject centre.  [subject_bbox] is the box [get_subject_bbox]
    finds on the saliency mask, [None] when there is no mask; it is only
    consulted when no face was passed. *)
Definition subject_centre (img_width img_height : Z) (faces : list Face)
    (subject_bbox : option (Z * Z * Z * Z)) : Z * Z :=
  match faces with
  | _ :: _ =>
      let '(all_x, all_y) := face_centres faces in
      match all_x, all_y with
      | _ :: _, _ :: _ =>
          (Sampling.int_of_float
             (sum all_x / inject_Z (Z.of_nat (List.length all_x)))%Q,
           Sampling.int_of_float
             (sum all_y / inject_Z (Z.of_nat (List.length all_y)))%Q)
      | _, _ => (img_width / 2, img_height / 2)
      end
  | [] =>
      match subject_bbox with
      | Some (bx1, by1, bx2, by2) => ((bx1 + bx2) / 2, (by1 + by2) / 2)
      | None => (img_width / 2, img_height / 2)
      end
  end.

(** The body of the loop over the aspect ratios. *)
Definition crop_for (img_width img_height subj_cx subj_cy : Z)
    (ratio : Z * Z) : CropCoordinates :=
  let '(ratio_w, ratio_h) := ratio in
  let target_ratio := (inject_Z ratio_w / inject_Z ratio_h)%Q in
  let img_ratio := (inject_Z img_width / inject_Z img_height)%Q in
  let '(crop_width, crop_height) :=
    if Qgtb target_ratio img_ratio
    then (img_width,
          Sampling.int_of_float (inject_Z img_width / target_ratio)%Q)
    else (Sampling.int_of_float (inject_Z img_height * target_ratio)%Q,
          img_height) in
  let crop_x1 :=
    Z.max 0 (Z.min (subj_cx - crop_width / 2) (img_width - crop_width)) in
  let crop_y1 :=
    Z.max 0 (Z.min (subj_cy - crop_height / 2) (img_height - crop_height)) in
  {| x1 := crop_x1; y1 := crop_y1;
     x2 := crop_x1 + crop_width; y2 := crop_y1 + crop_height;
     width := crop_width; height := crop_height |}.

(** [SmartCropper.generate_crops] on an image of the given size; an image
    of height zero makes the ratio computation raise. *)
Definition generate_crops (img_width img_height : Z) (faces : list Face)
    (subject_bbox : option (Z * Z * Z * Z))
    : result (list (string * CropCoordinates)) :=
  let '(subj_cx, subj_cy) :=
    subject_centre img_width img_height faces subject_bbox in
  if img_height =? 0 then ZeroDivisionError
  else
    Ok (map (fun entry =>
               (fst entry,
                crop_for img_width img_height subj_cx subj_cy (snd entry)))
            aspect_ratios).

End Cropper.

(* ------------------------------------------------------------------ *)
(** * AudioTimeline: events *)

Module AudioEvents.

Import Audio.

(** What the segment loop of [AudioAnalyzer.analyze] knows of one
    1-second segment: the means of the smoothed features and the two
    times read from [rms_times]. *)
Record Segment := {
  seg_rms : Q;
  seg_centroid : Q;
  seg_zcr : Q;
  seg_bandwidth : Q;
  seg_start_time : Q;
  seg_end_time : Q
}.

Record AudioEvent := {
  start_time : Q;
  end_time : Q;
  event_type : Audio.event_type;
  confidence : Q;
  intensity : Q
}.

Definition event_type_eqb (a b : Audio.event_type) : bool :=
  match a, b with
  | silence, silence | applause, applause | speech, speech
  | music, music | other, other => true
  | _, _ => false
  end.

(** The type of a segment. *)
Definition segment_type (s : Segment) : Audio.event_type :=
  classify_segment (seg_rms s) (seg_centroid s) (seg_zcr s)
                   (seg_bandwidth s).

(** The confidence set in the branch that classifies the segment. *)
Definition segment_confidence (s : Segment) : Q :=
  match segment_type s with
  | silence => 1 - seg_rms s / silence_threshold
  | applause => Qmin (seg_bandwidth s) (seg_zcr s)
  | speech => 1 - Qabs (seg_zcr s - (4 # 10))
  | music => seg_centroid s
  | other => 5 # 10
  end.

(** [max(a, b)] on two numbers. *)
Definition max2 (a b : Q) : Q := if Qltb a b then b else a.

(** The state of the loop: [events] and [current_event]. *)
Definition merge_state : Type := list AudioEvent * option AudioEvent.

(** [events.append(current_event)] unless the event is silence. *)
Definition emit (events : list AudioEvent) (current : AudioEvent)
    : list AudioEvent :=
  match event_type current with
  | silence => events
  | _ => events ++ [current]
  end.

(** One turn of the segment loop, after the segment is classified. *)
Definition merge_step (st : merge_state) (s : Segment) : merge_state :=
  let '(events, current_event) := st in
  let ty := segment_type s in
  let fresh :=
    {| start_time := seg_start_time s; end_time := seg_end_time s;
       event_type := ty; confidence := segment_confidence s;
       intensity := seg_rms s |} in
  match current_event with
  | Some current =>
      if event_type_eqb (event_type current) ty then
        (events,
         Some {| start_time := start_time current;
                 end_time := seg_end_time s;
                 event_type := event_type current;
                 confidence :=
                   (confidence current + segment_confidence s) / 2;
                 intensity := max2 (intensity current) (seg_rms s) |})
      else (emit events current, Some fresh)
  | None => (events, Some fresh)
  end.

(** The events [analyze] stores and returns for the given segments. *)
Definition merge_segments (segments : list Segment) : list AudioEvent :=
  let '(events, current_event) := fold_left merge_step segments ([], None) in
  match current_event with
  | Some current => emit events current
  | None => events
  end.

(** [AudioAnalyzer.get_event_at_timestamp] *)
Fixpoint get_event_at_timestamp (events : list AudioEvent) (timestamp : Q)
    : option AudioEvent :=
  match events with
  | [] => None
  | event :: rest =>
      if Qle_bool (start_time event) timestamp
         && Qle_bool timestamp (end_time event)
      then Some event
      else get_event_at_timestamp rest timestamp
  end.

(** [AudioAnalyzer.is_audio_peak], given the peak times that
    [get_peak_timestamps] finds. *)
Definition is_audio_peak (peak_times : list Q) (timestamp window_sec : Q)
    : bool :=
  existsb (fun peak_time => Qltb (Qabs (peak_time - timestamp)) window_sec)
          peak_times.

(** Adjacent repetitions removed. *)
Fixpoint runs (types : list Audio.event_type) : list Audio.event_type :=
  match types with
  | [] => []
  | a :: rest =>
      match rest with
      | b :: _ => if event_type_eqb a b then runs rest else a :: runs rest
      | [] => [a]
      end
  end.

Definition is_silence (ty : Audio.event_type) : bool :=
  event_type_eqb ty silence.

End AudioEvents.

(* ------------------------------------------------------------------ *)
(** * Vocabulary of the statements: audio events *)

(** An event that is not silence and is at least as intense as the
    silence threshold. *)
Definition audible (e : AudioEvents.AudioEvent) : Prop :=
  AudioEvents.event_type e <> Audio.silence
  /\ Audio.silence_threshold <= AudioEvents.intensity e.

(** The types of the events a state of the segment loop will emit, in
    order. *)
Definition pending_types (st : AudioEvents.merge_state)
    : list Audio.event_type :=
  map AudioEvents.event_type (fst st)
  ++ match snd st with
     | Some cur =>
         if AudioEvents.is_silence (AudioEvents.event_type cur) then []
         else [AudioEvents.event_type cur]
     | None => []
     end.

(** Events in time order: none ends before it starts, and each one ends
    before any later one starts. *)
Definition chronological (events : list AudioEvents.AudioEvent) : Prop :=
  Forall (fun e => AudioEvents.start_time e <= AudioEvents.end_time e)
         events
  /\ ForallOrdPairs
       (fun a b => AudioEvents.end_time a <= AudioEvents.start_time b)
       events.

(** The state of the segment loop is in time order with respect to the
    segments still to come. *)
Definition merge_ordered (events : list AudioEvents.AudioEvent)
    (current : AudioEvents.AudioEvent)
    (segments : list AudioEvents.Segment) : Prop :=
  chronological events
  /\ (forall e, In e events ->
        AudioEvents.end_time e <= AudioEvents.start_time current)
  /\ AudioEvents.start_time current <= AudioEvents.end_time current
  /\ (forall s, In s segments ->
        AudioEvents.end_time current <= AudioEvents.seg_start_time s).

(** The timestamp lies in the span of the event. *)
Definition covers (timestamp : Q) (e : AudioEvents.AudioEvent) : Prop :=
  AudioEvents.start_time e <= timestamp
  /\ timestamp <= AudioEvents.end_time e.

(* ------------------------------------------------------------------ *)
(** * Vocabulary of the statements: selection *)

(** [l1] is [l2] with some elements left out. *)
Inductive subsequence {A : Type} : list A -> list A -> Prop :=
| subsequence_nil : subsequence [] []
| subsequence_skip l1 x l2 : subsequence l1 l2 -> subsequence l1 (x :: l2)
| subsequence_take l1 x l2 :
    subsequence l1 l2 -> subsequence (x :: l1) (x :: l2).

(** What [select] makes of an accepted input candidate: the reasons are
    set and the temporary score is gone. *)
Definition annotated (reasons : list reason) (c : Candidate) : Candidate :=
  set_quality_score None
    (set_selection_reasons reasons
       (set_quality_score
          (Some (VarietySelector.compute_quality_score c)) c)).

(** The scored copy of a candidate, as the scene loop leaves it in
    [scene_candidates]. *)
Definition scored (c : Candidate) : Candidate :=
  set_quality_score (Some (VarietySelector.compute_quality_score c)) c.

(** A group of a dict of lists after more values were filed under its
    key. *)
Definition extend_group {V : Type} (group : option (list V))
    (more : list V) : option (list V) :=
  match group with
  | Some vs => Some (vs ++ more)
  | None => match more with [] => None | _ => Some more end
  end.

(** A candidate accepted by the category pass for [category]. *)
Definition picked_for (by_category : list (string * list Candidate))
    (x : Candidate) (category : string) : Prop :=
  exists c vs,
    Groups.lookup String.eqb category by_category = Some vs
    /\ In c vs
    /\ x = set_selection_reasons
             [best_of category; score (Get.get (quality_score c) 0)] c.

(* ------------------------------------------------------------------ *)
(** * Vocabulary of the statements: sampling plans *)

(** A plan whose frame numbers are distinct, lie in the video, and are
    exactly the keys of [frame_to_scene], in the same order. *)
Definition plan_consistent (total_frames : Z) (p : Sampling.plan) : Prop :=
  NoDup (Sampling.frame_numbers p)
  /\ map fst (Sampling.frame_to_scene p) = Sampling.frame_numbers p
  /\ Forall (fun f => (0 <= f < total_frames)%Z) (Sampling.frame_numbers p).

(** Every planned frame lies in the scene it is attributed to. *)
Definition plan_attributed (scenes : list (Z * Z)) (p : Sampling.plan)
    : Prop :=
  forall f i, In (f, i) (Sampling.frame_to_scene p) ->
    exists start end_,
      nth_error scenes i = Some (start, end_)
      /\ (start <= f <= end_)%Z.
(* ================================================================== *)
(** * Properties *)

(** ** Comparisons and clipping *)

Lemma Qltb_lt a b : Qltb a b = true <-> a < b.
Proof.
  unfold Qltb. rewrite negb_true_iff. split; intro H.
  - apply Qnot_le_lt. intro L. apply Qle_bool_iff in L. congruence.
  - destruct (Qle_bool b a) eqn:E; [|reflexivity].
    apply Qle_bool_iff in E. exfalso. apply (Qlt_not_le _ _ H E).
Qed.

Lemma Qltb_ge a b : Qltb a b = false <-> b <= a.
Proof.
  unfold Qltb. rewrite negb_false_iff. apply Qle_bool_iff.
Qed.

Lemma Qgeb_ge a b : Qgeb a b = true <-> b <= a.
Proof. apply Qle_bool_iff. Qed.

Lemma Qgtb_gt a b : Qgtb a b = true <-> b < a.
Proof. apply Qltb_lt. Qed.

Lemma clip_mono x y lo hi : x <= y -> clip x lo hi <= clip y lo hi.
Proof.
  intro H. unfold clip.
  apply Q.min_le_compat_r. apply Q.max_le_compat_r. exact H.
Qed.

(* ------------------------------------------------------------------ *)
(** * Theorems: SmileEstimator and AudioTimeline *)

(** C8. In the 106-point estimator, with the eye distance held at a fixed
    positive value, a wider mouth-corner distance never gives a smaller
    [width_score]. *)
Theorem width_score_monotone (eye_distance w1 w2 : Q) :
  0 < eye_distance -> w1 <= w2 ->
  Smile.width_score w1 eye_distance <= Smile.width_score w2 eye_distance.
Proof.
  intros Hpos Hle. unfold Smile.width_score, Smile.width_ratio.
  assert (G : Qgtb eye_distance 0 = true) by (apply Qgtb_gt; exact Hpos).
  rewrite G. apply clip_mono.
  assert (D : w1 / eye_distance <= w2 / eye_distance).
  { unfold Qdiv. apply Qmult_le_compat_r; [exact Hle|].
    apply Qlt_le_weak, Qinv_lt_0_compat, Hpos. }
  lra.
Qed.

Lemma width_score_monotone_witness :
  Smile.width_score 1 1 <= Smile.width_score (12 # 10) 1.
Proof.
  apply (width_score_monotone 1 1 (12 # 10)).
  - reflexivity.
  - discriminate.
Defined.

(** C5. A 1-second segment is classified by the fixed decision order
    silence, applause, speech, music, other, with the documented
    thresholds; the three example windows classify as silence, music and
    speech whatever their remaining features are. *)
Theorem classify_segment_decision_order (rms centroid zcr bandwidth : Q) :
  let r := Audio.classify_segment rms centroid zcr bandwidth in
  (rms < 5 # 100 -> r = Audio.silence)
  /\ (~ rms < 5 # 100 -> bandwidth > 5 # 10 /\ zcr > 4 # 10 ->
      r = Audio.applause)
  /\ (~ rms < 5 # 100 -> ~ (bandwidth > 5 # 10 /\ zcr > 4 # 10) ->
      (2 # 10 < zcr /\ zcr < 6 # 10) /\ centroid < 4 # 10 ->
      r = Audio.speech)
  /\ (~ rms < 5 # 100 -> ~ (bandwidth > 5 # 10 /\ zcr > 4 # 10) ->
      ~ ((2 # 10 < zcr /\ zcr < 6 # 10) /\ centroid < 4 # 10) ->
      centroid > 4 # 10 /\ rms > 2 # 10 ->
      r = Audio.music)
  /\ (~ rms < 5 # 100 -> ~ (bandwidth > 5 # 10 /\ zcr > 4 # 10) ->
      ~ ((2 # 10 < zcr /\ zcr < 6 # 10) /\ centroid < 4 # 10) ->
      ~ (centroid > 4 # 10 /\ rms > 2 # 10) ->
      r = Audio.other)
  /\ (forall c z b, Audio.classify_segment (1 # 100) c z b = Audio.silence)
  /\ (forall b, Audio.classify_segment (3 # 10) (5 # 10) (1 # 10) b
                = Audio.music)
  /\ (forall b, Audio.classify_segment (3 # 10) (2 # 10) (3 # 10) b
                = Audio.speech).
Proof.
  cbv zeta. unfold Audio.classify_segment, Audio.silence_threshold,
    Audio.speech_zcr_min, Audio.speech_zcr_max,
    Audio.music_centroid_threshold, Audio.applause_bandwidth_threshold, Qgtb.
  repeat split; intros.
  all: repeat match goal with
       | |- context [Qltb ?a ?b] =>
           let E := fresh "E" in
           destruct (Qltb a b) eqn:E;
           [apply Qltb_lt in E | apply Qltb_ge in E]
       end; cbn [andb]; try reflexivity; exfalso.
  all: try lra.
  all: try tauto.
Qed.

Lemma classify_segment_decision_order_witness :
  Audio.classify_segment (3 # 10) (5 # 10) (1 # 10) 0 = Audio.music.
Proof.
  destruct (classify_segment_decision_order (3 # 10) (5 # 10) (1 # 10) 0)
    as (_ & _ & _ & Hmusic & _).
  apply Hmusic.
  - intro H. vm_compute in H. discriminate.
  - intros [_ H]. vm_compute in H. discriminate.
  - intros [[H _] _]. vm_compute in H. discriminate.
  - split; reflexivity.
Defined.

(** The lookup on the empty curve. *)
Lemma get_energy_empty t : Audio.get_energy_at_timestamp [] t = 0.
Proof. reflexivity. Qed.

(** What [searchsorted] finds: every time before the index is below the
    timestamp, and the time at the index (when there is one) is not. *)
Lemma searchsorted_spec times t :
  let idx := Audio.searchsorted times t in
  (idx <= List.length times)%nat
  /\ (forall i x, (i < idx)%nat -> nth_error times i = Some x -> x < t)
  /\ (forall x, nth_error times idx = Some x -> t <= x).
Proof.
  induction times as [|a times IH]; cbn -[Qltb].
  - split; [lia|]. split.
    + intros i x Hi. lia.
    + intros x Hx. discriminate.
  - destruct (Qltb a t) eqn:E.
    + destruct IH as (L & Hlt & Hge). split; [cbn; lia|]. split.
      * intros [|i] x Hi Hx; cbn in Hx.
        -- injection Hx as <-. apply Qltb_lt, E.
        -- apply (Hlt i); [lia | exact Hx].
      * intros x Hx. cbn in Hx. apply Hge, Hx.
    + split; [lia|]. split.
      * intros i x Hi. lia.
      * intros x Hx. cbn in Hx. injection Hx as <-. apply Qltb_ge, E.
Qed.

(** The entry the lookup returns on a non-empty curve: the first entry
    whose time is not below the timestamp, or the last entry when every
    time is below it. *)
Lemma get_energy_at_or_after first rest t :
  let curve := first :: rest in
  let idx := Audio.searchsorted (map fst curve) t in
  Audio.get_energy_at_timestamp curve t =
    if Nat.ltb idx (List.length curve) then snd (nth idx curve first)
    else snd (last curve first).
Proof.
  cbv zeta. unfold Audio.get_energy_at_timestamp.
  set (idx := Audio.searchsorted _ _).
  destruct (Nat.eqb idx 0) eqn:E0.
  - apply Nat.eqb_eq in E0. rewrite E0. reflexivity.
  - destruct (Nat.leb (List.length (first :: rest)) idx) eqn:E1.
    + apply Nat.leb_le in E1.
      assert (Nat.ltb idx (List.length (first :: rest)) = false) as ->
        by (apply Nat.ltb_ge; exact E1).
      reflexivity.
    + apply Nat.leb_gt in E1.
      assert (Nat.ltb idx (List.length (first :: rest)) = true) as ->
        by (apply Nat.ltb_lt; exact E1).
      reflexivity.
Qed.

(** C9 (the code departs from the claim). On the curve
    [(0.0, 0.1); (1.0, 0.9)] and the timestamp [0.1] the lookup returns
    [0.9], the energy of index 1, although index 0 is strictly nearer in
    time and stores [0.1]. *)
Theorem get_energy_not_nearest :
  let curve := [(0, 1 # 10); (1, 9 # 10)] in
  let t := 1 # 10 in
  Audio.get_energy_at_timestamp curve t = 9 # 10
  /\ Qabs (0 - t) < Qabs (1 - t)
  /\ snd (nth 0 curve (0, 0)) = 1 # 10
  /\ ~ (1 # 10 == 9 # 10).
Proof.
  cbv zeta. repeat split.
  intro H. vm_compute in H. discriminate.
Qed.

(* ------------------------------------------------------------------ *)
(** ** Prefixes and suffixes *)

Lemma in_firstn_in {A} (x : A) n l : In x (firstn n l) -> In x l.
Proof.
  intro H. rewrite <- (firstn_skipn n l). apply in_or_app. left. exact H.
Qed.

Lemma in_skipn_in {A} (x : A) n l : In x (skipn n l) -> In x l.
Proof.
  intro H. rewrite <- (firstn_skipn n l). apply in_or_app. right. exact H.
Qed.

(* ------------------------------------------------------------------ *)
(** ** Sorting by a key *)

Section KeySortFacts.
Context {A : Type} (key : A -> Q).

Lemma insert_desc_perm x l :
  Permutation (KeySort.insert_desc key x l) (x :: l).
Proof.
  induction l as [|y ys IH]; cbn -[Qltb].
  - reflexivity.
  - destruct (Qltb (key x) (key y)).
    + rewrite IH. apply perm_swap.
    + reflexivity.
Qed.

Lemma sort_desc_perm l : Permutation (KeySort.sort_desc key l) l.
Proof.
  induction l as [|x l IH]; cbn -[Qltb].
  - reflexivity.
  - fold (KeySort.sort_desc key l). rewrite insert_desc_perm.
    apply perm_skip, IH.
Qed.

Lemma sort_desc_length l :
  List.length (KeySort.sort_desc key l) = List.length l.
Proof. apply Permutation_length, sort_desc_perm. Qed.

Lemma insert_desc_sorted x l :
  KeySort.descending key l ->
  KeySort.descending key (KeySort.insert_desc key x l).
Proof.
  unfold KeySort.descending.
  induction 1 as [|y ys Hs IH Hy]; cbn -[Qltb].
  - constructor; constructor.
  - destruct (Qltb (key x) (key y)) eqn:E.
    + constructor; [exact IH|].
      apply Forall_forall. intros z Hz.
      apply (Permutation_in _ (insert_desc_perm x ys)) in Hz.
      destruct Hz as [<- | Hz].
      * apply Qltb_lt in E. apply Qlt_le_weak, E.
      * rewrite Forall_forall in Hy. apply Hy, Hz.
    + apply Qltb_ge in E.
      constructor; [constructor; assumption|].
      constructor; [exact E|].
      apply Forall_forall. intros z Hz.
      rewrite Forall_forall in Hy.
      apply Qle_trans with (key y); [apply Hy, Hz | exact E].
Qed.

Lemma sort_desc_sorted l : KeySort.descending key (KeySort.sort_desc key l).
Proof.
  induction l as [|x l IH]; cbn -[Qltb].
  - constructor.
  - apply insert_desc_sorted, IH.
Qed.

(** In a descending list every element of a prefix has a key at least as
    large as every element of the remaining suffix. *)
Lemma descending_prefix_dominates l n a b :
  KeySort.descending key l ->
  In a (firstn n l) -> In b (skipn n l) -> key b <= key a.
Proof.
  unfold KeySort.descending. intro Hs. revert n.
  induction Hs as [|y ys Hs IH Hy]; intros n Ha Hb.
  - destruct n; contradiction.
  - destruct n as [|n]; [contradiction|].
    cbn in Ha, Hb. destruct Ha as [<- | Ha].
    + rewrite Forall_forall in Hy. apply Hy.
      apply (in_skipn_in _ _ _ Hb).
    + apply (IH n Ha Hb).
Qed.

Lemma descending_firstn l n :
  KeySort.descending key l -> KeySort.descending key (firstn n l).
Proof.
  unfold KeySort.descending. intro Hs. revert n.
  induction Hs as [|y ys Hs IH Hy]; intros [|n]; cbn; try constructor.
  - apply IH.
  - apply Forall_forall. intros z Hz.
    rewrite Forall_forall in Hy. apply Hy.
    apply (in_firstn_in _ _ _ Hz).
Qed.

End KeySortFacts.

(* ------------------------------------------------------------------ *)
(** ** QualityGate *)

Lemma num_fallback_bounds n :
  (1 <= Quality.num_fallback n <= 3)%Z
  /\ ((0 < n)%nat -> (Quality.num_fallback n <= Z.of_nat n)%Z).
Proof.
  unfold Quality.num_fallback. split; [lia|].
  intro Hn.
  assert (Z.of_nat n / 5 <= Z.of_nat n)%Z.
  { apply Z.div_le_upper_bound; lia. }
  lia.
Qed.

(** C3. When at least one frame was extracted the quality phase never
    returns the empty list; and when no frame reaches the threshold it
    keeps exactly [min(3, max(1, N // 5))] frames: the first ones of the
    frames in descending sharpness order, so the kept frames are in
    descending order and none of the dropped frames is sharper than a
    kept one. *)
Theorem quality_phase_fallback (frames : list Quality.Frame) (thr : Q) :
  frames <> [] ->
  Quality.quality_phase frames thr <> []
  /\ (Quality.filter_by_quality frames thr = [] ->
      let kept := Quality.quality_phase frames thr in
      let n := Z.to_nat (Z.min 3 (Z.max 1 (Z.of_nat (List.length frames) / 5))) in
      List.length kept = n
      /\ kept = firstn n (KeySort.sort_desc Quality.sharpness_score frames)
      /\ KeySort.descending Quality.sharpness_score kept
      /\ exists dropped,
           Permutation (kept ++ dropped) frames
           /\ forall a b, In a kept -> In b dropped ->
                Quality.sharpness_score b <= Quality.sharpness_score a).
Proof.
  intro Hne.
  destruct frames as [|f0 frames0] eqn:Ef; [congruence|]. rewrite <- Ef in *.
  assert (Hlen : (0 < List.length frames)%nat) by (rewrite Ef; cbn; lia).
  destruct (num_fallback_bounds (List.length frames)) as [[Hlo Hhi] Hle].
  specialize (Hle Hlen).
  assert (Hq : Quality.filter_by_quality frames thr = [] ->
               Quality.quality_phase frames thr =
               firstn (Z.to_nat (Quality.num_fallback (List.length frames)))
                      (KeySort.sort_desc Quality.sharpness_score frames)).
  { intro H0. unfold Quality.quality_phase. rewrite H0, Ef. rewrite <- Ef.
    rewrite sort_desc_length. reflexivity. }
  assert (Hk : List.length
                 (firstn (Z.to_nat (Quality.num_fallback (List.length frames)))
                    (KeySort.sort_desc Quality.sharpness_score frames))
               = Z.to_nat (Quality.num_fallback (List.length frames))).
  { rewrite length_firstn, sort_desc_length. lia. }
  split.
  - destruct (Quality.filter_by_quality frames thr) eqn:E0.
    + rewrite (Hq eq_refl). intro Habs. rewrite Habs in Hk. cbn in Hk. lia.
    + unfold Quality.quality_phase. rewrite E0. discriminate.
  - intro H0. cbv zeta. rewrite (Hq H0).
    fold (Quality.num_fallback (List.length frames)).
    split; [exact Hk|]. split; [reflexivity|]. split.
    + apply descending_firstn, sort_desc_sorted.
    + exists (skipn (Z.to_nat (Quality.num_fallback (List.length frames)))
                (KeySort.sort_desc Quality.sharpness_score frames)).
      split.
      * rewrite firstn_skipn. apply sort_desc_perm.
      * intros a b Ha Hb.
        apply (descending_prefix_dominates Quality.sharpness_score
                 _ _ a b (sort_desc_sorted _ _) Ha Hb).
Qed.

Lemma quality_phase_fallback_witness :
  let frames :=
    [ {| Quality.frame_number := 3; Quality.scene_index := 0;
         Quality.timestamp := 1 # 10; Quality.sharpness_score := 10 |};
      {| Quality.frame_number := 9; Quality.scene_index := 0;
         Quality.timestamp := 3 # 10; Quality.sharpness_score := 20 |} ] in
  Quality.quality_phase frames 50 <> []
  /\ List.length (Quality.quality_phase frames 50) = 1%nat.
Proof.
  cbv zeta.
  match goal with
  | |- Quality.quality_phase ?fs _ <> [] /\ _ =>
      destruct (quality_phase_fallback fs 50) as [H1 H2]; [discriminate|]
  end.
  split; [exact H1|].
  destruct (H2 eq_refl) as [HL _]. exact HL.
Defined.

(* ------------------------------------------------------------------ *)
(** ** SamplingPlanner *)

Section SamplingFacts.
Local Open Scope Z_scope.
Import Sampling.

Lemma existsb_Zeqb_In x s : existsb (Z.eqb x) s = true <-> In x s.
Proof.
  rewrite existsb_exists. split.
  - intros (y & Hy & E). apply Z.eqb_eq in E. subst. exact Hy.
  - intro H. exists x. split; [exact H | apply Z.eqb_refl].
Qed.

Lemma set_add_In x s y : In y (set_add x s) <-> y = x \/ In y s.
Proof.
  unfold set_add. destruct (existsb (Z.eqb x) s) eqn:E.
  - apply existsb_Zeqb_In in E. split; [tauto|].
    intros [-> | H]; assumption.
  - rewrite in_app_iff. cbn. intuition (subst; auto).
Qed.

Lemma set_add_NoDup x s : NoDup s -> NoDup (set_add x s).
Proof.
  intro H. unfold set_add. destruct (existsb (Z.eqb x) s) eqn:E.
  - exact H.
  - apply NoDup_app; [exact H | repeat constructor; intros [] | ].
    intros y Hy [<- | []].
    apply existsb_Zeqb_In in Hy. congruence.
Qed.

(** With fuel for every frame between [current] and [stop] the sampling
    loop ends because its condition fails; it only adds frame numbers of
    the half-open range it walks. *)
Lemma sample_loop_enough_fuel fuel current stop interval cs :
  1 <= interval ->
  (Z.to_nat (stop - current) <= fuel)%nat ->
  exists r,
    sample_loop fuel current stop interval cs = Ok r
    /\ (NoDup cs -> NoDup r)
    /\ (forall y, In y cs -> In y r)
    /\ (forall y, In y r -> In y cs \/ current <= y < stop).
Proof.
  intro Hi. revert current cs.
  induction fuel as [|fuel IH]; intros current cs Hf; cbn [sample_loop].
  - destruct (current <? stop) eqn:E.
    + apply Z.ltb_lt in E. lia.
    + exists cs. repeat split; auto.
  - destruct (current <? stop) eqn:E.
    + apply Z.ltb_lt in E.
      destruct (IH (current + interval) (set_add current cs)) as
        (r & Hr & Hnd & Hsub & Hin); [lia|].
      exists r. split; [exact Hr|]. split; [|split].
      * intro H. apply Hnd, set_add_NoDup, H.
      * intros y Hy. apply Hsub, set_add_In. right. exact Hy.
      * intros y Hy. destruct (Hin y Hy) as [H | H].
        -- apply set_add_In in H. destruct H as [-> | H]; [right; lia | left; exact H].
        -- right. lia.
    + exists cs. repeat split; auto.
Qed.

Lemma insert_asc_perm x l : Permutation (insert_asc x l) (x :: l).
Proof.
  induction l as [|y ys IH]; cbn.
  - reflexivity.
  - destruct (x <=? y); [reflexivity|].
    rewrite IH. apply perm_swap.
Qed.

Lemma sorted_perm s : Permutation (sorted s) s.
Proof.
  induction s as [|x s IH]; cbn.
  - reflexivity.
  - fold (sorted s). rewrite insert_asc_perm. apply perm_skip, IH.
Qed.

(** Registering fresh, in-range, pairwise distinct frame numbers appends
    all of them, in order, under the scene's index. *)
Lemma register_all_fresh total idx l : forall p,
  NoDup l ->
  (forall f, In f l ->
     0 <= f < total /\ ~ In f (map fst (frame_to_scene p))) ->
  fold_left (register total idx) l p =
    {| frame_numbers := frame_numbers p ++ l;
       frame_to_scene := frame_to_scene p ++ map (fun f => (f, idx)) l |}.
Proof.
  induction l as [|x l IH]; intros p Hnd Hin; cbn [fold_left map].
  - rewrite !app_nil_r. destruct p; reflexivity.
  - inversion Hnd as [|? ? Hx Hnd']; subst.
    destruct (Hin x (or_introl eq_refl)) as [Hr Hfresh].
    assert (E : register total idx p x =
                {| frame_numbers := frame_numbers p ++ [x];
                   frame_to_scene := frame_to_scene p ++ [(x, idx)] |}).
    { unfold register.
      assert ((x <? 0) || (total <=? x) = false) as ->.
      { apply orb_false_iff. split; [apply Z.ltb_ge | apply Z.leb_gt]; lia. }
      destruct (existsb (Z.eqb x) (map fst (frame_to_scene p))) eqn:Ex.
      - apply existsb_Zeqb_In in Ex. contradiction.
      - reflexivity. }
    rewrite E, IH; [|exact Hnd'|].
    + cbn [frame_numbers frame_to_scene]. rewrite <- !app_assoc. reflexivity.
    + intros f Hf. destruct (Hin f (or_intror Hf)) as [Hr' Hfresh'].
      split; [exact Hr'|]. cbn [frame_to_scene].
      rewrite map_app, in_app_iff. cbn. intros [H | [H | []]].
      * contradiction.
      * subst. contradiction.
Qed.

(** The candidate set of a scene that spans at least two frames. *)
Lemma scene_candidates_facts duration fps_interval start end_ :
  1 <= fps_interval -> 2 <= end_ - start ->
  exists cs,
    scene_candidates duration fps_interval start end_ = Ok cs
    /\ NoDup cs
    /\ (3 <= List.length cs)%nat
    /\ (forall f, In f cs -> start <= f <= end_)
    /\ In (start + Z.min 3 ((end_ - start) / 4)) cs
    /\ In ((start + end_) / 2) cs
    /\ In (end_ - Z.min 3 ((end_ - start) / 4)) cs.
Proof.
  intros Hi HL. unfold scene_candidates.
  set (offset := Z.min 3 ((end_ - start) / 4)).
  set (base := set_add (end_ - offset)
                 (set_add ((start + end_) / 2) (set_add (start + offset) []))).
  assert (Hoff : 0 <= offset /\ 4 * offset <= end_ - start).
  { unfold offset. Z.div_mod_to_equations. lia. }
  assert (Hmid : start + offset < (start + end_) / 2
                 /\ (start + end_) / 2 < end_ - offset).
  { Z.div_mod_to_equations. lia. }
  assert (Hbase : forall y, In y base <->
            y = end_ - offset \/ y = (start + end_) / 2 \/ y = start + offset).
  { intro y. unfold base. rewrite !set_add_In. cbn. tauto. }
  assert (Hnd : NoDup base).
  { unfold base. repeat apply set_add_NoDup. constructor. }
  assert (Hthree : forall cs, NoDup cs -> (forall y, In y base -> In y cs) ->
            (3 <= List.length cs)%nat).
  { intros cs _ Hsub.
    change 3%nat with
      (List.length [start + offset; (start + end_) / 2; end_ - offset]).
    apply NoDup_incl_length.
    - repeat constructor; cbn; lia.
    - intros y Hy. apply Hsub, Hbase. cbn in Hy. intuition. }
  assert (Hrange : forall y, In y base -> start <= y <= end_).
  { intros y Hy. apply Hbase in Hy. lia. }
  destruct (Qgtb duration 1).
  - destruct (sample_loop_enough_fuel
                (Z.to_nat (end_ - offset - (start + offset)))
                (start + offset) (end_ - offset) fps_interval base Hi
                (Nat.le_refl _)) as (r & Hr & Hnd' & Hsub & Hin).
    exists r. split; [exact Hr|]. split; [apply Hnd', Hnd|].
    split; [apply Hthree; auto|]. split.
    + intros f Hf. destruct (Hin f Hf) as [H | H]; [apply Hrange, H | lia].
    + repeat split; apply Hsub, Hbase; auto.
  - exists base. split; [reflexivity|]. split; [exact Hnd|].
    split; [apply Hthree; auto|]. split; [exact Hrange|].
    repeat split; apply Hbase; auto.
Qed.

(** The candidate set of any scene is computed: the fuel handed to the
    sampling loop always suffices. *)
Lemma scene_candidates_returns duration fps_interval start end_ :
  1 <= fps_interval ->
  exists cs, scene_candidates duration fps_interval start end_ = Ok cs.
Proof.
  intro Hi. unfold scene_candidates. destruct (Qgtb duration 1).
  - match goal with
    | |- exists cs, sample_loop ?f ?c ?s ?i ?b = Ok cs =>
        destruct (sample_loop_enough_fuel f c s i b Hi (Nat.le_refl _))
          as (r & Hr & _)
    end.
    exists r. exact Hr.
  - eexists. reflexivity.
Qed.

Lemma frame_interval_pos fps sample_interval :
  1 <= frame_interval fps sample_interval.
Proof. unfold frame_interval. lia. Qed.

End SamplingFacts.

(** C6 (amended). With a non-zero frame rate, a scene shorter than 0.3 s
    leaves the plan unchanged.  A scene of at least 0.3 s that spans at
    least two frames, lies inside [0, total_frames) and has none of its
    frames registered yet, appends at least 3 distinct frame numbers to
    the plan, all within [start, end] and all under its own index; the
    early, midpoint and near-end frames are among them. *)
Theorem sampling_coverage
    (fps sample_interval : Q) (total_frames : Z) (p : Sampling.plan)
    (scene_idx : nat) (start end_ : Z) :
  ~ fps == 0 ->
  let interval := Sampling.frame_interval fps sample_interval in
  let duration := inject_Z (end_ - start) / fps in
  (duration < 3 # 10 ->
   Sampling.plan_scene fps interval total_frames p scene_idx (start, end_)
   = Ok p)
  /\ (3 # 10 <= duration ->
      (2 <= end_ - start)%Z -> (0 <= start)%Z -> (end_ < total_frames)%Z ->
      (forall f, (start <= f <= end_)%Z ->
                 ~ In f (map fst (Sampling.frame_to_scene p))) ->
      exists emitted,
        Sampling.plan_scene fps interval total_frames p scene_idx
          (start, end_)
        = Ok {| Sampling.frame_numbers := Sampling.frame_numbers p ++ emitted;
                Sampling.frame_to_scene :=
                  Sampling.frame_to_scene p
                  ++ map (fun f => (f, scene_idx)) emitted |}
        /\ NoDup emitted
        /\ (3 <= List.length emitted)%nat
        /\ (forall f, In f emitted -> (start <= f <= end_)%Z)
        /\ In (start + Z.min 3 ((end_ - start) / 4))%Z emitted
        /\ In ((start + end_) / 2)%Z emitted
        /\ In (end_ - Z.min 3 ((end_ - start) / 4))%Z emitted).
Proof.
  intros Hfps interval duration.
  assert (Hz : Qeq_bool fps 0 = false).
  { destruct (Qeq_bool fps 0) eqn:E; [|reflexivity].
    apply Qeq_bool_eq in E. contradiction. }
  split.
  - intro Hshort. unfold Sampling.plan_scene. rewrite Hz.
    fold duration. apply Qltb_lt in Hshort. rewrite Hshort. reflexivity.
  - intros Hlong HL Hs He Hfresh.
    destruct (scene_candidates_facts duration interval start end_
                (frame_interval_pos _ _) HL)
      as (cs & Hcs & Hnd & Hlen & Hrange & H1 & H2 & H3).
    assert (Hperm := sorted_perm cs).
    exists (Sampling.sorted cs).
    split; [|split; [|split; [|split; [|repeat split]]]].
    + unfold Sampling.plan_scene. rewrite Hz. fold duration.
      apply Qltb_ge in Hlong. rewrite Hlong. rewrite Hcs.
      f_equal. apply register_all_fresh.
      * apply (Permutation_NoDup (Permutation_sym Hperm) Hnd).
      * intros f Hf. apply (Permutation_in _ Hperm) in Hf.
        specialize (Hrange f Hf). split; [lia | apply Hfresh, Hrange].
    + apply (Permutation_NoDup (Permutation_sym Hperm) Hnd).
    + rewrite (Permutation_length Hperm). exact Hlen.
    + intros f Hf. apply Hrange, (Permutation_in _ Hperm), Hf.
    + apply (Permutation_in _ (Permutation_sym Hperm)), H1.
    + apply (Permutation_in _ (Permutation_sym Hperm)), H2.
    + apply (Permutation_in _ (Permutation_sym Hperm)), H3.
Qed.

Lemma sampling_coverage_witness :
  exists emitted,
    Sampling.plan_scene 24 (Sampling.frame_interval 24 (3 # 2)) 1000
      {| Sampling.frame_numbers := []; Sampling.frame_to_scene := [] |}
      0 (0, 100)%Z
    = Ok {| Sampling.frame_numbers := emitted;
            Sampling.frame_to_scene := map (fun f => (f, 0%nat)) emitted |}
    /\ (3 <= List.length emitted)%nat.
Proof.
  destruct (sampling_coverage 24 (3 # 2) 1000
              {| Sampling.frame_numbers := []; Sampling.frame_to_scene := [] |}
              0 0 100) as [_ H]; [intro E; discriminate E|].
  assert (Hd : 3 # 10 <= inject_Z (100 - 0) / 24)
    by (apply Qle_bool_iff; reflexivity).
  assert (H2 : (2 <= 100 - 0)%Z) by lia.
  assert (H0 : (0 <= 0)%Z) by lia.
  assert (Ht : (100 < 1000)%Z) by lia.
  destruct (H Hd H2 H0 Ht (fun f _ (F : False) => F))
    as (emitted & He & _ & Hlen & _).
  exists emitted. split; [exact He | exact Hlen].
Defined.

(** C6 as stated fails: at 1 frame per second the one-frame scene
    [(0, 1)] lasts 1 s, yet its early frame and its midpoint are both
    frame 0, so only the two frames 0 and 1 are planned for it. *)
Lemma sampling_coverage_counterexample :
  ~ (forall (fps sample_interval : Q) (total_frames : Z)
            (scenes : list (Z * Z)) (p : Sampling.plan)
            (scene_idx : nat) (start end_ : Z),
        0 < fps ->
        Sampling.plan_frames fps sample_interval total_frames scenes = Ok p ->
        nth_error scenes scene_idx = Some (start, end_) ->
        3 # 10 <= inject_Z (end_ - start) / fps ->
        (3 <= List.length
                (filter (fun e => Nat.eqb (snd e) scene_idx)
                        (Sampling.frame_to_scene p)))%nat).
Proof.
  intro H.
  specialize (H 1 (3 # 2) 10%Z [(0, 1)%Z]
                {| Sampling.frame_numbers := [0; 1]%Z;
                   Sampling.frame_to_scene := [(0%Z, 0%nat); (1%Z, 0%nat)] |}
                0%nat 0%Z 1%Z).
  cbn in H.
  assert (3 <= 2)%nat; [|lia].
  apply H.
  - reflexivity.
  - reflexivity.
  - reflexivity.
  - apply Qle_bool_iff. reflexivity.
Qed.

(** Two further ways a long enough scene ends up with fewer than three
    planned frames: a frame already registered by the scene before it is
    not registered again, and a frame number that is not below
    [total_frames] is dropped. *)
Lemma sampling_shared_boundary_example :
  Sampling.plan_frames 10 (3 # 2) 100 [(0, 3); (3, 6)]%Z
  = Ok {| Sampling.frame_numbers := [0; 1; 3; 4; 6]%Z;
          Sampling.frame_to_scene :=
            [(0%Z, 0%nat); (1%Z, 0%nat); (3%Z, 0%nat);
             (4%Z, 1%nat); (6%Z, 1%nat)] |}.
Proof. vm_compute. reflexivity. Qed.

Lemma sampling_past_last_frame_example :
  Sampling.plan_frames 10 (3 # 2) 3 [(0, 3)]%Z
  = Ok {| Sampling.frame_numbers := [0; 1]%Z;
          Sampling.frame_to_scene := [(0%Z, 0%nat); (1%Z, 0%nat)] |}.
Proof. vm_compute. reflexivity. Qed.

(* ------------------------------------------------------------------ *)
(** ** Strings *)

Section StrFacts.
Local Open Scope string_scope.

Lemma prefix_app needle : forall haystack,
  String.prefix needle haystack = true <->
  exists post, haystack = needle ++ post.
Proof.
  induction needle as [|a needle IH]; intro haystack.
  - split; [|destruct haystack; reflexivity].
    intros _. exists haystack. reflexivity.
  - destruct haystack as [|b haystack]; cbn.
    + split; [discriminate|]. intros (post & E). discriminate.
    + destruct (ascii_dec a b) as [<- | Hne].
      * rewrite IH. split; intros (post & E); exists post.
        -- rewrite E. reflexivity.
        -- injection E as E. exact E.
      * split; [discriminate|]. intros (post & E).
        injection E as E1 E2. congruence.
Qed.

(** [needle in haystack] holds exactly when the needle occurs somewhere
    in the haystack. *)
Lemma contains_spec needle haystack :
  Str.contains needle haystack = true <->
  exists pre post, haystack = pre ++ needle ++ post.
Proof.
  induction haystack as [|c haystack IH]; cbn [Str.contains].
  - rewrite orb_false_r, prefix_app. split.
    + intros (post & E). exists "", post. exact E.
    + intros (pre & post & E). destruct pre; [|discriminate].
      exists post. exact E.
  - rewrite orb_true_iff, prefix_app, IH. split.
    + intros [(post & E) | (pre & post & E)].
      * exists "", post. exact E.
      * exists (String c pre), post. rewrite E. reflexivity.
    + intros (pre & post & E). destruct pre as [|c' pre].
      * left. exists post. exact E.
      * right. injection E as _ E. exists pre, post. exact E.
Qed.

End StrFacts.

(* ------------------------------------------------------------------ *)
(** ** FrameClassifier *)

Lemma category_of_tags_cases tags_str :
  (Str.any_in Category.detail_keywords tags_str = true ->
   Category.category_of_tags tags_str = "detail"%string)
  /\ (Str.any_in Category.detail_keywords tags_str = false ->
      Str.any_in Category.people_keywords tags_str = true ->
      Category.category_of_tags tags_str = "people_roll"%string)
  /\ (Str.any_in Category.detail_keywords tags_str = false ->
      Str.any_in Category.people_keywords tags_str = false ->
      Category.category_of_tags tags_str = "broll"%string).
Proof.
  unfold Category.category_of_tags. repeat split.
  - intros ->. reflexivity.
  - intros -> ->. reflexivity.
  - intros -> ->. destruct (Str.any_in _ _); reflexivity.
Qed.

Lemma sum_valid_faces_nil_inv total valid :
  Category.sum_valid_faces [] 0 0%Z = (total, valid) -> valid = 0%Z.
Proof. cbn. congruence. Qed.

(** C4 (amended). The face test looks at the mean area of the faces whose
    bounding box has a positive area: when that mean is at least 0.5% of
    the frame area the category is [people_face].  Otherwise the tag tests
    apply in the order detail, people-without-face, scenic, and the
    category is [broll] when no keyword occurs. *)
Theorem classify_frame_category_priority
    (faces : list Face) (tags : list string) (w h : Z)
    (total_face_area : Q) (valid_faces : Z) :
  (w * h <> 0)%Z ->
  Category.sum_valid_faces faces 0 0%Z = (total_face_area, valid_faces) ->
  let visible :=
    (0 < valid_faces)%Z
    /\ 5 # 10 <= total_face_area / inject_Z valid_faces
                 / inject_Z (w * h) * 100 in
  let tags_str := Str.join_spaces (map Str.lower tags) in
  let category := Category.classify_frame_category faces tags w h in
  (visible -> category = Ok "people_face"%string)
  /\ (~ visible ->
      Str.any_in Category.detail_keywords tags_str = true ->
      category = Ok "detail"%string)
  /\ (~ visible ->
      Str.any_in Category.detail_keywords tags_str = false ->
      Str.any_in Category.people_keywords tags_str = true ->
      category = Ok "people_roll"%string)
  /\ (~ visible ->
      Str.any_in Category.detail_keywords tags_str = false ->
      Str.any_in Category.people_keywords tags_str = false ->
      category = Ok "broll"%string).
Proof.
  intros Harea Hsum visible tags_str category.
  destruct (category_of_tags_cases tags_str) as (Hd & Hp & Hb).
  assert (Hcat : category =
            if (0 <? valid_faces)%Z
               && Qgeb (total_face_area / inject_Z valid_faces
                        / inject_Z (w * h) * 100) (5 # 10)
            then Ok "people_face"%string
            else Ok (Category.category_of_tags tags_str)).
  { unfold category, Category.classify_frame_category. fold tags_str.
    destruct faces as [|f faces'].
    - apply sum_valid_faces_nil_inv in Hsum. subst valid_faces. reflexivity.
    - rewrite Hsum. apply Z.eqb_neq in Harea. rewrite Harea.
      destruct (0 <? valid_faces)%Z; [|reflexivity].
      cbn [andb]. destruct (Qgeb _ _); reflexivity. }
  assert (Hvis : visible <->
            (0 <? valid_faces)%Z
            && Qgeb (total_face_area / inject_Z valid_faces
                     / inject_Z (w * h) * 100) (5 # 10) = true).
  { unfold visible. rewrite andb_true_iff, Z.ltb_lt, Qgeb_ge. tauto. }
  rewrite Hcat. repeat split.
  - intro Hv. apply Hvis in Hv. rewrite Hv. reflexivity.
  - intros Hn H1. destruct (_ && _); [exfalso; tauto|]. f_equal. auto.
  - intros Hn H1 H2. destruct (_ && _); [exfalso; tauto|]. f_equal. auto.
  - intros Hn H1 H2. destruct (_ && _); [exfalso; tauto|]. f_equal. auto.
Qed.

Lemma classify_frame_category_priority_witness :
  Category.classify_frame_category
    [ {| bbox := Some [0; 0; 144; 72]; smile_score := None |} ]
    [ "sky"%string ] 1920 1080
  = Ok "people_face"%string.
Proof.
  destruct (classify_frame_category_priority
              [ {| bbox := Some [0; 0; 144; 72]; smile_score := None |} ]
              [ "sky"%string ] 1920 1080 (0 + (144 - 0) * (72 - 0)) 1%Z)
    as [Hface _].
  - discriminate.
  - reflexivity.
  - apply Hface. split; [reflexivity|].
    apply Qle_bool_iff. reflexivity.
Defined.

(** C4 as stated fails: a face of exactly 0.5% of a 1920x1080 frame next
    to a one-pixel face gives a mean of 0.25%, and the frame is classified
    by its tags. *)
Lemma classify_frame_category_counterexample :
  ~ (forall (faces : list Face) (tags : list string) (w h : Z)
            (face : Face) (area : Q),
        In face faces ->
        bbox_area (get_bbox face) = Some area ->
        5 # 10 <= area / inject_Z (w * h) * 100 ->
        Category.classify_frame_category faces tags w h
        = Ok "people_face"%string).
Proof.
  intro H.
  specialize (H [ {| bbox := Some [0; 0; 144; 72]; smile_score := None |};
                  {| bbox := Some [0; 0; 1; 1]; smile_score := None |} ]
                [] 1920%Z 1080%Z
                {| bbox := Some [0; 0; 144; 72]; smile_score := None |}
                ((144 - 0) * (72 - 0))).
  assert (E : Category.classify_frame_category
                [ {| bbox := Some [0; 0; 144; 72]; smile_score := None |};
                  {| bbox := Some [0; 0; 1; 1]; smile_score := None |} ]
                [] 1920 1080 = Ok "broll"%string) by (vm_compute; reflexivity).
  rewrite E in H.
  assert (Ok "broll"%string = Ok "people_face"%string); [|discriminate].
  apply H.
  - left. reflexivity.
  - reflexivity.
  - apply Qle_bool_iff. reflexivity.
Qed.

(* ------------------------------------------------------------------ *)
(** ** Ordered pairs of a list *)

Section OrdPairs.
Context {A : Type} (R : A -> A -> Prop).

Lemma FOP_app l1 l2 :
  ForallOrdPairs R l1 -> ForallOrdPairs R l2 ->
  (forall a b, In a l1 -> In b l2 -> R a b) ->
  ForallOrdPairs R (l1 ++ l2).
Proof.
  induction 1 as [|x l1 Hx H1 IH]; intros H2 Hc; cbn.
  - exact H2.
  - constructor.
    + apply Forall_app. split; [exact Hx|].
      apply Forall_forall. intros b Hb. apply Hc; [left; reflexivity | exact Hb].
    + apply IH; [exact H2|]. intros a b Ha Hb. apply Hc; [right|]; assumption.
Qed.

Lemma FOP_snoc l x :
  ForallOrdPairs R l -> (forall a, In a l -> R a x) ->
  ForallOrdPairs R (l ++ [x]).
Proof.
  intros Hl Hx. apply FOP_app; [exact Hl | repeat constructor |].
  intros a b Ha [<- | []]. apply Hx, Ha.
Qed.

(** Reading a pair off a list split around its two members. *)
Lemma FOP_split l : ForallOrdPairs R l ->
  forall l1 a l2 b l3, l = l1 ++ a :: l2 ++ b :: l3 -> R a b.
Proof.
  induction 1 as [|x l Hx Hl IH]; intros l1 a l2 b l3 E.
  - destruct l1; discriminate.
  - destruct l1 as [|y l1]; cbn in E; injection E as -> ->.
    + rewrite Forall_forall in Hx. apply Hx.
      apply in_or_app. right. left. reflexivity.
    + apply (IH l1 a l2 b l3 eq_refl).
Qed.

End OrdPairs.

Lemma FOP_map {A B} (g : A -> B) (R : B -> B -> Prop) l :
  ForallOrdPairs (fun a b => R (g a) (g b)) l ->
  ForallOrdPairs R (map g l).
Proof.
  induction 1 as [|x l Hx Hl IH]; cbn; constructor.
  - apply Forall_map. exact Hx.
  - exact IH.
Qed.

(* ------------------------------------------------------------------ *)
(** ** Insertion-ordered dicts of lists *)

Section GroupsFacts.
Context {K V : Type} (eqb : K -> K -> bool).
Hypothesis eqb_eq : forall a b, eqb a b = true <-> a = b.

Lemma append_keys k (v : V) d x :
  In x (map fst (Groups.append eqb k v d)) -> x = k \/ In x (map fst d).
Proof.
  induction d as [|[k' vs] d IH]; cbn.
  - intros [<- | []]. left. reflexivity.
  - destruct (eqb k k'); cbn; intuition.
Qed.

Lemma append_NoDup k (v : V) d :
  NoDup (map fst d) -> NoDup (map fst (Groups.append eqb k v d)).
Proof.
  induction d as [|[k' vs] d IH]; cbn; intro H.
  - repeat constructor. intros [].
  - inversion H as [|? ? Hk' Hd]; subst.
    destruct (eqb k k') eqn:E; cbn.
    + constructor; assumption.
    + constructor; [|apply IH, Hd].
      intro Hin. apply append_keys in Hin. destruct Hin as [-> | Hin].
      * assert (eqb k k = true) by (apply eqb_eq; reflexivity). congruence.
      * contradiction.
Qed.

Lemma append_keyed (key : V -> K) v d :
  keyed key d -> keyed key (Groups.append eqb (key v) v d).
Proof.
  unfold keyed. induction d as [|[k' vs] d IH]; cbn; intros H k ws w Hin Hw.
  - destruct Hin as [E | []]. injection E as <- <-.
    destruct Hw as [<- | []]. reflexivity.
  - destruct (eqb (key v) k') eqn:E.
    + destruct Hin as [E' | Hin].
      * injection E' as <- <-. apply in_app_or in Hw.
        destruct Hw as [Hw | [<- | []]].
        -- apply (H k' vs w); [left; reflexivity | exact Hw].
        -- apply eqb_eq, E.
      * apply (H k ws w); [right; exact Hin | exact Hw].
    + destruct Hin as [E' | Hin].
      * apply (H k ws w); [left; exact E' | exact Hw].
      * apply (IH (fun k vs v Hi => H k vs v (or_intror Hi)) k ws w Hin Hw).
Qed.

Lemma append_values k (v : V) d k0 ws w :
  In (k0, ws) (Groups.append eqb k v d) -> In w ws ->
  w = v \/ exists ws0, In (k0, ws0) d /\ In w ws0.
Proof.
  induction d as [|[k' vs] d IH]; cbn; intros Hin Hw.
  - destruct Hin as [E | []]. injection E as <- <-.
    destruct Hw as [<- | []]. left. reflexivity.
  - destruct (eqb k k') eqn:E.
    + destruct Hin as [E' | Hin].
      * injection E' as <- <-. apply in_app_or in Hw.
        destruct Hw as [Hw | [<- | []]]; [right | left; reflexivity].
        exists vs. split; [left; reflexivity | exact Hw].
      * right. exists ws. split; [right; exact Hin | exact Hw].
    + destruct Hin as [E' | Hin].
      * right. exists ws. split; [left; exact E' | exact Hw].
      * destruct (IH Hin Hw) as [-> | (ws0 & H1 & H2)]; [left; reflexivity|].
        right. exists ws0. split; [right; exact H1 | exact H2].
Qed.

(** The dict built by [group_by]: distinct keys, every value filed under
    its own key, and nothing but values of the grouped list. *)
Lemma group_by_facts (key : V -> K) l :
  let d := Groups.group_by eqb key l in
  NoDup (map fst d)
  /\ keyed key d
  /\ (forall k vs v, In (k, vs) d -> In v vs -> In v l).
Proof.
  unfold Groups.group_by.
  assert (G : forall d0,
    NoDup (map fst d0) -> keyed key d0 ->
    forall (P : V -> Prop),
    (forall k vs v, In (k, vs) d0 -> In v vs -> P v) ->
    (forall v, In v l -> P v) ->
    let d := fold_left (fun d v => Groups.append eqb (key v) v d) l d0 in
    NoDup (map fst d) /\ keyed key d
    /\ (forall k vs v, In (k, vs) d -> In v vs -> P v)).
  { induction l as [|x l IH]; intros d0 Hnd Hk P HP0 HPl; cbn.
    - auto.
    - apply IH.
      + apply append_NoDup, Hnd.
      + apply append_keyed, Hk.
      + intros k vs v Hin Hv.
        destruct (append_values (key x) x d0 k vs v Hin Hv)
          as [-> | (ws0 & H1 & H2)].
        * apply HPl. left. reflexivity.
        * apply (HP0 k ws0 v H1 H2).
      + intros v Hv. apply HPl. right. exact Hv. }
  apply (G [] (NoDup_nil _)).
  - intros k vs v [].
  - intros k vs v [].
  - auto.
Qed.

Lemma lookup_In k (d : list (K * list V)) vs :
  Groups.lookup eqb k d = Some vs -> exists k', In (k', vs) d.
Proof.
  induction d as [|[k' ws] d IH]; cbn; [discriminate|].
  destruct (eqb k k').
  - intro E. injection E as <-. exists k'. left. reflexivity.
  - intro E. destruct (IH E) as (k'' & H). exists k''. right. exact H.
Qed.

End GroupsFacts.

(* ------------------------------------------------------------------ *)
(** ** VarietySelector: the selection loops *)

Section SelectionLoops.
Import VarietySelector.

Variable gap : Q.

Lemma accept_step_incl I limit pool pool' :
  incl pool' pool -> accept_step gap I limit pool -> accept_step gap I limit pool'.
Proof. intros Hi H c p r Hc. apply H, Hi, Hc. Qed.

Lemma pick_from_category_inv I max_per_scene category candidates p :
  accept_step gap I max_per_scene candidates -> I p ->
  I (pick_from_category gap max_per_scene category candidates p).
Proof.
  induction candidates as [|c rest IH]; intros Hs Hp; cbn [pick_from_category].
  - exact Hp.
  - destruct (full p max_per_scene) eqn:Ef; [exact Hp|].
    destruct (too_close gap (Get.timestamp_of c) (selected_timestamps p))
      eqn:Et.
    + apply IH; [|exact Hp].
      apply (accept_step_incl I _ (c :: rest)); [|exact Hs].
      intros x Hx. right. exact Hx.
    + apply Hs; auto. left. reflexivity.
Qed.

Lemma pick_by_category_inv I max_per_scene priority by_category pool p :
  (forall k vs v, In (k, vs) by_category -> In v vs -> In v pool) ->
  accept_step gap I max_per_scene pool -> I p ->
  I (pick_by_category gap max_per_scene priority by_category p).
Proof.
  intros Hpool Hs. revert p.
  induction priority as [|category rest IH]; intros p Hp;
    cbn [pick_by_category].
  - exact Hp.
  - destruct (full p max_per_scene); [exact Hp|].
    destruct (Groups.lookup String.eqb category by_category) as [vs|] eqn:El.
    + apply IH. apply pick_from_category_inv; [|exact Hp].
      destruct (lookup_In _ _ _ _ El) as (k' & Hk').
      apply (accept_step_incl I _ pool); [|exact Hs].
      intros v Hv. apply (Hpool k' vs v Hk' Hv).
    + apply IH, Hp.
Qed.

Lemma fill_minimum_inv I min_per_scene candidates p :
  accept_step gap I min_per_scene candidates -> I p ->
  I (fill_minimum gap min_per_scene candidates p).
Proof.
  revert p.
  induction candidates as [|c rest IH]; intros p Hs Hp; cbn [fill_minimum].
  - exact Hp.
  - assert (Hs' : accept_step gap I min_per_scene rest).
    { apply (accept_step_incl I _ (c :: rest)); [|exact Hs].
      intros x Hx. right. exact Hx. }
    destruct (full p min_per_scene) eqn:Ef; [exact Hp|].
    destruct (DictEq.candidate_in c (scene_selected p)); [apply IH; auto|].
    destruct (too_close gap (Get.timestamp_of c) (selected_timestamps p))
      eqn:Et; [apply IH; auto|].
    apply IH; [exact Hs'|].
    apply Hs; auto. left. reflexivity.
Qed.

End SelectionLoops.

Lemma scored_candidates_origin cs c :
  In c (scored_candidates cs) ->
  exists c0, In c0 cs
    /\ c = set_quality_score
             (Some (VarietySelector.compute_quality_score c0)) c0.
Proof.
  unfold scored_candidates. intro H.
  apply (Permutation_in _ (sort_desc_perm _ _)) in H.
  apply in_map_iff in H. destruct H as (c0 & <- & H0).
  exists c0. split; [exact H0 | reflexivity].
Qed.

(** The invariant principle for the selection of one scene: both passes
    accept only scored candidates of the scene, the category pass below
    [max_per_scene] and the minimum fill below [min_per_scene], and never
    one that is too close to an accepted timestamp. *)
Lemma select_scene_inv (I : VarietySelector.picked -> Prop) self
    min_per_scene max_per_scene cs :
  I {| VarietySelector.scene_selected := [];
       VarietySelector.selected_timestamps := [] |} ->
  accept_step (VarietySelector.min_timestamp_gap self) I max_per_scene
              (scored_candidates cs) ->
  accept_step (VarietySelector.min_timestamp_gap self) I min_per_scene
              (scored_candidates cs) ->
  exists p,
    VarietySelector.select_scene self min_per_scene max_per_scene cs
    = VarietySelector.scene_selected p
    /\ I p.
Proof.
  intros H0 Hmax Hmin. unfold VarietySelector.select_scene.
  fold (scored_candidates cs).
  set (by_category := Groups.group_by String.eqb Get.category_of
                        (scored_candidates cs)).
  set (p1 := VarietySelector.pick_by_category _ _ _ _ _).
  assert (H1 : I p1).
  { unfold p1.
    apply (pick_by_category_inv _ I _ _ by_category (scored_candidates cs));
      [|exact Hmax|exact H0].
    apply (group_by_facts String.eqb String.eqb_eq). }
  destruct (negb (VarietySelector.full p1 min_per_scene)).
  - eexists. split; [reflexivity|].
    apply fill_minimum_inv; assumption.
  - exists p1. split; [reflexivity | exact H1].
Qed.

Lemma timestamp_of_accepted r c :
  Get.timestamp_of (set_selection_reasons r c) = Get.timestamp_of c.
Proof. reflexivity. Qed.

Lemma too_close_false gap t ts :
  VarietySelector.too_close gap t ts = false ->
  forall t', In t' ts -> gap <= Qabs (t' - t).
Proof.
  unfold VarietySelector.too_close. intros H t' Ht'.
  destruct (Qltb (Qabs (t - t')) gap) eqn:E.
  - assert (existsb (fun t0 => Qltb (Qabs (t - t0)) gap) ts = true).
    { apply existsb_exists. exists t'. split; assumption. }
    congruence.
  - apply Qltb_ge in E. rewrite Qabs_Qminus. exact E.
Qed.

(** Spacing inside one scene: any two accepted candidates, whichever pass
    accepted them, are at least the gap apart. *)
Lemma select_scene_spaced self min_per_scene max_per_scene cs :
  ForallOrdPairs
    (fun a b => VarietySelector.min_timestamp_gap self
                <= Qabs (Get.timestamp_of a - Get.timestamp_of b))
    (VarietySelector.select_scene self min_per_scene max_per_scene cs).
Proof.
  set (gap := VarietySelector.min_timestamp_gap self).
  set (R := fun a b => gap <= Qabs (Get.timestamp_of a - Get.timestamp_of b)).
  set (I := fun p =>
    VarietySelector.selected_timestamps p
    = map Get.timestamp_of (VarietySelector.scene_selected p)
    /\ ForallOrdPairs R (VarietySelector.scene_selected p)).
  assert (Hstep : forall limit pool, accept_step gap I limit pool).
  { intros limit pool c p r _ [Hts Hfop] _ Htc. split.
    - cbn. rewrite map_app, Hts. reflexivity.
    - cbn. apply FOP_snoc; [exact Hfop|].
      intros a Ha. unfold R. rewrite timestamp_of_accepted.
      apply (too_close_false gap _ _ Htc).
      rewrite Hts. apply in_map, Ha. }
  destruct (select_scene_inv I self min_per_scene max_per_scene cs)
    as (p & -> & _ & Hp); auto.
  split; [reflexivity | constructor].
Qed.

(** The cap inside one scene: the category pass stops at [max_per_scene]
    and the minimum fill at [min_per_scene]. *)
Lemma select_scene_length self min_per_scene max_per_scene cs :
  (Z.of_nat (List.length
     (VarietySelector.select_scene self min_per_scene max_per_scene cs))
   <= Z.max 0 (Z.max min_per_scene max_per_scene))%Z.
Proof.
  set (I := fun p =>
    (Z.of_nat (List.length (VarietySelector.scene_selected p))
     <= Z.max 0 (Z.max min_per_scene max_per_scene))%Z).
  assert (Hstep : forall limit pool,
            (limit <= Z.max min_per_scene max_per_scene)%Z ->
            accept_step (VarietySelector.min_timestamp_gap self) I limit pool).
  { intros limit pool Hl c p r _ Hp Hfull _. unfold I in *. cbn.
    unfold VarietySelector.full in Hfull. apply Z.leb_gt in Hfull.
    rewrite length_app. cbn. lia. }
  destruct (select_scene_inv I self min_per_scene max_per_scene cs)
    as (p & -> & Hp).
  - unfold I. cbn. lia.
  - apply Hstep. lia.
  - apply Hstep. lia.
  - exact Hp.
Qed.

(** The accepted candidates of a scene keep the scene index of the
    candidates they come from. *)
Lemma select_scene_scene_index self min_per_scene max_per_scene cs k :
  (forall c, In c cs -> Get.scene_index_of c = k) ->
  forall c, In c (VarietySelector.select_scene self min_per_scene
                    max_per_scene cs) ->
            Get.scene_index_of c = k.
Proof.
  intro Hk.
  set (I := fun p => forall c, In c (VarietySelector.scene_selected p) ->
                               Get.scene_index_of c = k).
  assert (Hstep : forall limit,
            accept_step (VarietySelector.min_timestamp_gap self) I limit
                        (scored_candidates cs)).
  { intros limit c p r Hc Hp _ _ x Hx. cbn in Hx.
    apply in_app_or in Hx. destruct Hx as [Hx | [<- | []]].
    - apply Hp, Hx.
    - destruct (scored_candidates_origin cs c Hc) as (c0 & H0 & ->).
      apply (Hk c0 H0). }
  destruct (select_scene_inv I self min_per_scene max_per_scene cs)
    as (p & -> & Hp); auto.
  intros c [].
Qed.

(* ------------------------------------------------------------------ *)
(** ** VarietySelector: the whole selection *)

Lemma FOP_impl {A} (R R' : A -> A -> Prop) l :
  (forall a b, R a b -> R' a b) ->
  ForallOrdPairs R l -> ForallOrdPairs R' l.
Proof.
  intros Hi. induction 1 as [|x l Hx Hl IH]; constructor.
  - apply (Forall_impl _ (Hi x) Hx).
  - exact IH.
Qed.

Section SelectFacts.
Import VarietySelector.

Variable self : t.
Variables min_per_scene max_per_scene : Z.

Local Abbreviation per_scene :=
  (VarietySelector.per_scene self min_per_scene max_per_scene).

Lemma per_scene_index d k c :
  keyed Get.scene_index_of d ->
  In c (flat_map per_scene d) ->
  Get.scene_index_of c = k -> In k (map fst d).
Proof.
  intros Hk Hc Hs. apply in_flat_map in Hc.
  destruct Hc as ([k' vs] & Hin & Hc). unfold VarietySelector.per_scene in Hc.
  assert (Get.scene_index_of c = k').
  { apply (select_scene_scene_index self min_per_scene max_per_scene vs k');
      [|exact Hc].
    intros c0 H0. apply (Hk k' vs c0 Hin H0). }
  apply in_map_iff. exists (k', vs). split; [cbn; congruence | exact Hin].
Qed.

Lemma keyed_tail {K V} (key : V -> K) kv d :
  keyed key (kv :: d) -> keyed key d.
Proof. intros H k vs v Hin. apply H. right. exact Hin. Qed.

Lemma flat_map_spaced d :
  NoDup (map fst d) -> keyed Get.scene_index_of d ->
  ForallOrdPairs
    (fun a b => Get.scene_index_of a = Get.scene_index_of b ->
                min_timestamp_gap self
                <= Qabs (Get.timestamp_of a - Get.timestamp_of b))
    (flat_map per_scene d).
Proof.
  induction d as [|[k vs] d IH]; intros Hnd Hk; cbn [flat_map].
  - constructor.
  - inversion Hnd as [|? ? Hfresh Hnd']; subst.
    apply FOP_app.
    + apply (FOP_impl _ _ _ (fun a b H _ => H)).
      apply select_scene_spaced.
    + apply IH; [exact Hnd' | apply (keyed_tail _ _ _ Hk)].
    + intros a b Ha Hb Hsame. exfalso. apply Hfresh.
      apply (per_scene_index d k b (keyed_tail _ _ _ Hk) Hb).
      rewrite <- Hsame.
      apply (select_scene_scene_index self min_per_scene max_per_scene vs k);
        [|exact Ha].
      intros c0 H0. apply (Hk k vs c0 (or_introl eq_refl) H0).
Qed.

(** Any two returned candidates of the same scene are at least the gap
    apart. *)
Lemma select_spaced candidates :
  ForallOrdPairs
    (fun a b => Get.scene_index_of a = Get.scene_index_of b ->
                min_timestamp_gap self
                <= Qabs (Get.timestamp_of a - Get.timestamp_of b))
    (select self candidates min_per_scene max_per_scene).
Proof.
  unfold select. apply FOP_map.
  destruct (group_by_facts Z.eqb Z.eqb_eq Get.scene_index_of candidates)
    as (Hnd & Hk & _).
  apply (flat_map_spaced _ Hnd Hk).
Qed.

Lemma in_scene_none k l :
  (forall c, In c l -> Get.scene_index_of c <> k) -> in_scene k l = [].
Proof.
  intro H. unfold in_scene. induction l as [|c l IH]; cbn; [reflexivity|].
  destruct (Z.eqb (Get.scene_index_of c) k) eqn:E.
  - apply Z.eqb_eq in E. exfalso. apply (H c (or_introl eq_refl) E).
  - apply IH. intros c' Hc'. apply H. right. exact Hc'.
Qed.

Lemma in_scene_length_le k l :
  (List.length (in_scene k l) <= List.length l)%nat.
Proof. apply filter_length_le. Qed.

Lemma flat_map_in_scene_length d k :
  NoDup (map fst d) -> keyed Get.scene_index_of d ->
  (Z.of_nat (List.length (in_scene k (flat_map per_scene d)))
   <= Z.max 0 (Z.max min_per_scene max_per_scene))%Z.
Proof.
  induction d as [|[k' vs] d IH]; intros Hnd Hk; cbn [flat_map].
  - cbn. lia.
  - inversion Hnd as [|? ? Hfresh Hnd']; subst.
    unfold in_scene. rewrite filter_app. fold (in_scene k (per_scene (k', vs))).
    fold (in_scene k (flat_map per_scene d)). rewrite length_app.
    assert (Hvs : forall c, In c (per_scene (k', vs)) ->
                            Get.scene_index_of c = k').
    { apply (select_scene_scene_index self min_per_scene max_per_scene vs k').
      intros c0 H0. apply (Hk k' vs c0 (or_introl eq_refl) H0). }
    destruct (Z.eq_dec k' k) as [-> | Hne].
    + rewrite (in_scene_none k (flat_map per_scene d)).
      * pose proof (in_scene_length_le k (per_scene (k, vs))).
        pose proof (select_scene_length self min_per_scene max_per_scene vs).
        unfold VarietySelector.per_scene in *. cbn [snd List.length] in *. lia.
      * intros c Hc E. apply Hfresh.
        apply (per_scene_index d k c (keyed_tail _ _ _ Hk) Hc E).
    + rewrite (in_scene_none k (per_scene (k', vs))).
      * cbn. apply IH; [exact Hnd' | apply (keyed_tail _ _ _ Hk)].
      * intros c Hc E. apply Hne. rewrite <- E. symmetry. apply Hvs, Hc.
Qed.

(** What caps a scene: the larger of the two arguments. *)
Lemma select_in_scene_length candidates k :
  (Z.of_nat (List.length
     (in_scene k (select self candidates min_per_scene max_per_scene)))
   <= Z.max 0 (Z.max min_per_scene max_per_scene))%Z.
Proof.
  unfold select.
  assert (E : forall l, in_scene k (map (set_quality_score None) l)
                        = map (set_quality_score None) (in_scene k l)).
  { unfold in_scene. induction l as [|c l IHl]; [reflexivity|].
    cbn [map filter].
    change (Get.scene_index_of (set_quality_score None c))
      with (Get.scene_index_of c).
    destruct (Z.eqb (Get.scene_index_of c) k); cbn [map]; rewrite IHl;
      reflexivity. }
  rewrite E, length_map.
  destruct (group_by_facts Z.eqb Z.eqb_eq Get.scene_index_of candidates)
    as (Hnd & Hk & _).
  apply (flat_map_in_scene_length _ k Hnd Hk).
Qed.

End SelectFacts.

(** With [min_per_scene <= max_per_scene] and a non-negative
    [max_per_scene], no scene contributes more than [max_per_scene]
    candidates. *)
Lemma select_cap_when_min_le_max self candidates min_per_scene max_per_scene k :
  (min_per_scene <= max_per_scene)%Z -> (0 <= max_per_scene)%Z ->
  (Z.of_nat (List.length
     (in_scene k (VarietySelector.select self candidates
                    min_per_scene max_per_scene)))
   <= max_per_scene)%Z.
Proof.
  intros H1 H2.
  pose proof (select_in_scene_length self min_per_scene max_per_scene
                candidates k).
  lia.
Qed.

(** What the minimum fill adds: candidates marked [scene_coverage], each
    at least the gap away from every timestamp accepted before the
    fill. *)
Lemma fill_minimum_added gap min_per_scene scene_candidates :
  forall p,
  exists added,
    VarietySelector.scene_selected
      (VarietySelector.fill_minimum gap min_per_scene scene_candidates p)
    = VarietySelector.scene_selected p ++ added
    /\ forall c, In c added ->
         selection_reasons c = Some [scene_coverage]
         /\ forall t, In t (VarietySelector.selected_timestamps p) ->
                      gap <= Qabs (Get.timestamp_of c - t).
Proof.
  induction scene_candidates as [|c rest IH]; intro p;
    cbn [VarietySelector.fill_minimum].
  - exists []. rewrite app_nil_r. split; [reflexivity | intros ? []].
  - destruct (VarietySelector.full p min_per_scene).
    { exists []. rewrite app_nil_r. split; [reflexivity | intros ? []]. }
    destruct (DictEq.candidate_in c (VarietySelector.scene_selected p));
      [apply IH|].
    destruct (VarietySelector.too_close gap (Get.timestamp_of c)
                (VarietySelector.selected_timestamps p)) eqn:Et; [apply IH|].
    destruct (IH (VarietySelector.accept [scene_coverage] c p))
      as (added & Hsel & Hadded).
    exists (set_selection_reasons [scene_coverage] c :: added).
    split.
    + rewrite Hsel. cbn. rewrite <- app_assoc. reflexivity.
    + intros x [<- | Hx].
      * split; [reflexivity|]. intros t Ht.
        rewrite timestamp_of_accepted, Qabs_Qminus.
        apply (too_close_false gap _ _ Et t Ht).
      * destruct (Hadded x Hx) as [Hr Hs]. split; [exact Hr|].
        intros t Ht. apply Hs. cbn. apply in_or_app. left. exact Ht.
Qed.

(** C1 (the code departs from the claim). With [min_per_scene = 2] and
    [max_per_scene = 1] two b-roll candidates of scene 0, four seconds
    apart, are both returned: the category pass stops at one and the
    minimum fill, which does not look at [max_per_scene], adds the
    second. *)
Theorem select_exceeds_max_per_scene :
  let out :=
    VarietySelector.select VarietySelector.init
      [ Sample.plain 1 0 1 400 "broll"; Sample.plain 2 0 5 300 "broll" ]
      2 1 in
  map obj_id out = [1%nat; 2%nat]
  /\ map Get.scene_index_of out = [0%Z; 0%Z]
  /\ nth_error (map selection_reasons out) 1 = Some (Some [scene_coverage])
  /\ (1 < Z.of_nat (List.length (in_scene 0 out)))%Z.
Proof. cbv zeta. repeat split. Qed.

(** C2. Two returned candidates of the same scene are at least
    [min_timestamp_gap] apart, unless one of them was accepted by the
    minimum fill. *)
Theorem select_spacing_unless_fill
    (self : VarietySelector.t) (candidates : list Candidate)
    (min_per_scene max_per_scene : Z)
    (l1 : list Candidate) (a : Candidate) (l2 : list Candidate)
    (b : Candidate) (l3 : list Candidate) :
  VarietySelector.select self candidates min_per_scene max_per_scene
  = l1 ++ a :: l2 ++ b :: l3 ->
  Get.scene_index_of a = Get.scene_index_of b ->
  selection_reasons a = Some [scene_coverage]
  \/ selection_reasons b = Some [scene_coverage]
  \/ VarietySelector.min_timestamp_gap self
     <= Qabs (Get.timestamp_of a - Get.timestamp_of b).
Proof.
  intros E Hsame. right. right.
  apply (FOP_split _ _ (select_spaced self min_per_scene max_per_scene
                          candidates) l1 a l2 b l3 E Hsame).
Qed.

Lemma select_spacing_unless_fill_witness :
  let out :=
    VarietySelector.select VarietySelector.init
      [ Sample.plain 1 0 1 400 "people_face";
        Sample.plain 2 0 5 300 "detail" ] 1 3 in
  let a := nth 0 out (Sample.plain 0 0 0 0 "") in
  let b := nth 1 out (Sample.plain 0 0 0 0 "") in
  selection_reasons a = Some [scene_coverage]
  \/ selection_reasons b = Some [scene_coverage]
  \/ 1 <= Qabs (Get.timestamp_of a - Get.timestamp_of b).
Proof.
  cbv zeta.
  apply (select_spacing_unless_fill VarietySelector.init
           [ Sample.plain 1 0 1 400 "people_face";
             Sample.plain 2 0 5 300 "detail" ] 1 3 [] _ [] _ []).
  - vm_compute. reflexivity.
  - vm_compute. reflexivity.
Defined.

(** C10. The spacing bound has no exemption: any two returned candidates
    of the same scene are at least [min_timestamp_gap] apart; and every
    candidate the minimum fill accepts is marked [scene_coverage] and is
    at least the gap away from every timestamp accepted before it. *)
Theorem select_spacing_includes_fill
    (self : VarietySelector.t) (candidates : list Candidate)
    (min_per_scene max_per_scene : Z) :
  (forall l1 a l2 b l3,
     VarietySelector.select self candidates min_per_scene max_per_scene
     = l1 ++ a :: l2 ++ b :: l3 ->
     Get.scene_index_of a = Get.scene_index_of b ->
     VarietySelector.min_timestamp_gap self
     <= Qabs (Get.timestamp_of a - Get.timestamp_of b))
  /\ (forall scene_candidates p,
      exists added,
        VarietySelector.scene_selected
          (VarietySelector.fill_minimum
             (VarietySelector.min_timestamp_gap self) min_per_scene
             scene_candidates p)
        = VarietySelector.scene_selected p ++ added
        /\ forall c, In c added ->
             selection_reasons c = Some [scene_coverage]
             /\ forall t, In t (VarietySelector.selected_timestamps p) ->
                  VarietySelector.min_timestamp_gap self
                  <= Qabs (Get.timestamp_of c - t)).
Proof.
  split.
  - intros l1 a l2 b l3 E Hsame.
    apply (FOP_split _ _ (select_spaced self min_per_scene max_per_scene
                            candidates) l1 a l2 b l3 E Hsame).
  - intros scene_candidates p. apply fill_minimum_added.
Qed.

Lemma select_spacing_includes_fill_witness :
  let out :=
    VarietySelector.select VarietySelector.init
      [ Sample.plain 1 0 1 400 "broll"; Sample.plain 2 0 5 300 "broll" ]
      2 3 in
  let a := nth 0 out (Sample.plain 0 0 0 0 "") in
  let b := nth 1 out (Sample.plain 0 0 0 0 "") in
  selection_reasons b = Some [scene_coverage]
  /\ 1 <= Qabs (Get.timestamp_of a - Get.timestamp_of b).
Proof.
  cbv zeta. split; [vm_compute; reflexivity|].
  destruct (select_spacing_includes_fill VarietySelector.init
              [ Sample.plain 1 0 1 400 "broll";
                Sample.plain 2 0 5 300 "broll" ] 2 3) as [H _].
  apply (H [] _ [] _ []).
  - vm_compute. reflexivity.
  - vm_compute. reflexivity.
Defined.

(* ------------------------------------------------------------------ *)
(** ** VarietySelector: [should_keep] *)

Section ShouldKeepFacts.
Import VarietySelector.

Lemma min_gap_lower_bound g timestamp first others :
  (forall t, In t (first :: others) -> g <= Qabs (timestamp - t)) ->
  g <= min_gap timestamp first others.
Proof.
  unfold min_gap. intro H.
  assert (G : forall m, g <= m ->
            (forall t, In t others -> g <= Qabs (timestamp - t)) ->
            g <= fold_left
                   (fun m t => if Qltb (Qabs (timestamp - t)) m
                               then Qabs (timestamp - t) else m) others m).
  { induction others as [|t others IH]; intros m Hm Ho; cbn -[Qltb].
    - exact Hm.
    - apply IH.
      + intros t' Ht'. apply H. cbn in Ht'. cbn. tauto.
      + destruct (Qltb _ m); [apply Ho; left; reflexivity | exact Hm].
      + intros t' Ht'. apply Ho. right. exact Ht'. }
  apply G.
  - apply H. left. reflexivity.
  - intros t Ht. apply H. right. exact Ht.
Qed.

Lemma set_add_In_clusters x s y : In y (set_add x s) <-> y = x \/ In y s.
Proof.
  unfold set_add. destruct (existsb (Z.eqb x) s) eqn:E.
  - apply existsb_Zeqb_In in E. split; [tauto|].
    intros [-> | H]; assumption.
  - rewrite in_app_iff. cbn. intuition (subst; auto).
Qed.

(** A cluster id counts when some face of the candidate carries it and it
    is not the marker [-1] of an unclustered face. *)
Lemma get_face_clusters_In candidate id :
  In id (get_face_clusters candidate) <->
  exists face_key,
    In (face_key, id) (Get.get (cluster_labels candidate) [])
    /\ (0 <= id)%Z.
Proof.
  unfold get_face_clusters.
  set (labels := Get.get (cluster_labels candidate) []).
  assert (G : forall acc,
            In id (fold_left
                     (fun clusters kv =>
                        if (0 <=? snd kv)%Z then set_add (snd kv) clusters
                        else clusters) labels acc)
            <-> In id acc
                \/ exists face_key, In (face_key, id) labels /\ (0 <= id)%Z).
  { induction labels as [|[key v] labels IH]; intro acc; cbn [fold_left].
    - split; [auto|]. intros [H | (k & [] & _)]. exact H.
    - rewrite IH. cbn [snd]. destruct (0 <=? v)%Z eqn:E.
      + apply Z.leb_le in E. rewrite set_add_In_clusters. split.
        * intros [[-> | H] | (k & Hk & Hid)].
          -- right. exists key. split; [left; reflexivity | exact E].
          -- left. exact H.
          -- right. exists k. split; [right; exact Hk | exact Hid].
        * intros [H | (k & [Hk | Hk] & Hid)].
          -- left. right. exact H.
          -- injection Hk as _ ->. left. left. reflexivity.
          -- right. exists k. split; assumption.
      + apply Z.leb_gt in E. split.
        * intros [H | (k & Hk & Hid)]; [left; exact H|].
          right. exists k. split; [right; exact Hk | exact Hid].
        * intros [H | (k & [Hk | Hk] & Hid)].
          -- left. exact H.
          -- injection Hk as _ ->. lia.
          -- right. exists k. split; assumption. }
  rewrite G. cbn. tauto.
Qed.

Lemma criterion_new_faces_reason self candidate face_key id :
  In (face_key, id) (Get.get (cluster_labels candidate) []) ->
  (0 <= id)%Z -> ~ In id (seen_faces self) ->
  criterion_new_faces self candidate <> [].
Proof.
  intros Hin Hid Hnew. unfold criterion_new_faces.
  assert (Hf : In id (filter
                        (fun i => negb (existsb (Z.eqb i) (seen_faces self)))
                        (get_face_clusters candidate))).
  { apply filter_In. split.
    - apply get_face_clusters_In. exists face_key. split; assumption.
    - apply negb_true_iff.
      destruct (existsb (Z.eqb id) (seen_faces self)) eqn:E; [|reflexivity].
      apply existsb_Zeqb_In in E. contradiction. }
  destruct (filter _ _); [destruct Hf | discriminate].
Qed.

Lemma existsb_String_eqb_In x s :
  existsb (String.eqb x) s = true <-> In x s.
Proof.
  rewrite existsb_exists. split.
  - intros (y & Hy & E). apply String.eqb_eq in E. subst. exact Hy.
  - intro H. exists x. split; [exact H | apply String.eqb_refl].
Qed.

Lemma criterion_composition_reason self candidate :
  ~ In (classify_composition candidate)
       (Get.get (Groups.lookup Z.eqb (Get.scene_index_of candidate)
                   (seen_compositions self)) []) ->
  criterion_composition self candidate <> [].
Proof.
  intro H. unfold criterion_composition.
  destruct (existsb _ _) eqn:E; [|discriminate].
  apply existsb_String_eqb_In in E. contradiction.
Qed.

Lemma criterion_broll_reason candidate all_selected :
  Get.get (is_broll candidate) false = true ->
  tag_set (Get.tags_of candidate) <> [] ->
  (forall s, In s all_selected -> Get.get (is_broll s) false = true ->
     overlap (tag_set (Get.tags_of candidate)) (tag_set (Get.tags_of s))
     < 5 # 10) ->
  criterion_broll candidate all_selected <> [].
Proof.
  intros Hb Ht Ho. unfold criterion_broll. rewrite Hb.
  assert (Hs : similar_broll (tag_set (Get.tags_of candidate)) all_selected
               = false).
  { unfold similar_broll.
    destruct (existsb _ all_selected) eqn:E; [|reflexivity].
    apply existsb_exists in E. destruct E as (s & Hs & E).
    apply andb_true_iff in E. destruct E as [E1 E2].
    apply Qgtb_gt in E2. specialize (Ho s Hs E1).
    exfalso. apply (Qlt_irrefl (5 # 10)).
    apply Qlt_trans with (overlap (tag_set (Get.tags_of candidate))
                                  (tag_set (Get.tags_of s))); assumption. }
  rewrite Hs. cbn [negb andb].
  destruct (tag_set (Get.tags_of candidate)); [congruence | discriminate].
Qed.

End ShouldKeepFacts.

(** C7 (amended). Provided the candidate is at least [min_timestamp_gap]
    away from every already selected candidate of its scene,
    [should_keep] returns true together with at least one reason whenever
    one of these holds: (a) one of its faces carries a cluster id that is
    not in [seen_faces]; (b) its composition bucket is new for its scene;
    (c) its maximum smile score exceeds 0.6; (d) it is an audio peak;
    (e) its audio type is applause or music with intensity above 0.5;
    (f) its sharpness exceeds 500; (g) it is b-roll with a non-empty tag
    set whose overlap with every selected b-roll is below 50%. *)
Theorem should_keep_reasons
    (self : VarietySelector.t) (candidate : Candidate)
    (all_selected : list Candidate) :
  (forall s, In s all_selected ->
     scene_index s = Some (Get.scene_index_of candidate) ->
     VarietySelector.min_timestamp_gap self
     <= Qabs (Get.timestamp_of candidate - Get.timestamp_of s)) ->
  (exists face_key id,
      In (face_key, id) (Get.get (cluster_labels candidate) [])
      /\ (0 <= id)%Z /\ ~ In id (VarietySelector.seen_faces self))
  \/ ~ In (VarietySelector.classify_composition candidate)
          (Get.get (Groups.lookup Z.eqb (Get.scene_index_of candidate)
                      (VarietySelector.seen_compositions self)) [])
  \/ 6 # 10 < VarietySelector.max_smile_of candidate
  \/ Get.get (is_audio_peak candidate) false = true
  \/ ((audio_type candidate = Some "applause"%string
       \/ audio_type candidate = Some "music"%string)
      /\ 5 # 10 < Get.get (audio_intensity candidate) 0)
  \/ 500 < Get.get (sharpness_score candidate) 0
  \/ (Get.get (is_broll candidate) false = true
      /\ VarietySelector.tag_set (Get.tags_of candidate) <> []
      /\ forall s, In s all_selected ->
           Get.get (is_broll s) false = true ->
           VarietySelector.overlap
             (VarietySelector.tag_set (Get.tags_of candidate))
             (VarietySelector.tag_set (Get.tags_of s)) < 5 # 10) ->
  fst (VarietySelector.should_keep self candidate all_selected) = true
  /\ snd (VarietySelector.should_keep self candidate all_selected) <> [].
Proof.
  intros Hgap Hany.
  set (reasons :=
    VarietySelector.criterion_new_faces self candidate
    ++ VarietySelector.criterion_composition self candidate
    ++ VarietySelector.criterion_smile candidate
    ++ VarietySelector.criterion_audio_peak candidate
    ++ VarietySelector.criterion_audio_moment candidate
    ++ VarietySelector.criterion_sharpness candidate
    ++ VarietySelector.criterion_broll candidate all_selected).
  assert (Hr : reasons <> []).
  { unfold reasons. intro E.
    repeat (apply app_eq_nil in E;
            let E1 := fresh "E" in destruct E as [E1 E]).
    destruct Hany as [(k & id & Hin & Hid & Hnew)
                     | [Hb | [Hc | [Hd | [[He Hi] | [Hf | (Hg1 & Hg2 & Hg3)]]]]]].
    - apply (criterion_new_faces_reason self candidate k id Hin Hid Hnew).
      assumption.
    - apply (criterion_composition_reason self candidate Hb). assumption.
    - unfold VarietySelector.criterion_smile in *.
      apply Qgtb_gt in Hc. rewrite Hc in *. discriminate.
    - unfold VarietySelector.criterion_audio_peak in *.
      rewrite Hd in *. discriminate.
    - unfold VarietySelector.criterion_audio_moment in *.
      apply Qgtb_gt in Hi.
      destruct He as [He | He]; rewrite He, Hi in *; discriminate.
    - unfold VarietySelector.criterion_sharpness in *.
      apply Qgtb_gt in Hf. rewrite Hf in *. discriminate.
    - apply (criterion_broll_reason candidate all_selected Hg1 Hg2 Hg3).
      assumption. }
  assert (Hlen : negb (Nat.eqb (List.length reasons) 0) = true).
  { destruct reasons; [congruence | reflexivity]. }
  unfold VarietySelector.should_keep. fold reasons.
  destruct (map Get.timestamp_of _) as [|first others] eqn:Ets.
  - cbn [fst snd]. split; assumption.
  - assert (Hmin : VarietySelector.min_timestamp_gap self
                   <= VarietySelector.min_gap
                        (Get.timestamp_of candidate) first others).
    { apply min_gap_lower_bound. intros t Ht. rewrite <- Ets in Ht.
      apply in_map_iff in Ht. destruct Ht as (s & <- & Hs).
      apply filter_In in Hs. destruct Hs as [Hs Hsc].
      apply Hgap; [exact Hs|].
      unfold DictEq.option_eqb in Hsc.
      destruct (scene_index s) as [i|]; [|discriminate].
      apply Z.eqb_eq in Hsc. congruence. }
    apply Qltb_ge in Hmin. rewrite Hmin. cbn [fst snd]. split; assumption.
Qed.

Lemma should_keep_reasons_witness :
  fst (VarietySelector.should_keep VarietySelector.init
         (Sample.with_audio_peak (Sample.plain 2 0 (1 # 2) 100 "broll"))
         [ Sample.plain 1 0 5 100 "broll" ]) = true
  /\ snd (VarietySelector.should_keep VarietySelector.init
            (Sample.with_audio_peak (Sample.plain 2 0 (1 # 2) 100 "broll"))
            [ Sample.plain 1 0 5 100 "broll" ]) <> [].
Proof.
  apply (should_keep_reasons VarietySelector.init
           (Sample.with_audio_peak (Sample.plain 2 0 (1 # 2) 100 "broll"))
           [ Sample.plain 1 0 5 100 "broll" ]).
  - intros s [<- | []] _. apply Qle_bool_iff. reflexivity.
  - right. right. right. left. reflexivity.
Defined.

(** C7 as stated fails in two ways.  An audio peak half a second after an
    already selected frame of its scene is rejected as too close.  And a
    b-roll frame without tags, in a scene whose composition bucket was
    already seen, overlaps no selected b-roll at all and still gets no
    reason. *)
Lemma should_keep_counterexample :
  ~ (forall (self : VarietySelector.t) (candidate : Candidate)
            (all_selected : list Candidate),
        Get.get (is_audio_peak candidate) false = true ->
        fst (VarietySelector.should_keep self candidate all_selected) = true)
  /\ ~ (forall (self : VarietySelector.t) (candidate : Candidate)
               (all_selected : list Candidate),
          (Get.get (is_broll candidate) false = true
           /\ forall s, In s all_selected ->
                Get.get (is_broll s) false = true ->
                VarietySelector.overlap
                  (VarietySelector.tag_set (Get.tags_of candidate))
                  (VarietySelector.tag_set (Get.tags_of s)) < 5 # 10) ->
          fst (VarietySelector.should_keep self candidate all_selected)
          = true).
Proof.
  split; intro H.
  - specialize (H VarietySelector.init
                  (Sample.with_audio_peak
                     (Sample.plain 2 0 (1 # 2) 100 "broll"))
                  [ Sample.plain 1 0 0 100 "broll" ] eq_refl).
    vm_compute in H. discriminate.
  - specialize (H {| VarietySelector.seen_faces := [];
                     VarietySelector.seen_compositions :=
                       [(0%Z, ["medium"%string])];
                     VarietySelector.min_timestamp_gap := 1 |}
                  (Sample.plain 1 0 1 100 "broll") []).
    assert (E : false = true); [|discriminate].
    apply H. split; [reflexivity | intros s []].
Qed.

(* ================================================================== *)
(** * Further properties of the pipeline *)

(* ------------------------------------------------------------------ *)
(** ** Truncation of non-negative floats *)

Lemma int_of_float_floor q : 0 <= q -> Sampling.int_of_float q = Qfloor q.
Proof.
  destruct q as [n d]. unfold Qle, Sampling.int_of_float, Qfloor. cbn.
  intro H. apply Z.quot_div_nonneg; lia.
Qed.

Lemma int_of_float_nonneg q : 0 <= q -> (0 <= Sampling.int_of_float q)%Z.
Proof.
  intro H. rewrite (int_of_float_floor q H).
  change 0%Z with (Qfloor 0). apply Qfloor_resp_le, H.
Qed.

Lemma int_of_float_bounds q :
  0 <= q ->
  inject_Z (Sampling.int_of_float q) <= q
  /\ q < inject_Z (Sampling.int_of_float q) + 1.
Proof.
  intro H. rewrite (int_of_float_floor q H). split.
  - apply Qfloor_le.
  - pose proof (Qlt_floor q) as H1. rewrite inject_Z_plus in H1. exact H1.
Qed.

(* ------------------------------------------------------------------ *)
(** ** SceneDetector: the frame-count fallback *)

Section FallbackFacts.
Local Open Scope Z_scope.
Import SceneFallback.

Lemma tiling_snoc acc : forall a s e,
  tiling a acc s -> s <= e -> tiling a (acc ++ [(s, e)]) (e + 1).
Proof.
  induction acc as [|[s0 e0] acc IH]; intros a s e Ht Hle; cbn in *.
  - subst. auto.
  - destruct Ht as (-> & H0 & Ht). repeat split; auto.
Qed.

Lemma fallback_loop_tiles scene_length total_frames :
  0 <= scene_length ->
  forall fuel start acc,
    0 <= start <= total_frames ->
    (Z.to_nat (total_frames - start) <= fuel)%nat ->
    tiling 0 acc start ->
    Forall (fun se => 0 <= fst se /\ snd se <= total_frames - 1
                      /\ snd se - fst se <= scene_length) acc ->
    Forall (fun se => snd se - fst se = scene_length) (removelast acc) ->
    (start < total_frames ->
     Forall (fun se => snd se - fst se = scene_length) acc) ->
    exists scenes,
      fallback_loop fuel start scene_length total_frames acc = Ok scenes
      /\ tiling 0 scenes total_frames
      /\ Forall (fun se => 0 <= fst se /\ snd se <= total_frames - 1
                           /\ snd se - fst se <= scene_length) scenes
      /\ Forall (fun se => snd se - fst se = scene_length)
                (removelast scenes).
Proof.
  intro Hsl. induction fuel as [|fuel IH];
    intros start acc Hs Hf Ht Hb Hr Hfull; cbn [fallback_loop].
  - destruct (start <? total_frames) eqn:E.
    + apply Z.ltb_lt in E. lia.
    + apply Z.ltb_ge in E. assert (start = total_frames) by lia. subst.
      exists acc. auto.
  - destruct (start <? total_frames) eqn:E.
    + apply Z.ltb_lt in E.
      set (e := Z.min (start + scene_length) (total_frames - 1)).
      assert (He : start <= e <= total_frames - 1) by (unfold e; lia).
      apply IH.
      * lia.
      * lia.
      * apply tiling_snoc; [exact Ht | lia].
      * apply Forall_app. split; [exact Hb|].
        constructor; [|constructor]. cbn. unfold e. lia.
      * rewrite removelast_last. apply Hfull, E.
      * intro Hnext. apply Forall_app. split; [apply Hfull, E|].
        constructor; [|constructor]. cbn. unfold e in *. lia.
    + apply Z.ltb_ge in E. assert (start = total_frames) by lia. subst.
      exists acc. auto.
Qed.

Lemma fallback_loop_diverges scene_length total_frames :
  scene_length <= -1 ->
  forall fuel start acc,
    start < total_frames ->
    fallback_loop fuel start scene_length total_frames acc = OutOfFuel.
Proof.
  intro Hsl. induction fuel as [|fuel IH]; intros start acc Hs;
    cbn [fallback_loop].
  - apply Z.ltb_lt in Hs. rewrite Hs. reflexivity.
  - assert (E := Hs). apply Z.ltb_lt in E. rewrite E. apply IH. lia.
Qed.

End FallbackFacts.

(** X1. Without frames the fallback detector returns no scene.  With at
    least one frame and a non-negative frame rate it returns scenes that
    tile the video: the first starts at frame 0, each next one starts
    right after the end of the one before, and the last one ends at the
    last frame [total_frames - 1].  Every scene spans at most
    [int(fps * 5)] frame steps, and every scene but the last spans
    exactly that many. *)
Theorem fallback_detect_tiles (total_frames : Z) (fps : Q) :
  ((total_frames <= 0)%Z ->
   SceneFallback.fallback_detect total_frames fps = Ok [])
  /\ ((1 <= total_frames)%Z -> 0 <= fps ->
      exists scenes,
        SceneFallback.fallback_detect total_frames fps = Ok scenes
        /\ SceneFallback.tiling 0 scenes total_frames
        /\ Forall (fun se =>
                     (0 <= fst se)%Z /\ (snd se <= total_frames - 1)%Z
                     /\ (snd se - fst se
                         <= Sampling.int_of_float (fps * 5))%Z) scenes
        /\ Forall (fun se =>
                     (snd se - fst se
                      = Sampling.int_of_float (fps * 5))%Z)
                  (removelast scenes)).
Proof.
  unfold SceneFallback.fallback_detect. split.
  - intro H. apply Z.leb_le in H. rewrite H. reflexivity.
  - intros Ht Hfps.
    assert (E : (total_frames <=? 0)%Z = false) by (apply Z.leb_gt; lia).
    rewrite E.
    apply fallback_loop_tiles.
    + apply int_of_float_nonneg.
      apply Qmult_le_0_compat; [exact Hfps | discriminate].
    + lia.
    + rewrite Z.sub_0_r. apply Nat.le_refl.
    + reflexivity.
    + constructor.
    + constructor.
    + intros _. constructor.
Qed.

Lemma fallback_detect_tiles_witness :
  exists scenes,
    SceneFallback.fallback_detect 300 24 = Ok scenes
    /\ SceneFallback.tiling 0 scenes 300.
Proof.
  destruct (fallback_detect_tiles 300 24) as [_ H].
  destruct H as (scenes & E & Ht & _); [lia | discriminate |].
  exists scenes. split; [exact E | exact Ht].
Defined.

(** X2. When the frame rate is so negative that [int(fps * 5)] is at most
    [-1], the scene loop of the fallback detector makes no progress on a
    video with at least one frame: whatever number of iterations it is
    allowed, it has not returned. *)
Theorem fallback_detect_negative_rate_diverges
    (total_frames : Z) (fps : Q) (fuel : nat) :
  (1 <= total_frames)%Z ->
  (Sampling.int_of_float (fps * 5) <= -1)%Z ->
  SceneFallback.fallback_loop fuel 0
    (Sampling.int_of_float (fps * 5)) total_frames [] = OutOfFuel.
Proof.
  intros Ht Hsl. apply fallback_loop_diverges; [exact Hsl | lia].
Qed.

Lemma fallback_detect_negative_rate_diverges_witness :
  SceneFallback.fallback_loop 1000 0
    (Sampling.int_of_float (-1 * 5)) 10 [] = OutOfFuel.
Proof.
  apply (fallback_detect_negative_rate_diverges 10 (-1) 1000).
  - lia.
  - vm_compute. discriminate.
Defined.

(* ------------------------------------------------------------------ *)
(** ** SmartCropper *)

Section CropFacts.
Import Cropper.

Variables img_width img_height ratio_w ratio_h : Z.
Hypothesis width_pos : (0 < img_width)%Z.
Hypothesis height_pos : (0 < img_height)%Z.
Hypothesis ratio_w_pos : (0 < ratio_w)%Z.
Hypothesis ratio_h_pos : (0 < ratio_h)%Z.

Let W := inject_Z img_width.
Let H := inject_Z img_height.
Let T := inject_Z ratio_w / inject_Z ratio_h.

Lemma inject_Z_pos z : (0 < z)%Z -> 0 < inject_Z z.
Proof. intro Hz. rewrite Zlt_Qlt in Hz. exact Hz. Qed.

Lemma target_ratio_pos : 0 < T.
Proof.
  unfold T. apply Qlt_shift_div_l.
  - apply inject_Z_pos, ratio_h_pos.
  - rewrite Qmult_0_l. apply inject_Z_pos, ratio_w_pos.
Qed.

(** The size of a crop: one side is the image's, the other the exact
    ratio side truncated to whole pixels, and both fit the image. *)
Lemma crop_for_size subj_cx subj_cy :
  let c := crop_for img_width img_height subj_cx subj_cy
             (ratio_w, ratio_h) in
  (0 <= width c <= img_width)%Z /\ (0 <= height c <= img_height)%Z
  /\ ((width c = img_width
       /\ inject_Z (height c) <= W / T
       /\ W / T < inject_Z (height c) + 1)
      \/ (height c = img_height
          /\ inject_Z (width c) <= H * T
          /\ H * T < inject_Z (width c) + 1)).
Proof.
  assert (HW : 0 < W) by (apply inject_Z_pos, width_pos).
  assert (HH : 0 < H) by (apply inject_Z_pos, height_pos).
  assert (HT := target_ratio_pos).
  unfold crop_for. fold T. fold W. fold H.
  destruct (Qgtb T (W / H)) eqn:E; cbn [width height].
  - apply Qgtb_gt in E.
    assert (Hq : 0 <= W / T).
    { apply Qle_shift_div_l; [exact HT|]. rewrite Qmult_0_l.
      apply Qlt_le_weak, HW. }
    destruct (int_of_float_bounds _ Hq) as [Hlo Hhi].
    pose proof (int_of_float_nonneg _ Hq) as Hn.
    assert (Hlt : W / T < H).
    { apply Qlt_shift_div_r; [exact HT|].
      assert (E' : W / H * H < T * H).
      { apply Qmult_lt_compat_r; assumption. }
      assert (Eq : W / H * H == W).
      { unfold Qdiv. rewrite <- Qmult_assoc, (Qmult_comm (/ H)).
        rewrite Qmult_inv_r, Qmult_1_r; [reflexivity|].
        intro Z0. rewrite Z0 in HH. discriminate. }
      rewrite Eq in E'. rewrite (Qmult_comm H T). exact E'. }
    assert (Hh : (Sampling.int_of_float (W / T) < img_height)%Z).
    { rewrite Zlt_Qlt. fold H.
      apply Qle_lt_trans with (W / T); assumption. }
    split; [lia|]. split; [lia|]. left. auto.
  - apply Qltb_ge in E.
    assert (Hq : 0 <= H * T).
    { apply Qmult_le_0_compat; apply Qlt_le_weak; assumption. }
    destruct (int_of_float_bounds _ Hq) as [Hlo Hhi].
    pose proof (int_of_float_nonneg _ Hq) as Hn.
    assert (Hle : H * T <= W).
    { assert (E' : T * H <= W / H * H).
      { apply Qmult_le_compat_r; [exact E | apply Qlt_le_weak, HH]. }
      assert (Eq : W / H * H == W).
      { unfold Qdiv. rewrite <- Qmult_assoc, (Qmult_comm (/ H)).
        rewrite Qmult_inv_r, Qmult_1_r; [reflexivity|].
        intro Z0. rewrite Z0 in HH. discriminate. }
      rewrite Eq in E'. rewrite (Qmult_comm H T). exact E'. }
    assert (Hw : (Sampling.int_of_float (H * T) <= img_width)%Z).
    { rewrite Zle_Qle. fold W.
      apply Qle_trans with (H * T); assumption. }
    split; [lia|]. split; [lia|]. right. auto.
Qed.

(** The position of a crop: inside the image, and around the subject
    centre when that lies in the image. *)
Lemma crop_for_position subj_cx subj_cy :
  let c := crop_for img_width img_height subj_cx subj_cy
             (ratio_w, ratio_h) in
  (0 <= x1 c)%Z /\ (x2 c <= img_width)%Z
  /\ (0 <= y1 c)%Z /\ (y2 c <= img_height)%Z
  /\ (x2 c - x1 c = width c)%Z /\ (y2 c - y1 c = height c)%Z
  /\ ((0 <= subj_cx <= img_width)%Z -> (x1 c <= subj_cx <= x2 c)%Z)
  /\ ((0 <= subj_cy <= img_height)%Z -> (y1 c <= subj_cy <= y2 c)%Z).
Proof.
  destruct (crop_for_size subj_cx subj_cy) as (Hw & Hh & _).
  revert Hw Hh. unfold crop_for. fold T. fold W. fold H.
  destruct (Qgtb T (W / H)); cbn [x1 x2 y1 y2 width height];
    intros Hw Hh; repeat split; intros;
    Z.div_mod_to_equations; lia.
Qed.

End CropFacts.

Lemma aspect_ratios_positive :
  Forall (fun entry => (0 < fst (snd entry))%Z /\ (0 < snd (snd entry))%Z)
         Cropper.aspect_ratios.
Proof. repeat constructor. Qed.

Lemma generate_crops_entries img_width img_height faces subject_bbox :
  (0 < img_height)%Z ->
  let centre :=
    Cropper.subject_centre img_width img_height faces subject_bbox in
  exists crops,
    Cropper.generate_crops img_width img_height faces subject_bbox
    = Ok crops
    /\ map fst crops = map fst Cropper.aspect_ratios
    /\ forall name c, In (name, c) crops ->
         exists ratio_w ratio_h,
           In (name, (ratio_w, ratio_h)) Cropper.aspect_ratios
           /\ (0 < ratio_w)%Z /\ (0 < ratio_h)%Z
           /\ c = Cropper.crop_for img_width img_height
                    (fst centre) (snd centre) (ratio_w, ratio_h).
Proof.
  intros Hh centre. unfold Cropper.generate_crops. fold centre.
  destruct centre as [cx cy] eqn:Ec.
  assert (E : (img_height =? 0)%Z = false) by (apply Z.eqb_neq; lia).
  rewrite E. eexists. split; [reflexivity|]. split.
  - rewrite map_map. reflexivity.
  - intros name c Hin. apply in_map_iff in Hin.
    destruct Hin as ([n [rw rh]] & Heq & Hin). cbn in Heq.
    injection Heq as <- <-.
    pose proof aspect_ratios_positive as Hp.
    rewrite Forall_forall in Hp. specialize (Hp _ Hin). cbn in Hp.
    exists rw, rh. tauto.
Qed.

(** X3. On an image of positive size every crop [generate_crops] returns
    lies inside the image, its corners agree with its width and height,
    and neither side is negative; there is one crop for each of the four
    aspect ratios. *)
Theorem generate_crops_inside_image
    (img_width img_height : Z) (faces : list Face)
    (subject_bbox : option (Z * Z * Z * Z)) :
  (0 < img_width)%Z -> (0 < img_height)%Z ->
  exists crops,
    Cropper.generate_crops img_width img_height faces subject_bbox
    = Ok crops
    /\ map fst crops = ["9:16"; "1:1"; "16:9"; "4:5"]%string
    /\ forall name c, In (name, c) crops ->
         (0 <= Cropper.x1 c)%Z /\ (Cropper.x2 c <= img_width)%Z
         /\ (0 <= Cropper.y1 c)%Z /\ (Cropper.y2 c <= img_height)%Z
         /\ (Cropper.x2 c - Cropper.x1 c = Cropper.width c)%Z
         /\ (Cropper.y2 c - Cropper.y1 c = Cropper.height c)%Z
         /\ (0 <= Cropper.width c)%Z /\ (0 <= Cropper.height c)%Z.
Proof.
  intros Hw Hh.
  destruct (generate_crops_entries img_width img_height faces subject_bbox
              Hh) as (crops & E & Hn & Hc).
  exists crops. split; [exact E|]. split; [exact Hn|].
  intros name c Hin.
  destruct (Hc name c Hin) as (rw & rh & _ & Hrw & Hrh & ->).
  destruct (crop_for_position img_width img_height rw rh Hw Hh Hrw Hrh
              (fst (Cropper.subject_centre img_width img_height faces
                      subject_bbox))
              (snd (Cropper.subject_centre img_width img_height faces
                      subject_bbox)))
    as (A & B & C & D & E1 & E2 & _).
  destruct (crop_for_size img_width img_height rw rh Hw Hh Hrw Hrh
              (fst (Cropper.subject_centre img_width img_height faces
                      subject_bbox))
              (snd (Cropper.subject_centre img_width img_height faces
                      subject_bbox)))
    as (Sw & Sh & _).
  repeat split; try assumption; lia.
Qed.

Lemma generate_crops_inside_image_witness :
  exists crops,
    Cropper.generate_crops 1920 1080 [] None = Ok crops
    /\ map fst crops = ["9:16"; "1:1"; "16:9"; "4:5"]%string.
Proof.
  destruct (generate_crops_inside_image 1920 1080 [] None)
    as (crops & E & Hn & _); [lia | lia |].
  exists crops. split; [exact E | exact Hn].
Defined.

(** X4. Every crop spans the whole width or the whole height of the
    image, and its other side is the side the aspect ratio asks for,
    rounded down to whole pixels. *)
Theorem generate_crops_aspect
    (img_width img_height : Z) (faces : list Face)
    (subject_bbox : option (Z * Z * Z * Z))
    (crops : list (string * Cropper.CropCoordinates))
    (name : string) (c : Cropper.CropCoordinates) :
  (0 < img_width)%Z -> (0 < img_height)%Z ->
  Cropper.generate_crops img_width img_height faces subject_bbox
  = Ok crops ->
  In (name, c) crops ->
  exists ratio_w ratio_h,
    In (name, (ratio_w, ratio_h)) Cropper.aspect_ratios
    /\ ((Cropper.width c = img_width
         /\ inject_Z (Cropper.height c)
            <= inject_Z img_width / (inject_Z ratio_w / inject_Z ratio_h)
         /\ inject_Z img_width / (inject_Z ratio_w / inject_Z ratio_h)
            < inject_Z (Cropper.height c) + 1)
        \/ (Cropper.height c = img_height
            /\ inject_Z (Cropper.width c)
               <= inject_Z img_height
                  * (inject_Z ratio_w / inject_Z ratio_h)
            /\ inject_Z img_height * (inject_Z ratio_w / inject_Z ratio_h)
               < inject_Z (Cropper.width c) + 1)).
Proof.
  intros Hw Hh E Hin.
  destruct (generate_crops_entries img_width img_height faces subject_bbox
              Hh) as (crops' & E' & _ & Hc).
  rewrite E in E'. injection E' as <-.
  destruct (Hc name c Hin) as (rw & rh & Hr & Hrw & Hrh & ->).
  exists rw, rh. split; [exact Hr|].
  apply (crop_for_size img_width img_height rw rh Hw Hh Hrw Hrh).
Qed.

Lemma generate_crops_aspect_witness :
  exists ratio_w ratio_h,
    In ("1:1"%string, (ratio_w, ratio_h)) Cropper.aspect_ratios
    /\ (Cropper.width (Cropper.crop_for 1920 1080 960 540 (1, 1)%Z)
        = 1920%Z
        \/ Cropper.height (Cropper.crop_for 1920 1080 960 540 (1, 1)%Z)
           = 1080%Z).
Proof.
  destruct (generate_crops_aspect 1920 1080 [] None
              [ ("9:16"%string,
                 Cropper.crop_for 1920 1080 960 540 (9, 16)%Z);
                ("1:1"%string,
                 Cropper.crop_for 1920 1080 960 540 (1, 1)%Z);
                ("16:9"%string,
                 Cropper.crop_for 1920 1080 960 540 (16, 9)%Z);
                ("4:5"%string,
                 Cropper.crop_for 1920 1080 960 540 (4, 5)%Z) ]
              "1:1"%string (Cropper.crop_for 1920 1080 960 540 (1, 1)%Z))
    as (rw & rh & Hr & Hs).
  - lia.
  - lia.
  - vm_compute. reflexivity.
  - right. left. reflexivity.
  - exists rw, rh. split; [exact Hr|].
    destruct Hs as [[Hs _] | [Hs _]]; [left | right]; exact Hs.
Defined.

(** X5. When the subject centre lies in the image, it lies in every crop
    [generate_crops] returns. *)
Theorem generate_crops_contains_subject
    (img_width img_height : Z) (faces : list Face)
    (subject_bbox : option (Z * Z * Z * Z))
    (crops : list (string * Cropper.CropCoordinates))
    (name : string) (c : Cropper.CropCoordinates) :
  let centre :=
    Cropper.subject_centre img_width img_height faces subject_bbox in
  (0 < img_width)%Z -> (0 < img_height)%Z ->
  (0 <= fst centre <= img_width)%Z -> (0 <= snd centre <= img_height)%Z ->
  Cropper.generate_crops img_width img_height faces subject_bbox
  = Ok crops ->
  In (name, c) crops ->
  (Cropper.x1 c <= fst centre <= Cropper.x2 c)%Z
  /\ (Cropper.y1 c <= snd centre <= Cropper.y2 c)%Z.
Proof.
  intros centre Hw Hh Hx Hy E Hin.
  destruct (generate_crops_entries img_width img_height faces subject_bbox
              Hh) as (crops' & E' & _ & Hc).
  rewrite E in E'. injection E' as <-.
  destruct (Hc name c Hin) as (rw & rh & _ & Hrw & Hrh & ->).
  destruct (crop_for_position img_width img_height rw rh Hw Hh Hrw Hrh
              (fst centre) (snd centre))
    as (_ & _ & _ & _ & _ & _ & Px & Py).
  split; [apply Px, Hx | apply Py, Hy].
Qed.

Lemma generate_crops_contains_subject_witness :
  (Cropper.x1 (Cropper.crop_for 1920 1080 960 540 (9, 16)%Z) <= 960
   <= Cropper.x2 (Cropper.crop_for 1920 1080 960 540 (9, 16)%Z))%Z.
Proof.
  destruct (generate_crops_contains_subject 1920 1080 [] None
              [ ("9:16"%string,
                 Cropper.crop_for 1920 1080 960 540 (9, 16)%Z);
                ("1:1"%string,
                 Cropper.crop_for 1920 1080 960 540 (1, 1)%Z);
                ("16:9"%string,
                 Cropper.crop_for 1920 1080 960 540 (16, 9)%Z);
                ("4:5"%string,
                 Cropper.crop_for 1920 1080 960 540 (4, 5)%Z) ]
              "9:16"%string (Cropper.crop_for 1920 1080 960 540 (9, 16)%Z))
    as [Hx _].
  - lia.
  - lia.
  - vm_compute. split; discriminate.
  - vm_compute. split; discriminate.
  - vm_compute. reflexivity.
  - left. reflexivity.
  - exact Hx.
Defined.

(* ------------------------------------------------------------------ *)
(** ** AudioTimeline: energy lookup *)

Lemma strongly_sorted_nth (l : list Q) :
  StronglySorted Qlt l ->
  forall i j a b, (i < j)%nat ->
    nth_error l i = Some a -> nth_error l j = Some b -> a < b.
Proof.
  induction 1 as [|x l Hs IH Hx]; intros i j a b Hij Ha Hb.
  - destruct i; discriminate.
  - destruct j as [|j]; [lia|]. cbn in Hb.
    destruct i as [|i]; cbn in Ha.
    + injection Ha as <-. rewrite Forall_forall in Hx.
      apply Hx. apply (nth_error_In _ _ Hb).
    + apply (IH i j a b); [lia | assumption | assumption].
Qed.

(** X6. On a curve whose times are strictly ascending, looking up the
    time of an entry returns the energy stored with that entry. *)
Theorem get_energy_at_stored_time
    (energy_curve : list (Q * Q)) (i : nat) (t e : Q) :
  StronglySorted Qlt (map fst energy_curve) ->
  nth_error energy_curve i = Some (t, e) ->
  Audio.get_energy_at_timestamp energy_curve t = e.
Proof.
  intros Hs Hi.
  destruct energy_curve as [|first rest] eqn:Ec; [destruct i; discriminate|].
  rewrite <- Ec in *.
  assert (Ht : nth_error (map fst energy_curve) i = Some t).
  { rewrite nth_error_map, Hi. reflexivity. }
  destruct (searchsorted_spec (map fst energy_curve) t)
    as (Hlen & Hbelow & Hat).
  set (idx := Audio.searchsorted (map fst energy_curve) t) in *.
  assert (Hidx : idx = i).
  { destruct (Nat.lt_trichotomy idx i) as [Hlt | [Heq | Hgt]].
    - assert (Hsome : exists x, nth_error (map fst energy_curve) idx = Some x).
      { destruct (nth_error (map fst energy_curve) idx) eqn:E;
          [eexists; reflexivity|].
        apply nth_error_None in E.
        assert (nth_error (map fst energy_curve) i <> None) by congruence.
        apply nth_error_Some in H. lia. }
      destruct Hsome as (x & Hx).
      pose proof (strongly_sorted_nth _ Hs idx i x t Hlt Hx Ht) as H1.
      pose proof (Hat x Hx) as H2.
      exfalso. apply (Qlt_irrefl t).
      apply Qle_lt_trans with x; assumption.
    - exact Heq.
    - pose proof (Hbelow i t Hgt Ht) as H1.
      exfalso. apply (Qlt_irrefl t H1). }
  rewrite Ec. rewrite get_energy_at_or_after. rewrite <- Ec.
  fold idx. rewrite Hidx.
  assert (Hlt : (i < List.length energy_curve)%nat).
  { apply nth_error_Some. congruence. }
  apply Nat.ltb_lt in Hlt. rewrite Hlt.
  rewrite (nth_error_nth _ _ _ Hi). reflexivity.
Qed.

Lemma get_energy_at_stored_time_witness :
  Audio.get_energy_at_timestamp
    [(0, 1 # 10); (1 # 2, 9 # 10); (1, 3 # 10)] (1 # 2) = 9 # 10.
Proof.
  apply (get_energy_at_stored_time
           [(0, 1 # 10); (1 # 2, 9 # 10); (1, 3 # 10)] 1 (1 # 2) (9 # 10)).
  - repeat constructor.
  - reflexivity.
Defined.



(* ------------------------------------------------------------------ *)
(** ** AudioTimeline: events *)

Section EventFacts.
Import AudioEvents.

Lemma event_type_eqb_eq a b : event_type_eqb a b = true <-> a = b.
Proof. destruct a, b; cbn; split; congruence. Qed.

Lemma segment_type_not_silence s :
  segment_type s <> Audio.silence -> Audio.silence_threshold <= seg_rms s.
Proof.
  unfold segment_type, Audio.classify_segment.
  destruct (Qltb (seg_rms s) Audio.silence_threshold) eqn:E.
  - congruence.
  - intros _. apply Qltb_ge, E.
Qed.

Lemma max2_ge_l a b : a <= max2 a b.
Proof.
  unfold max2. destruct (Qltb a b) eqn:E.
  - apply Qltb_lt in E. apply Qlt_le_weak, E.
  - apply Qle_refl.
Qed.

Lemma emit_audible events current :
  Forall audible events ->
  (event_type current <> Audio.silence -> audible current) ->
  Forall audible (emit events current).
Proof.
  intros He Hc. unfold emit.
  destruct (event_type current) eqn:E; try exact He;
    apply Forall_app; (split; [exact He|]);
    constructor; try constructor; apply Hc; congruence.
Qed.

Lemma merge_step_audible st s :
  Forall audible (fst st) ->
  (forall cur, snd st = Some cur ->
     event_type cur <> Audio.silence -> audible cur) ->
  Forall audible (fst (merge_step st s))
  /\ (forall cur, snd (merge_step st s) = Some cur ->
        event_type cur <> Audio.silence -> audible cur).
Proof.
  destruct st as [events [current|]]; cbn [fst snd]; intros He Hc;
    unfold merge_step.
  - destruct (event_type_eqb (event_type current) (segment_type s)) eqn:E;
      cbn [fst snd].
    + split; [exact He|]. intros cur Hcur Hns. injection Hcur as <-.
      cbn in Hns. destruct (Hc current eq_refl Hns) as [_ Hi].
      split; [exact Hns|]. cbn.
      apply Qle_trans with (intensity current); [exact Hi | apply max2_ge_l].
    + split; [apply emit_audible; auto|].
      intros cur Hcur Hns. injection Hcur as <-. cbn in *.
      split; [exact Hns | apply segment_type_not_silence, Hns].
  - cbn [fst snd]. split; [exact He|].
    intros cur Hcur Hns. injection Hcur as <-. cbn in *.
    split; [exact Hns | apply segment_type_not_silence, Hns].
Qed.

Lemma fold_merge_audible segments : forall st,
  Forall audible (fst st) ->
  (forall cur, snd st = Some cur ->
     event_type cur <> Audio.silence -> audible cur) ->
  let st' := fold_left merge_step segments st in
  Forall audible (fst st')
  /\ (forall cur, snd st' = Some cur ->
        event_type cur <> Audio.silence -> audible cur).
Proof.
  induction segments as [|s segments IH]; intros st He Hc; cbn.
  - auto.
  - destruct (merge_step_audible st s He Hc) as [He' Hc'].
    apply (IH _ He' Hc').
Qed.

Lemma emit_types events current :
  map event_type (emit events current)
  = map event_type events
    ++ (if is_silence (event_type current) then []
        else [event_type current]).
Proof.
  unfold emit, is_silence.
  destruct (event_type current) eqn:E; cbn;
    rewrite ?map_app; cbn; rewrite ?E, ?app_nil_r; reflexivity.
Qed.

Lemma fold_merge_types segments : forall events current,
  let st' := fold_left merge_step segments (events, Some current) in
  pending_types st'
  = map event_type events
    ++ filter (fun ty => negb (is_silence ty))
              (runs (event_type current :: map segment_type segments)).
Proof.
  induction segments as [|s segments IH]; intros events current.
  - cbn. unfold pending_types. cbn.
    destruct (is_silence (event_type current)); reflexivity.
  - cbn [fold_left map]. unfold merge_step at 2.
    cbn [runs].
    destruct (event_type_eqb (event_type current) (segment_type s)) eqn:E.
    + rewrite IH. cbn [event_type].
      apply event_type_eqb_eq in E. rewrite E. reflexivity.
    + rewrite IH. rewrite emit_types. cbn [event_type filter].
      rewrite <- app_assoc. f_equal.
      destruct (is_silence (event_type current)); reflexivity.
Qed.

End EventFacts.

(** X8. No event that [analyze] emits is silence, and the intensity of
    every emitted event is at least the silence threshold 0.05. *)
Theorem merge_segments_audible (segments : list AudioEvents.Segment) :
  Forall (fun e => AudioEvents.event_type e <> Audio.silence
                   /\ 5 # 100 <= AudioEvents.intensity e)
         (AudioEvents.merge_segments segments).
Proof.
  unfold AudioEvents.merge_segments.
  destruct (fold_merge_audible segments ([], None)) as [He Hc].
  - constructor.
  - intros cur Hcur. discriminate.
  - destruct (fold_left AudioEvents.merge_step segments ([], None))
      as [events [current|]]; cbn [fst snd] in *.
    + apply emit_audible; [exact He | apply Hc; reflexivity].
    + exact He.
Qed.

(** X9. The types of the emitted events are the types of the segments
    with every run of equal neighbours merged into one and the silent
    runs dropped. *)
Theorem merge_segments_types (segments : list AudioEvents.Segment) :
  map AudioEvents.event_type (AudioEvents.merge_segments segments)
  = filter (fun ty => negb (AudioEvents.is_silence ty))
           (AudioEvents.runs (map AudioEvents.segment_type segments)).
Proof.
  unfold AudioEvents.merge_segments.
  destruct segments as [|s segments]; [reflexivity|].
  cbn [fold_left map]. unfold AudioEvents.merge_step at 2.
  pose proof (fold_merge_types segments []
                {| AudioEvents.start_time := AudioEvents.seg_start_time s;
                   AudioEvents.end_time := AudioEvents.seg_end_time s;
                   AudioEvents.event_type := AudioEvents.segment_type s;
                   AudioEvents.confidence := AudioEvents.segment_confidence s;
                   AudioEvents.intensity := AudioEvents.seg_rms s |}) as H.
  cbv zeta in H. cbn [map app AudioEvents.event_type] in H.
  rewrite <- H. unfold pending_types.
  destruct (fold_left AudioEvents.merge_step segments _)
    as [events [current|]]; cbn [fst snd].
  - apply emit_types.
  - rewrite app_nil_r. reflexivity.
Qed.

Section EventOrder.
Import AudioEvents.

Lemma chronological_snoc events current :
  chronological events ->
  (forall e, In e events -> end_time e <= start_time current) ->
  start_time current <= end_time current ->
  chronological (events ++ [current]).
Proof.
  intros [Hw Ho] Hb Hc. split.
  - apply Forall_app. split; [exact Hw | repeat constructor; exact Hc].
  - apply FOP_snoc; assumption.
Qed.

Lemma emit_chronological events current :
  chronological events ->
  (forall e, In e events -> end_time e <= start_time current) ->
  start_time current <= end_time current ->
  chronological (emit events current)
  /\ forall e, In e (emit events current) ->
       In e events \/ e = current.
Proof.
  intros He Hb Hc. unfold emit.
  destruct (event_type current);
    (split; [try exact He; apply chronological_snoc; assumption |]);
    intros e Hin; try (left; exact Hin);
    apply in_app_or in Hin; destruct Hin as [Hin | [<- | []]]; auto.
Qed.

Lemma fold_merge_ordered segments : forall events current,
  Forall (fun s => seg_start_time s <= seg_end_time s) segments ->
  ForallOrdPairs (fun a b => seg_end_time a <= seg_start_time b) segments ->
  merge_ordered events current segments ->
  exists events' current',
    fold_left merge_step segments (events, Some current)
    = (events', Some current')
    /\ merge_ordered events' current' [].
Proof.
  induction segments as [|s segments IH]; intros events current Hw Ho Hi.
  - exists events, current. split; [reflexivity | exact Hi].
  - inversion Hw as [|? ? Hs Hw']; subst.
    inversion Ho as [|? ? Hnext Ho']; subst.
    rewrite Forall_forall in Hnext.
    destruct Hi as (Hc & Hb & Hcur & Hseg).
    cbn [fold_left]. unfold merge_step at 2.
    destruct (event_type_eqb (event_type current) (segment_type s)).
    + apply IH; [exact Hw' | exact Ho' |].
      split; [exact Hc|]. cbn. split; [exact Hb|]. split.
      * apply Qle_trans with (end_time current); [exact Hcur|].
        apply Qle_trans with (seg_start_time s); [|exact Hs].
        apply Hseg. left. reflexivity.
      * exact Hnext.
    + destruct (emit_chronological events current Hc Hb Hcur)
        as [Hc' Hin'].
      apply IH; [exact Hw' | exact Ho' |].
      split; [exact Hc'|]. cbn. split; [|split; [exact Hs | exact Hnext]].
      intros e He. destruct (Hin' e He) as [He' | ->].
      * apply Qle_trans with (start_time current); [apply Hb, He'|].
        apply Qle_trans with (end_time current); [exact Hcur|].
        apply Hseg. left. reflexivity.
      * apply Hseg. left. reflexivity.
Qed.

End EventOrder.

(** X10. When no segment ends before it starts and every segment ends
    before any later one starts, the emitted events are in time order:
    none ends before it starts and each one ends before any later one
    starts. *)
Theorem merge_segments_chronological
    (segments : list AudioEvents.Segment) :
  Forall (fun s => AudioEvents.seg_start_time s
                   <= AudioEvents.seg_end_time s) segments ->
  ForallOrdPairs
    (fun a b => AudioEvents.seg_end_time a <= AudioEvents.seg_start_time b)
    segments ->
  chronological (AudioEvents.merge_segments segments).
Proof.
  intros Hw Ho. unfold AudioEvents.merge_segments.
  destruct segments as [|s segments].
  - cbn. split; constructor.
  - inversion Hw as [|? ? Hs Hw']; subst.
    inversion Ho as [|? ? Hnext Ho']; subst.
    rewrite Forall_forall in Hnext.
    cbn [fold_left]. unfold AudioEvents.merge_step at 2.
    destruct (fold_merge_ordered segments []
                {| AudioEvents.start_time := AudioEvents.seg_start_time s;
                   AudioEvents.end_time := AudioEvents.seg_end_time s;
                   AudioEvents.event_type := AudioEvents.segment_type s;
                   AudioEvents.confidence :=
                     AudioEvents.segment_confidence s;
                   AudioEvents.intensity := AudioEvents.seg_rms s |}
                Hw' Ho')
      as (events' & current' & E & (Hc & Hb & Hcur & _)).
    + split; [split; constructor|]. split; [intros e []|].
      split; [exact Hs | exact Hnext].
    + rewrite E.
      apply (emit_chronological events' current' Hc Hb Hcur).
Qed.

Lemma merge_segments_chronological_witness :
  chronological
    (AudioEvents.merge_segments
       [ {| AudioEvents.seg_rms := 3 # 10;
            AudioEvents.seg_centroid := 5 # 10;
            AudioEvents.seg_zcr := 1 # 10;
            AudioEvents.seg_bandwidth := 0;
            AudioEvents.seg_start_time := 0;
            AudioEvents.seg_end_time := 1 |};
         {| AudioEvents.seg_rms := 3 # 10;
            AudioEvents.seg_centroid := 2 # 10;
            AudioEvents.seg_zcr := 3 # 10;
            AudioEvents.seg_bandwidth := 0;
            AudioEvents.seg_start_time := 1;
            AudioEvents.seg_end_time := 2 |} ]).
Proof.
  apply merge_segments_chronological.
  - repeat constructor; discriminate.
  - repeat constructor; discriminate.
Defined.

(** X11. [get_event_at_timestamp] returns the first event whose span
    holds the timestamp, and nothing exactly when no event does. *)
Theorem get_event_at_timestamp_first
    (events : list AudioEvents.AudioEvent) (timestamp : Q) :
  match AudioEvents.get_event_at_timestamp events timestamp with
  | Some e =>
      exists before after,
        events = before ++ e :: after
        /\ covers timestamp e
        /\ Forall (fun e' => ~ covers timestamp e') before
  | None => Forall (fun e' => ~ covers timestamp e') events
  end.
Proof.
  induction events as [|e events IH]; cbn [AudioEvents.get_event_at_timestamp].
  - constructor.
  - destruct (Qle_bool (AudioEvents.start_time e) timestamp
              && Qle_bool timestamp (AudioEvents.end_time e)) eqn:E.
    + apply andb_true_iff in E. destruct E as [E1 E2].
      apply Qle_bool_iff in E1, E2.
      exists [], events. split; [reflexivity|].
      split; [split; assumption | constructor].
    + assert (Hn : ~ covers timestamp e).
      { intros [H1 H2]. apply Qle_bool_iff in H1, H2.
        rewrite H1, H2 in E. discriminate. }
      destruct (AudioEvents.get_event_at_timestamp events timestamp)
        as [e'|].
      * destruct IH as (before & after & -> & Hc & Hb).
        exists (e :: before), after. split; [reflexivity|].
        split; [exact Hc | constructor; assumption].
      * constructor; assumption.
Qed.

(* ------------------------------------------------------------------ *)
(** ** VarietySelector: the state and [should_keep] *)

Section SelectorStateFacts.
Import VarietySelector.

Lemma seen_after_update ids : forall seen id,
  In id (fold_left (fun seen id => set_add id seen) ids seen)
  <-> In id seen \/ In id ids.
Proof.
  induction ids as [|x ids IH]; intros seen id; cbn [fold_left].
  - cbn. tauto.
  - rewrite IH, set_add_In_clusters. cbn. intuition.
Qed.

Lemma dict_set_add_lookup k x d :
  exists s, Groups.lookup Z.eqb k (dict_set_add k x d) = Some s /\ In x s.
Proof.
  induction d as [|[k' s] d IH]; cbn.
  - rewrite Z.eqb_refl. exists [x]. split; [reflexivity | left; reflexivity].
  - destruct (Z.eqb k k') eqn:E; cbn; rewrite E.
    + destruct (existsb (String.eqb x) s) eqn:Ex.
      * exists s. split; [reflexivity|].
        apply existsb_String_eqb_In, Ex.
      * exists (s ++ [x]). split; [reflexivity|].
        apply in_or_app. right. left. reflexivity.
    + exact IH.
Qed.

Lemma dict_set_add_keeps k x d k0 x0 :
  In x0 (Get.get (Groups.lookup Z.eqb k0 d) []) ->
  In x0 (Get.get (Groups.lookup Z.eqb k0 (dict_set_add k x d)) []).
Proof.
  induction d as [|[k' s] d IH]; cbn.
  - intros [].
  - destruct (Z.eqb k k') eqn:E; cbn.
    + destruct (Z.eqb k0 k'); [|auto]. cbn.
      destruct (existsb (String.eqb x) s); [auto|].
      intro H. apply in_or_app. left. exact H.
    + destruct (Z.eqb k0 k'); auto.
Qed.

End SelectorStateFacts.

(** X12. After [update_state] has recorded a candidate, that candidate
    offers neither a new face nor a new composition any more; the
    update forgets nothing that was seen and leaves the timestamp gap
    alone. *)
Theorem update_state_records
    (self : VarietySelector.t) (candidate : Candidate) :
  let self' := VarietySelector.update_state self candidate in
  VarietySelector.criterion_new_faces self' candidate = []
  /\ VarietySelector.criterion_composition self' candidate = []
  /\ VarietySelector.min_timestamp_gap self'
     = VarietySelector.min_timestamp_gap self
  /\ (forall id, In id (VarietySelector.seen_faces self) ->
                 In id (VarietySelector.seen_faces self'))
  /\ (forall k composition,
        In composition
           (Get.get (Groups.lookup Z.eqb k
                       (VarietySelector.seen_compositions self)) []) ->
        In composition
           (Get.get (Groups.lookup Z.eqb k
                       (VarietySelector.seen_compositions self')) [])).
Proof.
  cbv zeta. split; [|split; [|split; [reflexivity|split]]].
  - unfold VarietySelector.criterion_new_faces, VarietySelector.update_state.
    cbn [VarietySelector.seen_faces].
    assert (E : filter
                  (fun id =>
                     negb (existsb (Z.eqb id)
                             (fold_left
                                (fun seen id0 =>
                                   VarietySelector.set_add id0 seen)
                                (VarietySelector.get_face_clusters candidate)
                                (VarietySelector.seen_faces self))))
                  (VarietySelector.get_face_clusters candidate) = []).
    { set (clusters := VarietySelector.get_face_clusters candidate).
      assert (G : forall l, incl l clusters ->
                filter
                  (fun id =>
                     negb (existsb (Z.eqb id)
                             (fold_left
                                (fun seen id0 =>
                                   VarietySelector.set_add id0 seen)
                                clusters
                                (VarietySelector.seen_faces self)))) l = []).
      { induction l as [|x l IH]; intro Hi; [reflexivity|]. cbn.
        assert (Hx : existsb (Z.eqb x)
                       (fold_left
                          (fun seen id0 => VarietySelector.set_add id0 seen)
                          clusters (VarietySelector.seen_faces self)) = true).
        { apply existsb_Zeqb_In, seen_after_update. right.
          apply Hi. left. reflexivity. }
        rewrite Hx. cbn. apply IH. intros y Hy. apply Hi. right. exact Hy. }
      apply G, incl_refl. }
    rewrite E. reflexivity.
  - unfold VarietySelector.criterion_composition,
      VarietySelector.update_state.
    cbn [VarietySelector.seen_compositions].
    destruct (dict_set_add_lookup (Get.scene_index_of candidate)
                (VarietySelector.classify_composition candidate)
                (VarietySelector.seen_compositions self)) as (s & -> & Hin).
    cbn [Get.get].
    apply existsb_String_eqb_In in Hin. rewrite Hin. reflexivity.
  - intros id Hid. cbn. apply seen_after_update. left. exact Hid.
  - intros k composition Hin. cbn. apply dict_set_add_keeps, Hin.
Qed.

Section ShouldKeepConverse.
Import VarietySelector.

Lemma min_gap_upper_bound timestamp first others :
  forall t, In t (first :: others) ->
    min_gap timestamp first others <= Qabs (timestamp - t).
Proof.
  unfold min_gap.
  assert (G : forall l m,
            fold_left (fun m t => if Qltb (Qabs (timestamp - t)) m
                                  then Qabs (timestamp - t) else m) l m <= m
            /\ forall t, In t l ->
                 fold_left (fun m t => if Qltb (Qabs (timestamp - t)) m
                                       then Qabs (timestamp - t) else m) l m
                 <= Qabs (timestamp - t)).
  { induction l as [|x l IH]; intro m; cbn [fold_left].
    - split; [apply Qle_refl | intros t []].
    - destruct (Qltb (Qabs (timestamp - x)) m) eqn:E.
      + apply Qltb_lt in E. destruct (IH (Qabs (timestamp - x))) as [H1 H2].
        split.
        * apply Qle_trans with (Qabs (timestamp - x));
            [exact H1 | apply Qlt_le_weak, E].
        * intros t [<- | Ht]; [exact H1 | apply H2, Ht].
      + apply Qltb_ge in E. destruct (IH m) as [H1 H2]. split; [exact H1|].
        intros t [<- | Ht]; [|apply H2, Ht].
        apply Qle_trans with m; assumption. }
  destruct (G others (Qabs (timestamp - first))) as [H1 H2].
  intros t [<- | Ht]; [exact H1 | apply H2, Ht].
Qed.

Lemma criterion_new_faces_inv self candidate :
  criterion_new_faces self candidate <> [] ->
  exists face_key id,
    In (face_key, id) (Get.get (cluster_labels candidate) [])
    /\ (0 <= id)%Z /\ ~ In id (seen_faces self).
Proof.
  unfold criterion_new_faces. intro H.
  destruct (filter _ (get_face_clusters candidate)) as [|id new] eqn:E;
    [congruence|].
  assert (Hin : In id (filter
                         (fun i => negb (existsb (Z.eqb i) (seen_faces self)))
                         (get_face_clusters candidate))).
  { rewrite E. left. reflexivity. }
  apply filter_In in Hin. destruct Hin as [Hc Hn].
  apply get_face_clusters_In in Hc. destruct Hc as (k & Hk & Hid).
  exists k, id. split; [exact Hk|]. split; [exact Hid|].
  intro Hs. apply existsb_Zeqb_In in Hs. rewrite Hs in Hn. discriminate.
Qed.

Lemma criterion_broll_inv candidate all_selected :
  criterion_broll candidate all_selected <> [] ->
  Get.get (is_broll candidate) false = true
  /\ tag_set (Get.tags_of candidate) <> []
  /\ forall s, In s all_selected -> Get.get (is_broll s) false = true ->
       overlap (tag_set (Get.tags_of candidate)) (tag_set (Get.tags_of s))
       <= 5 # 10.
Proof.
  unfold criterion_broll.
  destruct (Get.get (is_broll candidate) false); [|congruence].
  destruct (similar_broll _ all_selected) eqn:Es; [cbn; congruence|].
  destruct (tag_set (Get.tags_of candidate)) as [|t ts] eqn:Et;
    [cbn; congruence|].
  intros _. split; [reflexivity|]. split; [discriminate|].
  intros s Hs Hb. unfold similar_broll in Es.
  destruct (Qgtb (overlap (t :: ts) (tag_set (Get.tags_of s))) (5 # 10))
    eqn:Eo.
  - assert (existsb
              (fun selected =>
                 Get.get (is_broll selected) false
                 && Qgtb (overlap (t :: ts) (tag_set (Get.tags_of selected)))
                         (5 # 10)) all_selected = true).
    { apply existsb_exists. exists s. split; [exact Hs|].
      rewrite Hb, Eo. reflexivity. }
    congruence.
  - apply Qltb_ge, Eo.
Qed.

End ShouldKeepConverse.

(** X13. [should_keep] answers true only for a candidate that is at least
    [min_timestamp_gap] away from every selected candidate of its scene
    and that meets one of the seven criteria: a face cluster not seen
    before, a composition new for the scene, a maximum smile above 0.6,
    an audio peak, applause or music with intensity above 0.5, a
    sharpness above 500, or b-roll with a non-empty tag set that
    overlaps no selected b-roll by more than 50%. *)
Theorem should_keep_true_only_if
    (self : VarietySelector.t) (candidate : Candidate)
    (all_selected : list Candidate) :
  fst (VarietySelector.should_keep self candidate all_selected) = true ->
  (forall s, In s all_selected ->
     scene_index s = Some (Get.scene_index_of candidate) ->
     VarietySelector.min_timestamp_gap self
     <= Qabs (Get.timestamp_of candidate - Get.timestamp_of s))
  /\ ((exists face_key id,
         In (face_key, id) (Get.get (cluster_labels candidate) [])
         /\ (0 <= id)%Z /\ ~ In id (VarietySelector.seen_faces self))
      \/ ~ In (VarietySelector.classify_composition candidate)
              (Get.get (Groups.lookup Z.eqb (Get.scene_index_of candidate)
                          (VarietySelector.seen_compositions self)) [])
      \/ 6 # 10 < VarietySelector.max_smile_of candidate
      \/ Get.get (is_audio_peak candidate) false = true
      \/ ((audio_type candidate = Some "applause"%string
           \/ audio_type candidate = Some "music"%string)
          /\ 5 # 10 < Get.get (audio_intensity candidate) 0)
      \/ 500 < Get.get (sharpness_score candidate) 0
      \/ (Get.get (is_broll candidate) false = true
          /\ VarietySelector.tag_set (Get.tags_of candidate) <> []
          /\ forall s, In s all_selected ->
               Get.get (is_broll s) false = true ->
               VarietySelector.overlap
                 (VarietySelector.tag_set (Get.tags_of candidate))
                 (VarietySelector.tag_set (Get.tags_of s)) <= 5 # 10)).
Proof.
  unfold VarietySelector.should_keep.
  set (reasons := (_ ++ _)%list).
  set (same := map Get.timestamp_of _).
  intro Hkeep.
  assert (Hgap : forall t, In t same ->
            VarietySelector.min_timestamp_gap self
            <= Qabs (Get.timestamp_of candidate - t)).
  { destruct same as [|first others] eqn:Es; [intros t []|].
    destruct (Qltb (VarietySelector.min_gap (Get.timestamp_of candidate)
                      first others)
                   (VarietySelector.min_timestamp_gap self)) eqn:E;
      [cbn in Hkeep; discriminate|].
    apply Qltb_ge in E. intros t Ht.
    apply Qle_trans with (VarietySelector.min_gap
                            (Get.timestamp_of candidate) first others);
      [exact E | apply min_gap_upper_bound, Ht]. }
  assert (Hr : reasons <> []).
  { destruct same as [|first others].
    - cbn in Hkeep. destruct reasons; [discriminate | discriminate].
    - destruct (Qltb _ _); [cbn in Hkeep; discriminate|].
      cbn in Hkeep. destruct reasons; discriminate. }
  split.
  - intros s Hs Hsc. apply Hgap. unfold same. apply in_map.
    apply filter_In. split; [exact Hs|]. rewrite Hsc. cbn.
    apply Z.eqb_refl.
  - clear Hkeep Hgap. unfold reasons in Hr.
    destruct (VarietySelector.criterion_new_faces self candidate) eqn:E1.
    2:{ left. apply criterion_new_faces_inv. rewrite E1. discriminate. }
    right.
    destruct (VarietySelector.criterion_composition self candidate) eqn:E2.
    2:{ left. unfold VarietySelector.criterion_composition in E2.
        destruct (existsb _ _) eqn:Ex; [discriminate|].
        intro Hin. apply existsb_String_eqb_In in Hin. congruence. }
    right.
    destruct (VarietySelector.criterion_smile candidate) eqn:E3.
    2:{ left. unfold VarietySelector.criterion_smile in E3.
        destruct (Qgtb _ _) eqn:Ex; [|discriminate].
        apply Qgtb_gt, Ex. }
    right.
    destruct (VarietySelector.criterion_audio_peak candidate) eqn:E4.
    2:{ left. unfold VarietySelector.criterion_audio_peak in E4.
        destruct (Get.get (is_audio_peak candidate) false);
          [reflexivity | discriminate]. }
    right.
    destruct (VarietySelector.criterion_audio_moment candidate) eqn:E5.
    2:{ left. unfold VarietySelector.criterion_audio_moment in E5.
        destruct (audio_type candidate) as [ty|]; [|discriminate].
        destruct (String.eqb ty "applause" || String.eqb ty "music")
          eqn:Et; [|discriminate].
        destruct (Qgtb _ _) eqn:Ex; [|discriminate].
        apply Qgtb_gt in Ex. split; [|exact Ex].
        apply orb_true_iff in Et.
        destruct Et as [Et | Et]; apply String.eqb_eq in Et; subst; auto. }
    right.
    destruct (VarietySelector.criterion_sharpness candidate) eqn:E6.
    2:{ left. unfold VarietySelector.criterion_sharpness in E6.
        destruct (Qgtb _ _) eqn:Ex; [|discriminate].
        apply Qgtb_gt, Ex. }
    right. apply criterion_broll_inv. cbn in Hr. exact Hr.
Qed.

Lemma should_keep_true_only_if_witness :
  VarietySelector.min_timestamp_gap VarietySelector.init
  <= Qabs (Get.timestamp_of
             (Sample.with_audio_peak (Sample.plain 2 0 (1 # 2) 100 "broll"))
           - Get.timestamp_of (Sample.plain 1 0 5 100 "broll")).
Proof.
  destruct (should_keep_true_only_if VarietySelector.init
              (Sample.with_audio_peak (Sample.plain 2 0 (1 # 2) 100 "broll"))
              [ Sample.plain 1 0 5 100 "broll" ]) as [H _].
  - vm_compute. reflexivity.
  - apply (H (Sample.plain 1 0 5 100 "broll")).
    + left. reflexivity.
    + reflexivity.
Defined.

(* ------------------------------------------------------------------ *)
(** ** VarietySelector: the quality score *)




(* ------------------------------------------------------------------ *)
(** ** Grouping keeps the order inside each group *)

Section GroupLookup.
Context {K V : Type} (eqb : K -> K -> bool).
Hypothesis eqb_eq : forall a b, eqb a b = true <-> a = b.

Lemma eqb_sym a b : eqb a b = eqb b a.
Proof.
  destruct (eqb a b) eqn:E1, (eqb b a) eqn:E2; try reflexivity.
  - apply eqb_eq in E1. subst. rewrite (proj2 (eqb_eq b b) eq_refl) in E2.
    discriminate.
  - apply eqb_eq in E2. subst. rewrite (proj2 (eqb_eq a a) eq_refl) in E1.
    discriminate.
Qed.

Lemma lookup_append k k' (v : V) d :
  Groups.lookup eqb k (Groups.append eqb k' v d)
  = extend_group (Groups.lookup eqb k d) (if eqb k' k then [v] else []).
Proof.
  induction d as [|[k0 vs] d IH]; cbn.
  - rewrite (eqb_sym k k'). destruct (eqb k' k); reflexivity.
  - destruct (eqb k' k0) eqn:E0; cbn.
    + apply eqb_eq in E0. subst k0.
      rewrite (eqb_sym k k'). destruct (eqb k' k); cbn.
      * reflexivity.
      * destruct (Groups.lookup eqb k d); cbn; rewrite ?app_nil_r;
          reflexivity.
    + destruct (eqb k k0) eqn:E1.
      * apply eqb_eq in E1. subst k0. rewrite E0. cbn.
        rewrite app_nil_r. reflexivity.
      * exact IH.
Qed.

Lemma extend_group_app (g : option (list V)) a b :
  extend_group (extend_group g a) b = extend_group g (a ++ b).
Proof.
  destruct g as [vs|]; cbn.
  - rewrite app_assoc. reflexivity.
  - destruct a; cbn; reflexivity.
Qed.

(** The group of a key holds the values of that key in the order of the
    grouped list; a key without values has no group. *)
Lemma group_by_lookup (key : V -> K) l k :
  Groups.lookup eqb k (Groups.group_by eqb key l)
  = match filter (fun v => eqb (key v) k) l with
    | [] => None
    | vs => Some vs
    end.
Proof.
  unfold Groups.group_by.
  assert (G : forall d,
            Groups.lookup eqb k
              (fold_left (fun d v => Groups.append eqb (key v) v d) l d)
            = extend_group (Groups.lookup eqb k d)
                           (filter (fun v => eqb (key v) k) l)).
  { induction l as [|x l IH]; intro d; cbn [fold_left filter].
    - destruct (Groups.lookup eqb k d); cbn; rewrite ?app_nil_r; reflexivity.
    - rewrite IH, lookup_append, extend_group_app.
      destruct (eqb (key x) k); reflexivity. }
  rewrite G. cbn. destruct (filter _ l); reflexivity.
Qed.

Lemma lookup_In_key k (d : list (K * list V)) vs :
  Groups.lookup eqb k d = Some vs -> In (k, vs) d.
Proof.
  induction d as [|[k' ws] d IH]; cbn; [discriminate|].
  destruct (eqb k k') eqn:E.
  - intro H. injection H as <-. apply eqb_eq in E. subst. left. reflexivity.
  - intro H. right. apply IH, H.
Qed.

Lemma lookup_None_key k (d : list (K * list V)) :
  Groups.lookup eqb k d = None -> ~ In k (map fst d).
Proof.
  induction d as [|[k' ws] d IH]; cbn; [tauto|].
  destruct (eqb k k') eqn:E; [discriminate|].
  intros H [Hk | Hk].
  - subst. rewrite (proj2 (eqb_eq k k) eq_refl) in E. discriminate.
  - apply (IH H Hk).
Qed.

End GroupLookup.

(* ------------------------------------------------------------------ *)
(** ** VarietySelector: scene by scene *)

Lemma select_scene_nil self min_per_scene max_per_scene :
  VarietySelector.select_scene self min_per_scene max_per_scene [] = [].
Proof.
  destruct (select_scene_inv
              (fun p => VarietySelector.scene_selected p = [])
              self min_per_scene max_per_scene [])
    as (p & -> & Hp).
  - reflexivity.
  - intros c p r [].
  - intros c p r [].
  - exact Hp.
Qed.

Lemma in_scene_all k l :
  (forall c, In c l -> Get.scene_index_of c = k) -> in_scene k l = l.
Proof.
  intro H. unfold in_scene. induction l as [|c l IH]; cbn; [reflexivity|].
  rewrite (proj2 (Z.eqb_eq _ _) (H c (or_introl eq_refl))).
  f_equal. apply IH. intros c' Hc'. apply H. right. exact Hc'.
Qed.

Lemma flat_map_in_scene self min_per_scene max_per_scene d k :
  NoDup (map fst d) -> keyed Get.scene_index_of d ->
  in_scene k (flat_map
                (VarietySelector.per_scene self min_per_scene max_per_scene)
                d)
  = match Groups.lookup Z.eqb k d with
    | Some vs =>
        VarietySelector.select_scene self min_per_scene max_per_scene vs
    | None => []
    end.
Proof.
  induction d as [|[k' vs] d IH]; intros Hnd Hk; cbn [flat_map].
  - reflexivity.
  - inversion Hnd as [|? ? Hfresh Hnd']; subst.
    unfold in_scene. rewrite filter_app.
    fold (in_scene k (VarietySelector.per_scene self min_per_scene
                        max_per_scene (k', vs))).
    fold (in_scene k (flat_map (VarietySelector.per_scene self min_per_scene
                                  max_per_scene) d)).
    assert (Hvs : forall c,
              In c (VarietySelector.per_scene self min_per_scene
                      max_per_scene (k', vs)) ->
              Get.scene_index_of c = k').
    { apply (select_scene_scene_index self min_per_scene max_per_scene vs k').
      intros c0 H0. apply (Hk k' vs c0 (or_introl eq_refl) H0). }
    cbn [Groups.lookup]. destruct (Z.eqb k k') eqn:E.
    + apply Z.eqb_eq in E. subst k'.
      rewrite (in_scene_all k _ Hvs).
      rewrite (in_scene_none k (flat_map _ d)).
      * rewrite app_nil_r. reflexivity.
      * intros c Hc Ec. apply Hfresh.
        apply (per_scene_index self min_per_scene max_per_scene d k c
                 (keyed_tail _ _ _ Hk) Hc Ec).
    + rewrite (in_scene_none k (VarietySelector.per_scene self min_per_scene
                                  max_per_scene (k', vs))).
      * cbn [app]. apply IH; [exact Hnd' | apply (keyed_tail _ _ _ Hk)].
      * intros c Hc Ec. apply Hvs in Hc. apply Z.eqb_neq in E. congruence.
Qed.

Lemma in_scene_map_pop k l :
  in_scene k (map (set_quality_score None) l)
  = map (set_quality_score None) (in_scene k l).
Proof.
  unfold in_scene. induction l as [|c l IHl]; [reflexivity|].
  cbn [map filter].
  change (Get.scene_index_of (set_quality_score None c))
    with (Get.scene_index_of c).
  destruct (Z.eqb (Get.scene_index_of c) k); cbn [map]; rewrite IHl;
    reflexivity.
Qed.

Lemma in_scene_select self candidates min_per_scene max_per_scene k :
  in_scene k (VarietySelector.select self candidates
                min_per_scene max_per_scene)
  = map (set_quality_score None)
        (VarietySelector.select_scene self min_per_scene max_per_scene
           (in_scene k candidates)).
Proof.
  unfold VarietySelector.select. rewrite in_scene_map_pop. f_equal.
  destruct (group_by_facts Z.eqb Z.eqb_eq Get.scene_index_of candidates)
    as (Hnd & Hk & _).
  rewrite (flat_map_in_scene self min_per_scene max_per_scene _ k Hnd Hk).
  rewrite (group_by_lookup Z.eqb Z.eqb_eq Get.scene_index_of candidates k).
  fold (in_scene k candidates).
  destruct (in_scene k candidates); [|reflexivity].
  symmetry. apply select_scene_nil.
Qed.

(** X15. Scenes are selected independently: the returned candidates of a
    scene are what the selection of one scene returns on the candidates
    of that scene alone, in their input order, with the temporary score
    removed. *)
Theorem select_scene_by_scene
    (self : VarietySelector.t) (candidates : list Candidate)
    (min_per_scene max_per_scene : Z) (k : Z) :
  in_scene k (VarietySelector.select self candidates
                min_per_scene max_per_scene)
  = map (set_quality_score None)
        (VarietySelector.select_scene self min_per_scene max_per_scene
           (in_scene k candidates)).
Proof. apply in_scene_select. Qed.


(* ------------------------------------------------------------------ *)
(** ** VarietySelector: what a scene's selection is made of *)

Lemma subsequence_nil_l {A} (l : list A) : subsequence [] l.
Proof. induction l; constructor; assumption. Qed.

Lemma subsequence_In {A} (l1 l2 : list A) :
  subsequence l1 l2 -> forall x, In x l1 -> In x l2.
Proof.
  induction 1 as [|l1 y l2 Hs IH|l1 y l2 Hs IH]; intros x Hx.
  - destruct Hx.
  - right. apply IH, Hx.
  - destruct Hx as [<- | Hx]; [left; reflexivity | right; apply IH, Hx].
Qed.

Lemma subsequence_NoDup {A} (l1 l2 : list A) :
  subsequence l1 l2 -> NoDup l2 -> NoDup l1.
Proof.
  induction 1 as [|l1 y l2 Hs IH|l1 y l2 Hs IH]; intro Hnd.
  - constructor.
  - inversion Hnd; subst. auto.
  - inversion Hnd as [|? ? Hy Hnd']; subst. constructor; [|auto].
    intro Hin. apply Hy. apply (subsequence_In _ _ Hs _ Hin).
Qed.

Section SceneStructure.
Import VarietySelector.

Variable gap : Q.
Variable max_per_scene : Z.
Variable by_category : list (string * list Candidate).

Lemma pick_from_category_result category candidates p :
  pick_from_category gap max_per_scene category candidates p = p
  \/ exists c,
       In c candidates
       /\ pick_from_category gap max_per_scene category candidates p
          = accept [best_of category;
                    score (Get.get (quality_score c) 0)] c p.
Proof.
  induction candidates as [|c rest IH]; cbn [pick_from_category].
  - left. reflexivity.
  - destruct (full p max_per_scene); [left; reflexivity|].
    destruct (too_close gap (Get.timestamp_of c) (selected_timestamps p)).
    + destruct IH as [IH | (c' & Hc' & IH)]; [left; exact IH|].
      right. exists c'. split; [right; exact Hc' | exact IH].
    + right. exists c. split; [left; reflexivity | reflexivity].
Qed.

Lemma pick_by_category_picks priority : forall p,
  exists picks cats,
    scene_selected (pick_by_category gap max_per_scene priority
                      by_category p)
    = scene_selected p ++ picks
    /\ subsequence cats priority
    /\ Forall2 (picked_for by_category) picks cats.
Proof.
  induction priority as [|category rest IH]; intro p;
    cbn [pick_by_category].
  - exists [], []. rewrite app_nil_r. repeat split; constructor.
  - destruct (full p max_per_scene).
    { exists [], []. rewrite app_nil_r.
      split; [reflexivity|]. split; [apply subsequence_nil_l | constructor]. }
    destruct (Groups.lookup String.eqb category by_category) as [vs|] eqn:El.
    + destruct (pick_from_category_result category vs p)
        as [-> | (c & Hc & ->)].
      * destruct (IH p) as (picks & cats & E & Hs & Hf).
        exists picks, cats. split; [exact E|].
        split; [constructor; exact Hs | exact Hf].
      * destruct (IH (accept [best_of category;
                              score (Get.get (quality_score c) 0)] c p))
          as (picks & cats & E & Hs & Hf).
        exists (set_selection_reasons
                  [best_of category; score (Get.get (quality_score c) 0)] c
                :: picks), (category :: cats).
        split; [|split].
        -- rewrite E. cbn. rewrite <- app_assoc. reflexivity.
        -- apply subsequence_take. exact Hs.
        -- constructor; [|exact Hf]. exists c, vs. auto.
    + destruct (IH p) as (picks & cats & E & Hs & Hf).
      exists picks, cats. split; [exact E|].
      split; [constructor; exact Hs | exact Hf].
Qed.

End SceneStructure.

(** What the minimum fill adds, with where it comes from: each added
    candidate is a candidate of the pool that is not among the selected
    ones, marked [scene_coverage]. *)
Lemma fill_minimum_origin gap min_per_scene pool :
  forall p,
  exists added,
    VarietySelector.scene_selected
      (VarietySelector.fill_minimum gap min_per_scene pool p)
    = VarietySelector.scene_selected p ++ added
    /\ Forall (fun x => exists c,
                 In c pool /\ x = set_selection_reasons [scene_coverage] c)
              added
    /\ (NoDup (map obj_id (VarietySelector.scene_selected p)) ->
        NoDup (map obj_id (VarietySelector.scene_selected p ++ added))).
Proof.
  induction pool as [|c rest IH]; intro p;
    cbn [VarietySelector.fill_minimum].
  - exists []. rewrite app_nil_r. repeat split; auto.
  - assert (Hlift : forall added,
              Forall (fun x => exists c0,
                        In c0 rest
                        /\ x = set_selection_reasons [scene_coverage] c0)
                     added ->
              Forall (fun x => exists c0,
                        In c0 (c :: rest)
                        /\ x = set_selection_reasons [scene_coverage] c0)
                     added).
    { intros added Ha. rewrite Forall_forall in *.
      intros x Hx. destruct (Ha x Hx) as (c0 & H0 & Ex).
      exists c0. split; [right; exact H0 | exact Ex]. }
    destruct (VarietySelector.full p min_per_scene).
    { exists []. rewrite app_nil_r. repeat split; auto. }
    destruct (DictEq.candidate_in c (VarietySelector.scene_selected p))
      eqn:Ein.
    { destruct (IH p) as (added & E & Ha & Hn).
      exists added. split; [exact E|]. split; [apply Hlift, Ha | exact Hn]. }
    destruct (VarietySelector.too_close gap (Get.timestamp_of c)
                (VarietySelector.selected_timestamps p)).
    { destruct (IH p) as (added & E & Ha & Hn).
      exists added. split; [exact E|]. split; [apply Hlift, Ha | exact Hn]. }
    destruct (IH (VarietySelector.accept [scene_coverage] c p))
      as (added & E & Ha & Hn).
    exists (set_selection_reasons [scene_coverage] c :: added).
    split; [|split].
    + rewrite E. cbn. rewrite <- app_assoc. reflexivity.
    + constructor; [|apply Hlift, Ha].
      exists c. split; [left; reflexivity | reflexivity].
    + intro Hnd. cbn [VarietySelector.accept
                        VarietySelector.scene_selected] in Hn.
      rewrite <- app_assoc in Hn. apply Hn.
      rewrite map_app. cbn [map]. apply NoDup_app.
      * exact Hnd.
      * constructor; [intros [] | constructor].
      * intros id Hid [<- | []].
        apply in_map_iff in Hid. destruct Hid as (s & Hs & Hin).
        unfold DictEq.candidate_in in Ein.
        assert (Hex : existsb
                        (fun s0 => Nat.eqb (obj_id c) (obj_id s0)
                                   || DictEq.candidate_eqb c s0)
                        (VarietySelector.scene_selected p) = true).
        { apply existsb_exists. exists s. split; [exact Hin|].
          cbn in Hs. rewrite Hs, Nat.eqb_refl. reflexivity. }
        congruence.
Qed.

Section SceneParts.
Import VarietySelector.

Variable self : t.
Variables min_per_scene max_per_scene : Z.
Variable cs : list Candidate.

Local Abbreviation sc := (scored_candidates cs).
Local Abbreviation by_cat :=
  (Groups.group_by String.eqb Get.category_of (scored_candidates cs)).
Local Abbreviation empty :=
  {| scene_selected := []; selected_timestamps := [] |}.
Local Abbreviation p1 :=
  (pick_by_category (min_timestamp_gap self) max_per_scene
     category_priority by_cat empty).

Lemma select_scene_unfold :
  select_scene self min_per_scene max_per_scene cs
  = scene_selected
      (if negb (full p1 min_per_scene)
       then fill_minimum (min_timestamp_gap self) min_per_scene sc p1
       else p1).
Proof. reflexivity. Qed.

Lemma by_cat_lookup category vs c :
  Groups.lookup String.eqb category by_cat = Some vs -> In c vs ->
  exists c0, In c0 cs /\ c = scored c0 /\ Get.category_of c0 = category.
Proof.
  rewrite (group_by_lookup String.eqb String.eqb_eq). intros E Hc.
  assert (Hin : In c (filter (fun v => String.eqb (Get.category_of v)
                                         category) sc)).
  { destruct (filter _ sc); [discriminate|]. injection E as <-. exact Hc. }
  apply filter_In in Hin. destruct Hin as [Hsc Hcat].
  apply String.eqb_eq in Hcat.
  destruct (scored_candidates_origin cs c Hsc) as (c0 & H0 & ->).
  exists c0. split; [exact H0|]. split; [reflexivity | exact Hcat].
Qed.

Lemma p1_coherent :
  selected_timestamps p1 = map Get.timestamp_of (scene_selected p1).
Proof.
  apply (pick_by_category_inv (min_timestamp_gap self)
           (fun p => selected_timestamps p
                     = map Get.timestamp_of (scene_selected p))
           max_per_scene category_priority by_cat sc).
  - apply (group_by_facts String.eqb String.eqb_eq).
  - intros c p r _ Hp _ _. cbn. rewrite map_app, Hp. reflexivity.
  - reflexivity.
Qed.

(** The parts of a scene's selection. *)
Lemma select_scene_parts :
  exists picks cats added,
    select_scene self min_per_scene max_per_scene cs = picks ++ added
    /\ scene_selected p1 = picks
    /\ subsequence cats category_priority
    /\ Forall2 (fun x category =>
                  exists c, In c cs /\ Get.category_of c = category
                    /\ x = set_selection_reasons
                             [best_of category;
                              score (compute_quality_score c)] (scored c))
               picks cats
    /\ Forall (fun x => exists c,
                 In c cs
                 /\ x = set_selection_reasons [scene_coverage] (scored c))
              added
    /\ (added <> [] -> (Z.of_nat (List.length picks) < min_per_scene)%Z)
    /\ (NoDup (map obj_id picks) -> NoDup (map obj_id (picks ++ added))).
Proof.
  destruct (pick_by_category_picks (min_timestamp_gap self) max_per_scene
              by_cat category_priority empty)
    as (picks & cats & E1 & Hs & Hf).
  cbn [scene_selected app] in E1.
  assert (Hf' : Forall2
                  (fun x category =>
                     exists c, In c cs /\ Get.category_of c = category
                       /\ x = set_selection_reasons
                                [best_of category;
                                 score (compute_quality_score c)] (scored c))
                  picks cats).
  { clear E1 Hs. induction Hf as [|x category picks cats Hx Hf IH];
      constructor; [|exact IH].
    destruct Hx as (c & vs & El & Hc & ->).
    destruct (by_cat_lookup category vs c El Hc) as (c0 & H0 & -> & Hcat).
    exists c0. split; [exact H0|]. split; [exact Hcat | reflexivity]. }
  rewrite select_scene_unfold.
  destruct (negb (full p1 min_per_scene)) eqn:Efull.
  - destruct (fill_minimum_origin (min_timestamp_gap self) min_per_scene
                sc p1) as (added & E2 & Ha & Hn).
    exists picks, cats, added. rewrite E2, E1.
    split; [reflexivity|]. split; [reflexivity|].
    split; [exact Hs|]. split; [exact Hf'|]. split; [|split].
    + rewrite Forall_forall in *. intros x Hx.
      destruct (Ha x Hx) as (c & Hc & ->).
      destruct (scored_candidates_origin cs c Hc) as (c0 & H0 & ->).
      exists c0. split; [exact H0 | reflexivity].
    + intros _. apply negb_true_iff in Efull. unfold full in Efull.
      apply Z.leb_gt in Efull. rewrite E1 in Efull. exact Efull.
    + rewrite E1 in Hn. exact Hn.
  - exists picks, cats, []. rewrite E1, app_nil_r.
    split; [reflexivity|]. split; [reflexivity|].
    split; [exact Hs|]. split; [exact Hf'|]. split; [constructor|].
    split; [congruence | auto].
Qed.

End SceneParts.

(** X16. The selection of one scene consists of the picks of the category
    pass followed by the picks of the minimum fill.  The categories of
    the category picks follow the priority order people_face,
    people_roll, detail, broll with at most one pick per category; each
    is an input candidate of the scene with the reasons
    [best_<category>] and its score.  Each fill pick is an input
    candidate of the scene with the reason [scene_coverage], and there
    are fill picks only when the category pass found fewer than
    [min_per_scene]. *)
Theorem select_scene_structure
    (self : VarietySelector.t) (min_per_scene max_per_scene : Z)
    (scene_candidates : list Candidate) :
  exists picks added,
    VarietySelector.select_scene self min_per_scene max_per_scene
      scene_candidates = picks ++ added
    /\ subsequence (map Get.category_of picks)
                   VarietySelector.category_priority
    /\ Forall (fun x => exists c,
                 In c scene_candidates
                 /\ x = set_selection_reasons
                          [best_of (Get.category_of c);
                           score (VarietySelector.compute_quality_score c)]
                          (scored c))
              picks
    /\ Forall (fun x => exists c,
                 In c scene_candidates
                 /\ x = set_selection_reasons [scene_coverage] (scored c))
              added
    /\ (added <> [] -> (Z.of_nat (List.length picks) < min_per_scene)%Z).
Proof.
  destruct (select_scene_parts self min_per_scene max_per_scene
              scene_candidates)
    as (picks & cats & added & E & _ & Hs & Hf & Ha & Hlt & _).
  exists picks, added. split; [exact E|].
  assert (Hcats : map Get.category_of picks = cats).
  { clear -Hf. induction Hf as [|x category picks cats Hx Hf IH];
      [reflexivity|].
    cbn. rewrite IH. destruct Hx as (c & _ & Hc & ->).
    cbn. f_equal. exact Hc. }
  split; [rewrite Hcats; exact Hs|]. split; [|split; assumption].
  clear -Hf. induction Hf as [|x category picks cats Hx Hf IH];
    constructor; [|exact IH].
  destruct Hx as (c & Hc & <- & ->). exists c. split; [exact Hc | reflexivity].
Qed.

(* ------------------------------------------------------------------ *)
(** ** VarietySelector: no candidate twice, every scene covered *)

Lemma NoDup_map_same {A B} (f : A -> B) l a b :
  NoDup (map f l) -> In a l -> In b l -> f a = f b -> a = b.
Proof.
  induction l as [|x l IH]; intros Hnd Ha Hb E; [destruct Ha|].
  cbn in Hnd. inversion Hnd as [|? ? Hx Hnd']; subst.
  destruct Ha as [-> | Ha], Hb as [-> | Hb].
  - reflexivity.
  - exfalso. apply Hx. rewrite E. apply in_map, Hb.
  - exfalso. apply Hx. rewrite <- E. apply in_map, Ha.
  - apply IH; assumption.
Qed.

Lemma Forall2_In_l {A B} (P : A -> B -> Prop) l1 l2 :
  Forall2 P l1 l2 -> forall x, In x l1 -> exists y, In y l2 /\ P x y.
Proof.
  induction 1 as [|a b l1 l2 Hab H IH]; intros x Hx; [destruct Hx|].
  destruct Hx as [<- | Hx].
  - exists b. split; [left; reflexivity | exact Hab].
  - destruct (IH x Hx) as (y & Hy & Hp). exists y. split; [right|]; assumption.
Qed.

Lemma select_scene_ids self min_per_scene max_per_scene cs :
  (forall x, In x (VarietySelector.select_scene self min_per_scene
                     max_per_scene cs) ->
     exists c, In c cs /\ obj_id x = obj_id c)
  /\ (NoDup (map obj_id cs) ->
      NoDup (map obj_id (VarietySelector.select_scene self min_per_scene
                           max_per_scene cs))).
Proof.
  destruct (select_scene_parts self min_per_scene max_per_scene cs)
    as (picks & cats & added & E & _ & Hs & Hf & Ha & _ & Hn).
  rewrite E. split.
  - intros x Hx. apply in_app_or in Hx. destruct Hx as [Hx | Hx].
    + clear -Hf Hx. induction Hf as [|y category picks cats Hy Hf IH];
        [destruct Hx|].
      destruct Hx as [<- | Hx]; [|apply IH, Hx].
      destruct Hy as (c & Hc & _ & ->). exists c. split; [exact Hc|reflexivity].
    + rewrite Forall_forall in Ha. destruct (Ha x Hx) as (c & Hc & ->).
      exists c. split; [exact Hc | reflexivity].
  - intro Hnd. apply Hn.
    assert (Hcats : NoDup cats).
    { apply (subsequence_NoDup _ _ Hs). repeat constructor; cbn;
        intuition discriminate. }
    clear -Hf Hcats Hnd.
    induction Hf as [|x category picks cats Hx Hf IH]; [constructor|].
    inversion Hcats as [|? ? Hfresh Hcats']; subst.
    cbn. constructor; [|apply IH, Hcats'].
    intro Hin. apply in_map_iff in Hin. destruct Hin as (y & Ey & Hy).
    apply Hfresh.
    destruct Hx as (c & Hc & Hcat & ->).
    destruct (Forall2_In_l _ _ _ Hf y Hy) as (category' & Hin' & Hz).
    destruct Hz as (c' & Hc' & Hcat' & ->). cbn in Ey.
    rewrite (NoDup_map_same obj_id cs c' c Hnd Hc' Hc Ey) in Hcat'.
    rewrite <- Hcat, Hcat'. exact Hin'.
Qed.

Lemma NoDup_map_filter {A B} (f : A -> B) (keep : A -> bool) l :
  NoDup (map f l) -> NoDup (map f (filter keep l)).
Proof.
  induction l as [|x l IH]; cbn; intro H; [constructor|].
  inversion H as [|? ? Hx Hl]; subst.
  destruct (keep x); cbn; [|apply IH, Hl].
  constructor; [|apply IH, Hl].
  intro Hin. apply Hx. apply in_map_iff in Hin.
  destruct Hin as (y & Ey & Hy). apply filter_In in Hy.
  rewrite <- Ey. apply in_map, Hy.
Qed.

Lemma In_lookup {K V} (eqb : K -> K -> bool)
    (eqb_eq : forall a b, eqb a b = true <-> a = b)
    k (vs : list V) d :
  NoDup (map fst d) -> In (k, vs) d -> Groups.lookup eqb k d = Some vs.
Proof.
  induction d as [|[k' ws] d IH]; cbn; intros Hnd Hin; [destruct Hin|].
  inversion Hnd as [|? ? Hfresh Hnd']; subst.
  destruct Hin as [E | Hin].
  - injection E as -> ->. rewrite (proj2 (eqb_eq k k) eq_refl). reflexivity.
  - destruct (eqb k k') eqn:E.
    + apply eqb_eq in E. subst. exfalso. apply Hfresh.
      apply in_map_iff. exists (k', vs). split; [reflexivity | exact Hin].
    + apply IH; assumption.
Qed.

(** X17. When the input candidates are distinct objects, no candidate is
    returned twice, and every returned candidate is one of the input. *)
Theorem select_no_duplicates
    (self : VarietySelector.t) (candidates : list Candidate)
    (min_per_scene max_per_scene : Z) :
  NoDup (map obj_id candidates) ->
  NoDup (map obj_id (VarietySelector.select self candidates
                       min_per_scene max_per_scene))
  /\ forall x, In x (VarietySelector.select self candidates
                       min_per_scene max_per_scene) ->
       exists c, In c candidates /\ obj_id x = obj_id c
                 /\ Get.scene_index_of x = Get.scene_index_of c.
Proof.
  intro Hnd. unfold VarietySelector.select.
  destruct (group_by_facts Z.eqb Z.eqb_eq Get.scene_index_of candidates)
    as (Hkeys & Hkeyed & Hin).
  set (d := Groups.group_by Z.eqb Get.scene_index_of candidates) in *.
  assert (Hgroup : forall k vs, In (k, vs) d -> NoDup (map obj_id vs)).
  { intros k vs Hkv.
    pose proof (In_lookup Z.eqb Z.eqb_eq k vs d Hkeys Hkv) as El.
    unfold d in El.
    rewrite (group_by_lookup Z.eqb Z.eqb_eq) in El.
    destruct (filter _ candidates) eqn:Ef; [discriminate|].
    injection El as <-. rewrite <- Ef. apply NoDup_map_filter, Hnd. }
  assert (Hfrom : forall x,
            In x (flat_map (VarietySelector.per_scene self min_per_scene
                              max_per_scene) d) ->
            exists k vs c, In (k, vs) d /\ In c vs /\ obj_id x = obj_id c
                           /\ Get.scene_index_of x = k).
  { intros x Hx. apply in_flat_map in Hx. destruct Hx as ([k vs] & Hkv & Hx).
    unfold VarietySelector.per_scene in Hx. cbn [snd] in Hx.
    destruct (select_scene_ids self min_per_scene max_per_scene vs)
      as [Hids _].
    destruct (Hids x Hx) as (c & Hc & Eid).
    exists k, vs, c. repeat split; try assumption.
    apply (select_scene_scene_index self min_per_scene max_per_scene vs k);
      [|exact Hx].
    intros c0 H0. apply (Hkeyed k vs c0 Hkv H0). }
  split.
  - rewrite map_map.
    change (fun x => obj_id (set_quality_score None x)) with obj_id.
    clearbody d. clear Hfrom.
    induction d as [|[k vs] d IH]; cbn [flat_map]; [constructor|].
    inversion Hkeys as [|? ? Hfresh Hkeys']; subst.
    rewrite map_app. apply NoDup_app.
    + apply (select_scene_ids self min_per_scene max_per_scene vs).
      apply (Hgroup k vs). left. reflexivity.
    + apply IH; auto.
      * apply (keyed_tail _ _ _ Hkeyed).
      * intros k0 vs0 v H0. apply (Hin k0 vs0 v). right. exact H0.
      * intros k0 vs0 H0. apply (Hgroup k0 vs0). right. exact H0.
    + intros id Hx Hy.
      apply in_map_iff in Hx. destruct Hx as (x & Ex & Hx).
      apply in_map_iff in Hy. destruct Hy as (y & Ey & Hy).
      unfold VarietySelector.per_scene in Hx. cbn [snd] in Hx.
      destruct (select_scene_ids self min_per_scene max_per_scene vs)
        as [Hids _].
      destruct (Hids x Hx) as (c & Hc & Eid).
      apply in_flat_map in Hy. destruct Hy as ([k' vs'] & Hkv' & Hy).
      unfold VarietySelector.per_scene in Hy. cbn [snd] in Hy.
      destruct (select_scene_ids self min_per_scene max_per_scene vs')
        as [Hids' _].
      destruct (Hids' y Hy) as (c' & Hc' & Eid').
      assert (Ecc : c = c').
      { apply (NoDup_map_same obj_id candidates c c' Hnd).
        - apply (Hin k vs c (or_introl eq_refl) Hc).
        - apply (Hin k' vs' c' (or_intror Hkv') Hc').
        - congruence. }
      subst c'. apply Hfresh.
      assert (k = k').
      { rewrite <- (Hkeyed k vs c (or_introl eq_refl) Hc).
        apply (Hkeyed k' vs' c (or_intror Hkv') Hc'). }
      subst k'. apply in_map_iff. exists (k, vs'). split; [reflexivity|].
      exact Hkv'.
  - intros x Hx. apply in_map_iff in Hx. destruct Hx as (y & <- & Hy).
    destruct (Hfrom y Hy) as (k & vs & c & Hkv & Hc & Eid & Ek).
    exists c. split; [apply (Hin k vs c Hkv Hc)|]. split; [exact Eid|].
    change (Get.scene_index_of (set_quality_score None y))
      with (Get.scene_index_of y).
    rewrite Ek. symmetry. apply (Hkeyed k vs c Hkv Hc).
Qed.

Lemma select_no_duplicates_witness :
  NoDup (map obj_id
           (VarietySelector.select VarietySelector.init
              [ Sample.plain 1 0 1 400 "broll";
                Sample.plain 2 0 5 300 "broll" ] 2 3)).
Proof.
  apply (select_no_duplicates VarietySelector.init
           [ Sample.plain 1 0 1 400 "broll";
             Sample.plain 2 0 5 300 "broll" ] 2 3).
  cbn. repeat constructor; cbn; intuition discriminate.
Defined.

Lemma scored_candidates_nonempty cs : cs <> [] -> scored_candidates cs <> [].
Proof.
  intros Hne E. apply Hne.
  assert (L : List.length (scored_candidates cs) = List.length cs).
  { unfold scored_candidates. rewrite sort_desc_length, length_map.
    reflexivity. }
  rewrite E in L. destruct cs; [reflexivity | discriminate].
Qed.

Lemma select_scene_nonempty self min_per_scene max_per_scene cs :
  (1 <= min_per_scene)%Z -> cs <> [] ->
  VarietySelector.select_scene self min_per_scene max_per_scene cs <> [].
Proof.
  intros Hmin Hne. rewrite select_scene_unfold.
  set (p1 := VarietySelector.pick_by_category _ _ _ _ _).
  pose proof (p1_coherent self max_per_scene cs) as Hco. fold p1 in Hco.
  destruct (VarietySelector.scene_selected p1) as [|x xs] eqn:Esel.
  - assert (Ef : VarietySelector.full p1 min_per_scene = false).
    { unfold VarietySelector.full. rewrite Esel. apply Z.leb_gt. cbn. lia. }
    rewrite Ef. cbn [negb].
    destruct (scored_candidates cs) as [|c rest] eqn:Esc.
    { exfalso. apply (scored_candidates_nonempty cs Hne Esc). }
    cbn [VarietySelector.fill_minimum]. rewrite Ef, Esel.
    cbn [DictEq.candidate_in existsb].
    rewrite Hco. cbn [map VarietySelector.too_close existsb].
    destruct (fill_minimum_origin (VarietySelector.min_timestamp_gap self)
                min_per_scene rest
                (VarietySelector.accept [scene_coverage] c p1))
      as (added & -> & _).
    intro H. apply app_eq_nil in H. destruct H as [H _].
    cbn [VarietySelector.accept VarietySelector.scene_selected] in H.
    apply app_eq_nil in H. destruct H as [_ H]. discriminate.
  - destruct (negb (VarietySelector.full p1 min_per_scene)).
    + destruct (fill_minimum_origin (VarietySelector.min_timestamp_gap self)
                  min_per_scene (scored_candidates cs) p1)
        as (added & -> & _).
      rewrite Esel. discriminate.
    + rewrite Esel. discriminate.
Qed.

(** X18. With [min_per_scene >= 1] every scene that has a candidate in
    the input has a candidate in the result. *)
Theorem select_covers_every_scene
    (self : VarietySelector.t) (candidates : list Candidate)
    (min_per_scene max_per_scene : Z) (c : Candidate) :
  (1 <= min_per_scene)%Z -> In c candidates ->
  in_scene (Get.scene_index_of c)
    (VarietySelector.select self candidates min_per_scene max_per_scene)
  <> [].
Proof.
  intros Hmin Hc. rewrite in_scene_select.
  assert (Hne : in_scene (Get.scene_index_of c) candidates <> []).
  { intro E.
    assert (Hin : In c (in_scene (Get.scene_index_of c) candidates)).
    { apply filter_In. split; [exact Hc | apply Z.eqb_refl]. }
    rewrite E in Hin. destruct Hin. }
  pose proof (select_scene_nonempty self min_per_scene max_per_scene
                _ Hmin Hne) as H.
  destruct (VarietySelector.select_scene _ _ _ _); [congruence | discriminate].
Qed.

Lemma select_covers_every_scene_witness :
  in_scene 7
    (VarietySelector.select VarietySelector.init
       [ Sample.plain 1 0 1 400 "broll";
         Sample.plain 2 7 5 300 "unknown" ] 1 3)
  <> [].
Proof.
  apply (select_covers_every_scene VarietySelector.init
           [ Sample.plain 1 0 1 400 "broll";
             Sample.plain 2 7 5 300 "unknown" ] 1 3
           (Sample.plain 2 7 5 300 "unknown")).
  - lia.
  - right. left. reflexivity.
Defined.

(** X19. No scene contributes more candidates than the larger of
    [min_per_scene] and [max_per_scene]; so with
    [min_per_scene <= max_per_scene] and a non-negative [max_per_scene]
    no scene contributes more than [max_per_scene]. *)
Theorem select_respects_cap
    (self : VarietySelector.t) (candidates : list Candidate)
    (min_per_scene max_per_scene : Z) (k : Z) :
  (Z.of_nat (List.length
     (in_scene k (VarietySelector.select self candidates
                    min_per_scene max_per_scene)))
   <= Z.max 0 (Z.max min_per_scene max_per_scene))%Z
  /\ ((min_per_scene <= max_per_scene)%Z -> (0 <= max_per_scene)%Z ->
      (Z.of_nat (List.length
         (in_scene k (VarietySelector.select self candidates
                        min_per_scene max_per_scene)))
       <= max_per_scene)%Z).
Proof.
  pose proof (select_in_scene_length self min_per_scene max_per_scene
                candidates k) as H.
  split; [exact H | lia].
Qed.

Lemma select_respects_cap_witness :
  (Z.of_nat (List.length
     (in_scene 0 (VarietySelector.select VarietySelector.init
                    [ Sample.plain 1 0 1 400 "people_face";
                      Sample.plain 2 0 5 300 "detail";
                      Sample.plain 3 0 9 200 "broll" ] 1 2)))
   <= 2)%Z.
Proof.
  destruct (select_respects_cap VarietySelector.init
              [ Sample.plain 1 0 1 400 "people_face";
                Sample.plain 2 0 5 300 "detail";
                Sample.plain 3 0 9 200 "broll" ] 1 2 0) as [_ H].
  apply H; lia.
Defined.

(* ------------------------------------------------------------------ *)
(** ** VarietySelector: the first pick of a scene *)

Lemma descending_filter {A} (key : A -> Q) (keep : A -> bool) l :
  KeySort.descending key l -> KeySort.descending key (filter keep l).
Proof.
  unfold KeySort.descending.
  induction 1 as [|x l Hs IH Hx]; cbn; [constructor|].
  destruct (keep x); [|exact IH].
  constructor; [exact IH|].
  rewrite Forall_forall in *. intros y Hy. apply filter_In in Hy.
  apply Hx, Hy.
Qed.

Lemma pick_by_category_full gap max_per_scene priority by_category p :
  VarietySelector.full p max_per_scene = true ->
  VarietySelector.pick_by_category gap max_per_scene priority by_category p
  = p.
Proof.
  intro Hf. destruct priority; cbn; [reflexivity|]. rewrite Hf. reflexivity.
Qed.

Lemma pick_by_category_skip gap max_per_scene by_category pre rest p :
  (forall category, In category pre ->
     Groups.lookup String.eqb category by_category = None) ->
  VarietySelector.pick_by_category gap max_per_scene (pre ++ rest)
    by_category p
  = VarietySelector.pick_by_category gap max_per_scene rest by_category p.
Proof.
  induction pre as [|category pre IH]; intro Hnone; [reflexivity|].
  cbn [app VarietySelector.pick_by_category].
  destruct (VarietySelector.full p max_per_scene) eqn:Ef.
  - symmetry. apply pick_by_category_full, Ef.
  - rewrite (Hnone category (or_introl eq_refl)).
    apply IH. intros c Hc. apply Hnone. right. exact Hc.
Qed.

(** X20. With [max_per_scene >= 1], the first candidate a scene returns
    is the best-scored candidate of the first category of the priority
    order that occurs in the scene: it carries the reason
    [best_<category>] and no candidate of that category in the scene has
    a higher quality score. *)
Theorem select_scene_best_first
    (self : VarietySelector.t) (min_per_scene max_per_scene : Z)
    (scene_candidates : list Candidate)
    (pre : list string) (category : string) (post : list string) :
  VarietySelector.category_priority = pre ++ category :: post ->
  (1 <= max_per_scene)%Z ->
  (forall c, In c scene_candidates -> ~ In (Get.category_of c) pre) ->
  (exists c, In c scene_candidates /\ Get.category_of c = category) ->
  exists best rest,
    In best scene_candidates
    /\ Get.category_of best = category
    /\ (forall c, In c scene_candidates -> Get.category_of c = category ->
          VarietySelector.compute_quality_score c
          <= VarietySelector.compute_quality_score best)
    /\ VarietySelector.select_scene self min_per_scene max_per_scene
         scene_candidates
       = set_selection_reasons
           [best_of category;
            score (VarietySelector.compute_quality_score best)]
           (scored best)
         :: rest.
Proof.
  intros Hprio Hmax Hpre (c1 & Hc1 & Hcat1).
  set (sc := scored_candidates scene_candidates).
  set (by_cat := Groups.group_by String.eqb Get.category_of sc).
  set (key := fun x : Candidate => Get.get (quality_score x) 0).
  assert (Hsorted : KeySort.descending key sc).
  { unfold sc, scored_candidates. apply sort_desc_sorted. }
  assert (Hin_sc : forall c, In c scene_candidates -> In (scored c) sc).
  { intros c Hc. unfold sc, scored_candidates.
    eapply Permutation_in; [apply Permutation_sym, sort_desc_perm|].
    apply in_map_iff. exists c. split; [reflexivity|exact Hc]. }
  set (group := filter (fun v => String.eqb (Get.category_of v) category) sc).
  assert (Hgroup : Groups.lookup String.eqb category by_cat
                   = match group with
                     | [] => None
                     | v :: vs => Some (v :: vs)
                     end).
  { unfold by_cat, group.
    apply (group_by_lookup String.eqb String.eqb_eq). }
  assert (Hdesc : KeySort.descending key group).
  { apply descending_filter, Hsorted. }
  assert (Hmem : forall x,
            In x group <-> In x sc /\ Get.category_of x = category).
  { intro x. unfold group. rewrite filter_In, String.eqb_eq. reflexivity. }
  clearbody group.
  destruct group as [|b vs].
  { exfalso. apply (proj2 (Hmem (scored c1))).
    split; [apply Hin_sc, Hc1 | exact Hcat1]. }
  destruct (proj1 (Hmem b) (or_introl eq_refl)) as [Hbsc Hbcat].
  destruct (scored_candidates_origin scene_candidates b Hbsc)
    as (best & Hbest & Eb).
  assert (Hnone : forall category', In category' pre ->
            Groups.lookup String.eqb category' by_cat = None).
  { intros category' Hc'.
    unfold by_cat. rewrite (group_by_lookup String.eqb String.eqb_eq).
    destruct (filter (fun v0 => String.eqb (Get.category_of v0) category')
                     sc) as [|v vs'] eqn:Ef; [reflexivity|].
    exfalso.
    assert (Hv : In v (filter
                         (fun v0 => String.eqb (Get.category_of v0) category')
                         sc))
      by (rewrite Ef; left; reflexivity).
    apply filter_In in Hv. destruct Hv as [Hv Hvc].
    apply String.eqb_eq in Hvc.
    destruct (scored_candidates_origin scene_candidates v Hv)
      as (v0 & Hv0 & Ev).
    apply (Hpre v0 Hv0). rewrite Ev in Hvc. rewrite <- Hvc in Hc'.
    exact Hc'. }
  set (empty := {| VarietySelector.scene_selected := [];
                   VarietySelector.selected_timestamps := [] |}).
  set (xb := set_selection_reasons
               [best_of category;
                score (VarietySelector.compute_quality_score best)]
               (scored best)).
  assert (Hp1 : exists picks,
            VarietySelector.scene_selected
              (VarietySelector.pick_by_category
                 (VarietySelector.min_timestamp_gap self) max_per_scene
                 VarietySelector.category_priority by_cat empty)
            = xb :: picks).
  { rewrite Hprio, (pick_by_category_skip _ _ _ _ _ _ Hnone).
    cbn [VarietySelector.pick_by_category].
    assert (Ef : VarietySelector.full empty max_per_scene = false).
    { unfold VarietySelector.full. cbn. apply Z.leb_gt. lia. }
    rewrite Ef, Hgroup. cbn [VarietySelector.pick_from_category].
    rewrite Ef. cbn [VarietySelector.selected_timestamps empty
                       VarietySelector.too_close existsb].
    destruct (pick_by_category_picks
                (VarietySelector.min_timestamp_gap self) max_per_scene
                by_cat post
                (VarietySelector.accept
                   [best_of category; score (Get.get (quality_score b) 0)]
                   b empty))
      as (picks & cats & E & _).
    exists picks. rewrite E. cbn. rewrite Eb. reflexivity. }
  destruct Hp1 as (picks & Hp1).
  exists best. 
  assert (Hres : exists rest,
            VarietySelector.select_scene self min_per_scene max_per_scene
              scene_candidates = xb :: rest).
  { rewrite select_scene_unfold. fold sc. fold by_cat. fold empty.
    destruct (negb (VarietySelector.full _ min_per_scene)).
    - destruct (fill_minimum_origin
                  (VarietySelector.min_timestamp_gap self) min_per_scene sc
                  (VarietySelector.pick_by_category
                     (VarietySelector.min_timestamp_gap self) max_per_scene
                     VarietySelector.category_priority by_cat empty))
        as (added & -> & _).
      rewrite Hp1. exists (picks ++ added). reflexivity.
    - rewrite Hp1. exists picks. reflexivity. }
  destruct Hres as (rest & Hres).
  exists rest. split; [exact Hbest|]. split.
  - rewrite Eb in Hbcat. exact Hbcat.
  - split; [|exact Hres].
    intros c Hc Hcat.
    assert (Hin : In (scored c) (b :: vs)).
    { apply Hmem. split; [apply Hin_sc, Hc | exact Hcat]. }
    change (VarietySelector.compute_quality_score c) with (key (scored c)).
    change (VarietySelector.compute_quality_score best)
      with (key (scored best)).
    unfold scored at 2. rewrite <- Eb.
    destruct Hin as [<- | Hin]; [apply Qle_refl|].
    unfold KeySort.descending in Hdesc.
    apply StronglySorted_inv in Hdesc. destruct Hdesc as [_ Hall].
    rewrite Forall_forall in Hall. apply (Hall _ Hin).
Qed.

Lemma select_scene_best_first_witness :
  exists best rest,
    In best [ Sample.plain 1 0 1 100 "detail";
              Sample.plain 2 0 5 400 "detail";
              Sample.plain 3 0 9 450 "broll" ]
    /\ Get.category_of best = "detail"%string
    /\ VarietySelector.select_scene VarietySelector.init 1 3
         [ Sample.plain 1 0 1 100 "detail";
           Sample.plain 2 0 5 400 "detail";
           Sample.plain 3 0 9 450 "broll" ]
       = set_selection_reasons
           [best_of "detail";
            score (VarietySelector.compute_quality_score best)]
           (scored best)
         :: rest.
Proof.
  destruct (select_scene_best_first VarietySelector.init 1 3
              [ Sample.plain 1 0 1 100 "detail";
                Sample.plain 2 0 5 400 "detail";
                Sample.plain 3 0 9 450 "broll" ]
              ["people_face"; "people_roll"]%string "detail"%string
              ["broll"%string])
    as (best & rest & Hin & Hcat & _ & E).
  - reflexivity.
  - lia.
  - intros c [<- | [<- | [<- | []]]]; cbn; intuition discriminate.
  - exists (Sample.plain 1 0 1 100 "detail").
    split; [left; reflexivity | reflexivity].
  - exists best, rest. auto.
Defined.

(* ------------------------------------------------------------------ *)
(** ** SamplingPlanner: the whole plan *)

Section PlanFacts.
Local Open Scope Z_scope.
Import Sampling.

Lemma register_cases total idx p f :
  register total idx p f = p
  \/ (0 <= f < total
      /\ ~ In f (map fst (frame_to_scene p))
      /\ register total idx p f
         = {| frame_numbers := frame_numbers p ++ [f];
              frame_to_scene := frame_to_scene p ++ [(f, idx)] |}).
Proof.
  unfold register.
  destruct ((f <? 0) || (total <=? f)) eqn:E; [left; reflexivity|].
  apply orb_false_iff in E. destruct E as [E1 E2].
  apply Z.ltb_ge in E1. apply Z.leb_gt in E2.
  destruct (existsb (Z.eqb f) (map fst (frame_to_scene p))) eqn:Ex;
    [left; reflexivity|].
  right. split; [lia|]. split; [|reflexivity].
  intro Hin. apply existsb_Zeqb_In in Hin. congruence.
Qed.

Lemma register_consistent total idx p f :
  plan_consistent total p -> plan_consistent total (register total idx p f).
Proof.
  intros (Hnd & Hk & Hr).
  destruct (register_cases total idx p f) as [-> | (Hf & Hfresh & ->)].
  - repeat split; assumption.
  - unfold plan_consistent. cbn [frame_numbers frame_to_scene].
    split; [|split].
    + apply NoDup_app; [exact Hnd | repeat constructor; intros [] |].
      intros x Hx [<- | []]. apply Hfresh. rewrite Hk. exact Hx.
    + rewrite map_app, Hk. reflexivity.
    + apply Forall_app. split; [exact Hr | repeat constructor; lia].
Qed.

Lemma fold_register_consistent total idx l : forall p,
  plan_consistent total p ->
  plan_consistent total (fold_left (register total idx) l p).
Proof.
  induction l as [|f l IH]; intros p Hp; cbn; [exact Hp|].
  apply IH, register_consistent, Hp.
Qed.

Lemma fold_register_entries total idx l : forall p f i,
  In (f, i) (frame_to_scene (fold_left (register total idx) l p)) ->
  In (f, i) (frame_to_scene p) \/ (i = idx /\ In f l).
Proof.
  induction l as [|x l IH]; intros p f i Hin; cbn in Hin; [left; exact Hin|].
  destruct (IH _ f i Hin) as [H | [-> H]].
  - destruct (register_cases total idx p x) as [E | (_ & _ & E)];
      rewrite E in H.
    + left. exact H.
    + cbn in H. apply in_app_or in H. destruct H as [H | [H | []]].
      * left. exact H.
      * injection H as <- <-. right. split; [reflexivity | left; reflexivity].
  - right. split; [reflexivity | right; exact H].
Qed.

(** The candidate set of a scene that does not end before it starts. *)
Lemma scene_candidates_range duration interval start end_ :
  1 <= interval -> 0 <= end_ - start ->
  exists cs,
    scene_candidates duration interval start end_ = Ok cs
    /\ forall f, In f cs -> start <= f <= end_.
Proof.
  intros Hi HL. unfold scene_candidates.
  set (offset := Z.min 3 ((end_ - start) / 4)).
  set (base := set_add (end_ - offset)
                 (set_add ((start + end_) / 2) (set_add (start + offset) []))).
  assert (Hoff : 0 <= offset /\ 4 * offset <= end_ - start).
  { unfold offset. Z.div_mod_to_equations. lia. }
  assert (Hmid : start <= (start + end_) / 2 <= end_).
  { Z.div_mod_to_equations. lia. }
  assert (Hbase : forall y, In y base -> start <= y <= end_).
  { intros y Hy. unfold base in Hy. rewrite !set_add_In in Hy. cbn in Hy.
    lia. }
  destruct (Qgtb duration 1).
  - destruct (sample_loop_enough_fuel
                (Z.to_nat (end_ - offset - (start + offset)))
                (start + offset) (end_ - offset) interval base Hi
                (Nat.le_refl _)) as (r & Hr & _ & _ & Hin).
    exists r. split; [exact Hr|].
    intros f Hf. destruct (Hin f Hf) as [H | H]; [apply Hbase, H | lia].
  - exists base. split; [reflexivity | exact Hbase].
Qed.

Lemma long_scene_positive fps start end_ :
  (0 < fps)%Q ->
  Qltb (inject_Z (end_ - start) / fps) (3 # 10) = false ->
  0 < end_ - start.
Proof.
  intros Hfps Hd. apply Qltb_ge in Hd.
  destruct (Z.lt_ge_cases 0 (end_ - start)) as [H | H]; [exact H|].
  exfalso.
  assert (Hle : (inject_Z (end_ - start) / fps <= 0)%Q).
  { apply Qle_shift_div_r; [exact Hfps|]. rewrite Qmult_0_l.
    change 0%Q with (inject_Z 0). rewrite <- Zle_Qle. exact H. }
  assert (Habs : (3 # 10 <= 0)%Q) by (eapply Qle_trans; eassumption).
  unfold Qle in Habs. cbn in Habs. lia.
Qed.

Lemma plan_scene_cases fps interval total p idx start end_ :
  ~ (fps == 0)%Q -> 1 <= interval ->
  plan_scene fps interval total p idx (start, end_) = Ok p
  \/ exists cs,
       Qltb (inject_Z (end_ - start) / fps) (3 # 10) = false
       /\ scene_candidates (inject_Z (end_ - start) / fps)%Q interval
            start end_ = Ok cs
       /\ plan_scene fps interval total p idx (start, end_)
          = Ok (fold_left (register total idx) (sorted cs) p).
Proof.
  intros Hfps Hi. unfold plan_scene.
  assert (Hz : Qeq_bool fps 0 = false).
  { destruct (Qeq_bool fps 0) eqn:E; [|reflexivity].
    apply Qeq_bool_eq in E. contradiction. }
  rewrite Hz.
  destruct (Qltb (inject_Z (end_ - start) / fps) (3 # 10)) eqn:Ed;
    [left; reflexivity|].
  destruct (scene_candidates_returns (inject_Z (end_ - start) / fps)%Q
              interval start end_ Hi) as (cs & E).
  right. exists cs. rewrite E. auto.
Qed.

Lemma plan_scenes_returns fps interval total scenes : forall p idx,
  ~ (fps == 0)%Q -> 1 <= interval ->
  plan_consistent total p ->
  exists p',
    plan_scenes fps interval total p idx scenes = Ok p'
    /\ plan_consistent total p'.
Proof.
  induction scenes as [|[start end_] scenes IH]; intros p idx Hfps Hi Hp;
    cbn [plan_scenes].
  - exists p. auto.
  - destruct (plan_scene_cases fps interval total p idx start end_ Hfps Hi)
      as [-> | (cs & _ & _ & ->)].
    + apply IH; assumption.
    + apply IH; [assumption | assumption |].
      apply fold_register_consistent, Hp.
Qed.

Lemma plan_scenes_attributed fps interval total scenes :
  forall done p p',
  (0 < fps)%Q -> 1 <= interval ->
  plan_attributed (done ++ scenes) p ->
  plan_scenes fps interval total p (List.length done) scenes = Ok p' ->
  plan_attributed (done ++ scenes) p'.
Proof.
  induction scenes as [|[start end_] scenes IH];
    intros done p p' Hfps Hi Hp E; cbn [plan_scenes] in E.
  - injection E as <-. exact Hp.
  - assert (Hnz : ~ (fps == 0)%Q).
    { intro Z0. rewrite Z0 in Hfps. discriminate. }
    assert (Hstep : forall q,
              plan_attributed ((done ++ [(start, end_)]) ++ scenes) q ->
              plan_scenes fps interval total q
                (List.length (done ++ [(start, end_)])) scenes = Ok p' ->
              plan_attributed (done ++ (start, end_) :: scenes) p').
    { intros q Hq Eq. specialize (IH (done ++ [(start, end_)]) q p' Hfps Hi).
      rewrite <- app_assoc in IH. cbn [app] in IH.
      rewrite <- app_assoc in Hq. cbn [app] in Hq.
      apply IH; assumption. }
    assert (Elen : List.length (done ++ [(start, end_)])
                   = S (List.length done)).
    { rewrite length_app. cbn. lia. }
    destruct (plan_scene_cases fps interval total p (List.length done)
                start end_ Hnz Hi) as [E1 | (cs & Ed & Ecs & E1)];
      rewrite E1 in E.
    + apply (Hstep p).
      * rewrite <- app_assoc. exact Hp.
      * rewrite Elen. exact E.
    + apply (Hstep (fold_left (register total (List.length done))
                      (sorted cs) p)).
      * rewrite <- app_assoc. cbn [app].
        intros f i Hin.
        destruct (fold_register_entries _ _ _ _ f i Hin) as [H | [-> H]].
        -- apply Hp, H.
        -- exists start, end_. split.
           ++ rewrite nth_error_app2, Nat.sub_diag; [reflexivity | lia].
           ++ pose proof (long_scene_positive fps start end_ Hfps Ed) as HL.
              destruct (scene_candidates_range
                          (inject_Z (end_ - start) / fps)%Q interval
                          start end_ Hi) as (cs' & Ecs' & Hrange); [lia|].
              rewrite Ecs in Ecs'. injection Ecs' as <-.
              apply Hrange. apply (Permutation_in _ (sorted_perm cs)), H.
      * rewrite Elen. exact E.
Qed.

End PlanFacts.

(** X21. With a non-zero frame rate the planner always returns a plan,
    and in it no frame number occurs twice, every frame number lies in
    [[0, total_frames)], and the keys of [frame_to_scene] are exactly the
    planned frame numbers, in the same order. *)
Theorem plan_frames_consistent
    (fps sample_interval : Q) (total_frames : Z) (scenes : list (Z * Z)) :
  ~ fps == 0 ->
  exists p,
    Sampling.plan_frames fps sample_interval total_frames scenes = Ok p
    /\ NoDup (Sampling.frame_numbers p)
    /\ Forall (fun f => (0 <= f < total_frames)%Z)
              (Sampling.frame_numbers p)
    /\ map fst (Sampling.frame_to_scene p) = Sampling.frame_numbers p.
Proof.
  intro Hfps. unfold Sampling.plan_frames.
  destruct (plan_scenes_returns fps
              (Sampling.frame_interval fps sample_interval) total_frames
              scenes
              {| Sampling.frame_numbers := []; Sampling.frame_to_scene := [] |}
              O Hfps (frame_interval_pos _ _))
    as (p & E & Hnd & Hk & Hr).
  - split; [constructor | split; [reflexivity | constructor]].
  - exists p. auto.
Qed.

Lemma plan_frames_consistent_witness :
  exists p,
    Sampling.plan_frames 10 (3 # 2) 100 [(0, 3); (3, 6)]%Z = Ok p
    /\ NoDup (Sampling.frame_numbers p).
Proof.
  destruct (plan_frames_consistent 10 (3 # 2) 100 [(0, 3); (3, 6)]%Z)
    as (p & E & Hnd & _).
  - intro H. discriminate H.
  - exists p. auto.
Defined.

(** X22. With a positive frame rate every planned frame is attributed to
    a scene that contains it: the index stored for the frame is the
    index of a scene of the list, and the frame lies between that
    scene's start and end. *)
Theorem plan_frames_attributed
    (fps sample_interval : Q) (total_frames : Z) (scenes : list (Z * Z))
    (p : Sampling.plan) (f : Z) (i : nat) :
  0 < fps ->
  Sampling.plan_frames fps sample_interval total_frames scenes = Ok p ->
  In (f, i) (Sampling.frame_to_scene p) ->
  exists start end_,
    nth_error scenes i = Some (start, end_) /\ (start <= f <= end_)%Z.
Proof.
  intros Hfps E Hin.
  apply (plan_scenes_attributed fps
           (Sampling.frame_interval fps sample_interval) total_frames
           scenes []
           {| Sampling.frame_numbers := []; Sampling.frame_to_scene := [] |}
           p Hfps (frame_interval_pos _ _)).
  - intros f0 i0 [].
  - exact E.
  - exact Hin.
Qed.

Lemma plan_frames_attributed_witness :
  exists start end_,
    nth_error [(0, 100); (100, 130)]%Z 1 = Some (start, end_)
    /\ (start <= 115 <= end_)%Z.
Proof.
  apply (plan_frames_attributed 24 (3 # 2) 1000 [(0, 100); (100, 130)]%Z
           {| Sampling.frame_numbers :=
                [3; 39; 50; 75; 97; 103; 115; 127]%Z;
              Sampling.frame_to_scene :=
                [(3%Z, 0%nat); (39%Z, 0%nat); (50%Z, 0%nat); (75%Z, 0%nat);
                 (97%Z, 0%nat); (103%Z, 1%nat); (115%Z, 1%nat);
                 (127%Z, 1%nat)] |} 115 1).
  - reflexivity.
  - vm_compute. reflexivity.
  - cbn. intuition.
Defined.

(* ------------------------------------------------------------------ *)
(** ** SmileEstimator: ranges *)

Lemma clip_bounds x lo hi : lo <= hi -> lo <= clip x lo hi /\ clip x lo hi <= hi.
Proof.
  intro H. unfold clip. split.
  - apply Q.min_glb; [apply Q.le_max_r | exact H].
  - apply Q.le_min_r.
Qed.

Lemma clip_inside x lo hi : lo <= x -> x <= hi -> clip x lo hi == x.
Proof.
  intros H1 H2. unfold clip.
  rewrite (Q.max_l x lo H1). apply Q.min_l, H2.
Qed.

(** X23. For a positive eye distance the 106-point smile score lies in
    [[0, 0.9]]: the three components weigh 0.4, 0.4 and 0.2 and the
    openness component is capped at 0.5, so the final clip to [[0, 1]]
    never changes the weighted sum. *)
Theorem smile_score_range
    (mouth_width mouth_height eye_distance avg_lift : Q) :
  0 < eye_distance ->
  let s := Smile.smile_score mouth_width mouth_height eye_distance
             avg_lift in
  0 <= s /\ s <= 9 # 10
  /\ s == Smile.width_score mouth_width eye_distance * (4 # 10)
          + Smile.lift_score avg_lift eye_distance * (4 # 10)
          + Smile.openness_score mouth_height mouth_width * (2 # 10).
Proof.
  intros _. cbv zeta. unfold Smile.smile_score.
  assert (W : 0 <= Smile.width_score mouth_width eye_distance
              /\ Smile.width_score mouth_width eye_distance <= 1).
  { unfold Smile.width_score. apply clip_bounds. discriminate. }
  assert (L : 0 <= Smile.lift_score avg_lift eye_distance
              /\ Smile.lift_score avg_lift eye_distance <= 1).
  { unfold Smile.lift_score. apply clip_bounds. discriminate. }
  assert (O : 0 <= Smile.openness_score mouth_height mouth_width
              /\ Smile.openness_score mouth_height mouth_width <= 1 # 2).
  { unfold Smile.openness_score. apply clip_bounds. discriminate. }
  set (ws := Smile.width_score mouth_width eye_distance) in *.
  set (ls := Smile.lift_score avg_lift eye_distance) in *.
  set (os := Smile.openness_score mouth_height mouth_width) in *.
  assert (E : clip (ws * (4 # 10) + ls * (4 # 10) + os * (2 # 10)) 0 1
              == ws * (4 # 10) + ls * (4 # 10) + os * (2 # 10)).
  { apply clip_inside; lra. }
  rewrite E. repeat split; lra.
Qed.

Lemma smile_score_range_witness :
  Smile.smile_score 12 3 10 1 <= 9 # 10.
Proof.
  destruct (smile_score_range 12 3 10 1) as (_ & H & _).
  - reflexivity.
  - exact H.
Defined.

(** X24. The 5-point fallback gives 0 for fewer than five landmarks.
    With five landmarks and a positive eye distance its score lies in
    [[0, 1]], is 0 whenever the mouth is at most 0.4 eye distances wide
    and is 1 whenever it is at least 0.9 eye distances wide. *)
Theorem estimate_smile_5pt_range
    (landmark_count : nat) (face_width mouth_width : Q) :
  let s := SmileFallback.estimate_smile_5pt landmark_count face_width
             mouth_width in
  ((landmark_count < 5)%nat -> s = 0)
  /\ ((5 <= landmark_count)%nat -> 0 < face_width ->
      0 <= s /\ s <= 1
      /\ (mouth_width <= (4 # 10) * face_width -> s == 0)
      /\ ((9 # 10) * face_width <= mouth_width -> s == 1)).
Proof.
  cbv zeta. unfold SmileFallback.estimate_smile_5pt. split.
  - intro H. apply Nat.ltb_lt in H. rewrite H. reflexivity.
  - intros H Hfw. apply Nat.ltb_ge in H. rewrite H.
    assert (G : Qgtb face_width 0 = true) by (apply Qgtb_gt; exact Hfw).
    rewrite G.
    destruct (clip_bounds ((mouth_width / face_width - (4 # 10)) * 2) 0 1)
      as [B1 B2]; [discriminate|].
    split; [exact B1|]. split; [exact B2|]. split.
    + intro Hm.
      assert (Hr : mouth_width / face_width <= 4 # 10).
      { apply Qle_shift_div_r; assumption. }
      unfold clip. rewrite Q.max_r by lra. apply Q.min_l. discriminate.
    + intro Hm.
      assert (Hr : 9 # 10 <= mouth_width / face_width).
      { apply Qle_shift_div_l; assumption. }
      unfold clip. rewrite Q.max_l by lra. apply Q.min_r. lra.
Qed.

Lemma estimate_smile_5pt_range_witness :
  SmileFallback.estimate_smile_5pt 5 10 9 == 1.
Proof.
  destruct (estimate_smile_5pt_range 5 10 9) as [_ H].
  destruct H as (_ & _ & _ & H1); [lia | reflexivity |].
  apply H1. apply Qle_bool_iff. reflexivity.
Defined.

(* ------------------------------------------------------------------ *)
(** ** QualityGate: what the phase returns *)

(** X25. Every frame the quality phase returns is one of the extracted
    frames.  When at least one frame reaches the threshold the phase
    returns exactly the frames that reach it, in their extraction order:
    none below the threshold is returned and none that reaches it is
    dropped. *)
Theorem quality_phase_passing (frames : list Quality.Frame) (thr : Q) :
  (forall f, In f (Quality.quality_phase frames thr) -> In f frames)
  /\ ((exists f, In f frames /\ thr <= Quality.sharpness_score f) ->
      Quality.quality_phase frames thr
      = filter (fun f => Qle_bool thr (Quality.sharpness_score f)) frames
      /\ (forall f, In f (Quality.quality_phase frames thr) ->
            thr <= Quality.sharpness_score f)
      /\ (forall f, In f frames -> thr <= Quality.sharpness_score f ->
            In f (Quality.quality_phase frames thr))).
Proof.
  split.
  - intros f Hf. unfold Quality.quality_phase in Hf.
    destruct (Quality.filter_by_quality frames thr) as [|g gs] eqn:E.
    + destruct frames as [|f0 frames0]; [destruct Hf|].
      apply in_firstn_in in Hf.
      apply (Permutation_in _
               (sort_desc_perm Quality.sharpness_score (f0 :: frames0))), Hf.
    + rewrite <- E in Hf. unfold Quality.filter_by_quality in Hf.
      apply filter_In in Hf. apply Hf.
  - intros (f0 & H0 & Hthr).
    assert (Hne : In f0 (Quality.filter_by_quality frames thr)).
    { apply filter_In. split; [exact H0 | apply Qgeb_ge, Hthr]. }
    assert (E : Quality.quality_phase frames thr
                = Quality.filter_by_quality frames thr).
    { unfold Quality.quality_phase.
      destruct (Quality.filter_by_quality frames thr); [destruct Hne|].
      reflexivity. }
    rewrite E. split; [reflexivity|]. split.
    + intros f Hf. apply filter_In in Hf. apply Qgeb_ge, Hf.
    + intros f Hf Ht. apply filter_In. split; [exact Hf | apply Qgeb_ge, Ht].
Qed.

Lemma quality_phase_passing_witness :
  Quality.quality_phase
    [ {| Quality.frame_number := 3; Quality.scene_index := 0;
         Quality.timestamp := 1 # 10; Quality.sharpness_score := 10 |};
      {| Quality.frame_number := 9; Quality.scene_index := 0;
         Quality.timestamp := 3 # 10; Quality.sharpness_score := 80 |} ] 50
  = [ {| Quality.frame_number := 9; Quality.scene_index := 0;
         Quality.timestamp := 3 # 10; Quality.sharpness_score := 80 |} ].
Proof.
  destruct (quality_phase_passing
              [ {| Quality.frame_number := 3; Quality.scene_index := 0;
                   Quality.timestamp := 1 # 10;
                   Quality.sharpness_score := 10 |};
                {| Quality.frame_number := 9; Quality.scene_index := 0;
                   Quality.timestamp := 3 # 10;
                   Quality.sharpness_score := 80 |} ] 50) as [_ H].
  destruct H as [E _].
  - eexists. split; [right; left; reflexivity|].
    apply Qle_bool_iff. reflexivity.
  - rewrite E. reflexivity.
Defined.

(* ------------------------------------------------------------------ *)
(** ** FrameClassifier: the result *)

Lemma lower_ascii_idempotent c :
  Str.lower_ascii (Str.lower_ascii c) = Str.lower_ascii c.
Proof.
  destruct c as [[] [] [] [] [] [] [] []]; vm_compute; reflexivity.
Qed.

Lemma lower_idempotent s : Str.lower (Str.lower s) = Str.lower s.
Proof.
  induction s as [|c s IH]; cbn; [reflexivity|].
  rewrite lower_ascii_idempotent, IH. reflexivity.
Qed.

Lemma category_of_tags_range tags_str :
  In (Category.category_of_tags tags_str)
     ["detail"; "people_roll"; "broll"]%string.
Proof.
  unfold Category.category_of_tags.
  destruct (Str.any_in Category.detail_keywords tags_str); [cbn; auto|].
  destruct (Str.any_in Category.people_keywords tags_str); [cbn; auto|].
  destruct (Str.any_in Category.broll_keywords tags_str); cbn; auto.
Qed.

(** X26. A category that [classify_frame_category] returns is always one
    of the four of the selector's priority order, so the category pass
    can pick the frame.  The letter case of the tags does not matter.
    The function raises only when a face with a positive area meets a
    frame of area zero. *)
Theorem classify_frame_category_result
    (faces : list Face) (tags : list string) (w h : Z) :
  (forall category,
     Category.classify_frame_category faces tags w h = Ok category ->
     In category VarietySelector.category_priority)
  /\ Category.classify_frame_category faces (map Str.lower tags) w h
     = Category.classify_frame_category faces tags w h
  /\ (Category.classify_frame_category faces tags w h = ZeroDivisionError ->
      (w * h = 0)%Z
      /\ (0 < snd (Category.sum_valid_faces faces 0 0%Z))%Z)
  /\ Category.classify_frame_category faces tags w h <> OutOfFuel.
Proof.
  assert (Hrange : forall s,
            In (Category.category_of_tags s)
               VarietySelector.category_priority).
  { intro s. pose proof (category_of_tags_range s) as H.
    cbn in H. cbn. intuition. }
  split; [|split; [|split]].
  - intros category E. unfold Category.classify_frame_category in E.
    destruct faces as [|f fs].
    + injection E as <-. apply Hrange.
    + destruct (Category.sum_valid_faces (f :: fs) 0 0%Z) as [total valid].
      destruct (0 <? valid)%Z.
      * destruct (w * h =? 0)%Z; [discriminate|].
        destruct (Qgeb _ _); injection E as <-;
          [cbn; auto | apply Hrange].
      * injection E as <-. apply Hrange.
  - unfold Category.classify_frame_category.
    rewrite map_map.
    rewrite (map_ext (fun t => Str.lower (Str.lower t)) Str.lower
               lower_idempotent).
    reflexivity.
  - intro E. unfold Category.classify_frame_category in E.
    destruct faces as [|f fs]; [discriminate|].
    destruct (Category.sum_valid_faces (f :: fs) 0 0%Z) as [total valid].
    cbn [snd].
    destruct (0 <? valid)%Z eqn:Ev; [|discriminate].
    destruct (w * h =? 0)%Z eqn:Ea.
    + split; [apply Z.eqb_eq, Ea | apply Z.ltb_lt, Ev].
    + destruct (Qgeb _ _); discriminate.
  - unfold Category.classify_frame_category.
    destruct faces as [|f fs]; [discriminate|].
    destruct (Category.sum_valid_faces (f :: fs) 0 0%Z) as [total valid].
    destruct (0 <? valid)%Z; [|discriminate].
    destruct (w * h =? 0)%Z; [discriminate|].
    destruct (Qgeb _ _); discriminate.
Qed.

(* ------------------------------------------------------------------ *)
(** ** VarietySelector: face clusters and b-roll overlap *)

Lemma set_add_NoDup_clusters x s :
  NoDup s -> NoDup (VarietySelector.set_add x s).
Proof.
  intro H. unfold VarietySelector.set_add.
  destruct (existsb (Z.eqb x) s) eqn:E; [exact H|].
  apply NoDup_app; [exact H | repeat constructor; intros [] |].
  intros y Hy [<- | []]. apply existsb_Zeqb_In in Hy. congruence.
Qed.

(** X27. [get_face_clusters] returns every cluster id that one of the
    candidate's faces carries, except the marker [-1] and any other
    negative label, and it returns each id once. *)
Theorem get_face_clusters_exact (candidate : Candidate) :
  NoDup (VarietySelector.get_face_clusters candidate)
  /\ forall id,
       In id (VarietySelector.get_face_clusters candidate) <->
       (exists face_key,
          In (face_key, id) (Get.get (cluster_labels candidate) []))
       /\ (0 <= id)%Z.
Proof.
  split.
  - unfold VarietySelector.get_face_clusters.
    assert (G : forall labels acc, NoDup acc ->
              NoDup (fold_left
                       (fun clusters (kv : string * Z) =>
                          if (0 <=? snd kv)%Z
                          then VarietySelector.set_add (snd kv) clusters
                          else clusters) labels acc)).
    { induction labels as [|kv labels IH]; intros acc Ha; cbn; [exact Ha|].
      apply IH. destruct (0 <=? snd kv)%Z;
        [apply set_add_NoDup_clusters, Ha | exact Ha]. }
    apply G. constructor.
  - intro id. rewrite get_face_clusters_In. split.
    + intros (k & Hk & Hid). split; [exists k; exact Hk | exact Hid].
    + intros [(k & Hk) Hid]. exists k. split; assumption.
Qed.





